(** * fantasy-soccer: the Transfermarkt crawl-and-extract scripts

    A shallow embedding of [src/scripts/scrape-transfermarkt.ts] and of the
    full-profile scraper and the single-player test script that
    [src/scripts/test-single-player.ts] carries, with the properties of the
    text normalizer, the identifier resolver, entity discovery, field
    extraction, asset resolution and the main loops.

    JavaScript strings are sequences of UTF-16 code units; they are modelled
    as [list N].  Regular expressions are embedded as syntax trees and run by
    a backtracking matcher that follows the ECMAScript pattern semantics
    (continuation passing, greedy and lazy quantifiers, captures, [^] and [$],
    the [i] and [m] flags). *)

From Stdlib Require Import String Ascii NArith ZArith List Lia Bool.
From stdpp Require Import base option list gmap.

Set Default Proof Using "Type".
Local Open Scope N_scope.
Local Open Scope nat_scope.

(** ** JavaScript strings *)

Definition jsstring := list N.

Module JS.

(** Decoding of a UTF-8 source literal into UTF-16 code units, so that the
    string literals of the scripts can be written as they are in the source. *)
Definition cont_bits (b : N) : N := N.land b 63.

Definition units_of_codepoint (cp : N) : list N :=
  if (cp <? 65536)%N then [cp]
  else let v := (cp - 65536)%N in
       [(55296 + N.shiftr v 10)%N; (56320 + N.land v 1023)%N].

Fixpoint decode_utf8 (bs : list N) : list N :=
  match bs with
  | [] => []
  | b :: tl =>
    if (b <? 128)%N then b :: decode_utf8 tl
    else if (b <? 224)%N then
      match tl with
      | b1 :: tl1 =>
        (N.shiftl (N.land b 31) 6 + cont_bits b1)%N :: decode_utf8 tl1
      | [] => [65533%N]
      end
    else if (b <? 240)%N then
      match tl with
      | b1 :: b2 :: tl2 =>
        (N.shiftl (N.land b 15) 12 + N.shiftl (cont_bits b1) 6 + cont_bits b2)%N
          :: decode_utf8 tl2
      | _ => [65533%N]
      end
    else
      match tl with
      | b1 :: b2 :: b3 :: tl3 =>
        units_of_codepoint
          (N.shiftl (N.land b 7) 18 + N.shiftl (cont_bits b1) 12
           + N.shiftl (cont_bits b2) 6 + cont_bits b3)%N
          ++ decode_utf8 tl3
      | _ => [65533%N]
      end
  end.

Definition utf16 (s : string) : jsstring :=
  decode_utf8 (map N_of_ascii (list_ascii_of_string s)).

(** [WhiteSpace] and [LineTerminator] code units: the set that [\s] matches
    and that [String.prototype.trim] strips. *)
Definition white_ranges : list (N * N) :=
  [(9, 13); (32, 32); (160, 160); (5760, 5760); (8192, 8202); (8232, 8233);
   (8239, 8239); (8287, 8287); (12288, 12288); (65279, 65279)]%N.

Definition in_range (c : N) (r : N * N) : bool :=
  ((fst r <=? c) && (c <=? snd r))%N.

Definition in_ranges (rs : list (N * N)) (c : N) : bool :=
  existsb (in_range c) rs.

Definition is_white (c : N) : bool := in_ranges white_ranges c.

Definition is_line_terminator (c : N) : bool :=
  ((c =? 10) || (c =? 13) || (c =? 8232) || (c =? 8233))%N.

(** [String.prototype.trim]. *)
Fixpoint trim_start (s : jsstring) : jsstring :=
  match s with
  | c :: tl => if is_white c then trim_start tl else s
  | [] => []
  end.

Definition trim_end (s : jsstring) : jsstring := rev (trim_start (rev s)).

Definition trim (s : jsstring) : jsstring := trim_end (trim_start s).

(** [s.startsWith(p)]. *)
Fixpoint starts_with (p s : jsstring) : bool :=
  match p, s with
  | [], _ => true
  | a :: p', b :: s' => (a =? b)%N && starts_with p' s'
  | _ :: _, [] => false
  end.

(** [s.includes(p)]. *)
Fixpoint includes (p s : jsstring) : bool :=
  starts_with p s ||
  match s with
  | [] => false
  | _ :: tl => includes p tl
  end.

(** [s.replace(p, r)] for a string pattern [p] and a replacement [r] without
    [$] patterns: the first occurrence only. *)
Fixpoint replace_str (p r s : jsstring) : jsstring :=
  if starts_with p s then r ++ drop (length p) s
  else match s with
       | [] => []
       | c :: tl => c :: replace_str p r tl
       end.

(** [s.split(sep)] for a non-empty string separator.  [skip] counts the code
    units of a separator occurrence that are still to be passed over and
    [cur] holds the piece being read, reversed. *)
Fixpoint split_go (sep : jsstring) (skip : nat) (cur : jsstring) (s : jsstring)
  : list jsstring :=
  match s with
  | [] => [rev cur]
  | c :: tl =>
    match skip with
    | S n => split_go sep n cur tl
    | O =>
      if starts_with sep s
      then rev cur :: split_go sep (length sep - 1) [] tl
      else split_go sep 0 (c :: cur) tl
    end
  end.

Definition split_str (sep s : jsstring) : list jsstring := split_go sep 0 [] s.

(** Numbers.  [parseInt] returns an IEEE 754 double.  The doubles that it
    can return are [NaN], the two infinities, negative zero and the integers
    that a double holds: [Num z] stands for the double of value [z] ([Num 0]
    for [+0]), and is only built for such an integer. *)
Inductive number := NaN | Num (z : Z) | NegZero | Infinity | NegInfinity.

Definition is_digit (c : N) : bool := ((48 <=? c) && (c <=? 57))%N.

(** The integer that a prefix of decimal digits denotes. *)
Fixpoint digits_value (acc : Z) (s : jsstring) : Z :=
  match s with
  | c :: tl => if is_digit c then digits_value (10 * acc + Z.of_N (c - 48)) tl else acc
  | [] => acc
  end.

(** The Number value of a non-negative integer [z]: [z] itself when it has
    at most 53 significant bits; otherwise [z] rounded to 53 significant bits,
    to the nearest double and to the even one of two that are equally near,
    and [Infinity] when the rounded value reaches 2^1024.  This is the
    rounding of the engines that run the scripts (ECMAScript also allows an
    engine to read the digits after the 20th as zeros). *)
Definition number_of (z : Z) : number :=
  if (Z.log2 z <? 53)%Z then Num z
  else
    let e := (Z.log2 z - 52)%Z in
    let q := Z.shiftr z e in
    let r := (z - Z.shiftl q e)%Z in
    let half := Z.shiftl 1 (e - 1) in
    let q' := if (r <? half)%Z || ((r =? half)%Z && Z.even q) then q else (q + 1)%Z in
    let v := Z.shiftl q' e in
    if (1024 <=? Z.log2 v)%Z then Infinity else Num v.

(** Unary minus, on the numbers above. *)
Definition negate (n : number) : number :=
  match n with
  | NaN => NaN
  | Num z => if (z =? 0)%Z then NegZero else Num (- z)
  | NegZero => Num 0
  | Infinity => NegInfinity
  | NegInfinity => Infinity
  end.

Definition parse_digits (s : jsstring) : number :=
  match s with
  | c :: _ => if is_digit c then number_of (digits_value 0 s) else NaN
  | [] => NaN
  end.

(** [parseInt(s, 10)]: leading white space, an optional sign, then the
    longest prefix of decimal digits; [NaN] when there is none, and otherwise
    the Number value of the integer, negated after a minus sign. *)
Definition parseInt (s : jsstring) : number :=
  match trim_start s with
  | c :: tl =>
    if (c =? 45)%N then negate (parse_digits tl)
    else if (c =? 43)%N then parse_digits tl
    else parse_digits (c :: tl)
  | [] => NaN
  end.

End JS.

Notation "'js' s" := (JS.utf16 s) (at level 9, s at level 0, only parsing).

(** ** Regular expressions *)

Module Regex.

Inductive regex :=
| Eps
| Lit (s : jsstring)
| Cls (inv : bool) (rs : list (N * N))
| Seq (r1 r2 : regex)
| Alt (r1 r2 : regex)
| Rep (r : regex) (mn : nat) (mx : option nat) (greedy : bool)
| Grp (i : nat) (r : regex)
| Bol
| Eol.

Record flags := Flags { ignoreCase : bool; multiline : bool }.

Definition no_flags := Flags false false.
Definition flag_i := Flags true false.
Definition flag_m := Flags false true.
Definition flag_im := Flags true true.

(** Pattern syntax of the scripts. *)
Definition digit : regex := Cls false [(48, 57)%N].
Definition space : regex := Cls false JS.white_ranges.
Definition star (r : regex) : regex := Rep r 0 None true.
Definition plus (r : regex) : regex := Rep r 1 None true.
Definition plus_lazy (r : regex) : regex := Rep r 1 None false.
Definition opt (r : regex) : regex := Rep r 0 (Some 1) true.
Definition times (n : nat) (r : regex) : regex := Rep r n (Some n) true.
Definition at_least (n : nat) (r : regex) : regex := Rep r n None true.
Definition any : regex := Cls true [(10, 10); (13, 13); (8232, 8233)]%N.   (* [.] *)

Fixpoint seq (rs : list regex) : regex :=
  match rs with
  | [] => Eps
  | [r] => r
  | r :: tl => Seq r (seq tl)
  end.

Fixpoint alt (rs : list regex) : regex :=
  match rs with
  | [] => Eps
  | [r] => r
  | r :: tl => Alt r (alt tl)
  end.

(** [Canonicalize] of the pattern semantics without the [u] flag: the simple
    upper-case mapping, except that a code unit of 128 or more never folds
    onto an ASCII one.  The table covers ASCII and Latin-1; code units from
    256 on are left as they are, which agrees with ECMAScript on every
    pattern of the scripts (their literals and classes lie within Latin-1,
    whose upper-case images are ASCII, Latin-1, 376 and 924). *)
Definition upper (c : N) : N :=
  if ((97 <=? c) && (c <=? 122))%N then (c - 32)%N
  else if (c =? 181)%N then 924%N
  else if ((224 <=? c) && (c <=? 254) && negb (c =? 247))%N then (c - 32)%N
  else if (c =? 255)%N then 376%N
  else c.

Definition canon (fl : flags) (c : N) : N :=
  if ignoreCase fl then upper c else c.

(** Members of a class, for the case-insensitive comparison (there is a
    member whose canonical form is that of the input). *)
Definition range_members (r : N * N) : list N :=
  map (fun k => (fst r + N.of_nat k)%N) (List.seq 0 (S (N.to_nat (snd r - fst r)))).

Definition class_has (fl : flags) (rs : list (N * N)) (c : N) : bool :=
  if ignoreCase fl
  then existsb (fun r => existsb (fun a => (upper a =? upper c)%N) (range_members r)) rs
  else JS.in_ranges rs c.

Record mstate := MState {
  prev : option N;          (* the code unit before the current position *)
  pos : nat;                (* code units consumed since the attempt began *)
  rest : jsstring;          (* the input from the current position on *)
  caps : list (option jsstring)
}.

Definition advance (x : mstate) (c : N) (tl : jsstring) : mstate :=
  MState (Some c) (S (pos x)) tl (caps x).

Definition cont := mstate -> option mstate.

Fixpoint lit_match (fl : flags) (s : jsstring) (x : mstate) (k : cont) : option mstate :=
  match s with
  | [] => k x
  | a :: s' =>
    match rest x with
    | c :: tl => if (canon fl a =? canon fl c)%N then lit_match fl s' (advance x c tl) k else None
    | [] => None
    end
  end.

Definition cls_match (fl : flags) (inv : bool) (rs : list (N * N)) (x : mstate) (k : cont)
  : option mstate :=
  match rest x with
  | c :: tl => if xorb inv (class_has fl rs c) then k (advance x c tl) else None
  | [] => None
  end.

Definition at_bol (fl : flags) (x : mstate) : bool :=
  match prev x with
  | None => true
  | Some c => multiline fl && JS.is_line_terminator c
  end.

Definition at_eol (fl : flags) (x : mstate) : bool :=
  match rest x with
  | [] => true
  | c :: _ => multiline fl && JS.is_line_terminator c
  end.

(** The capture groups inside a pattern; a quantifier clears them at the
    start of each pass. *)
Fixpoint groups_in (r : regex) : list nat :=
  match r with
  | Seq a b | Alt a b => groups_in a ++ groups_in b
  | Rep a _ _ _ => groups_in a
  | Grp i a => i :: groups_in a
  | _ => []
  end.

Definition clear_caps (gs : list nat) (x : mstate) : mstate :=
  MState (prev x) (pos x) (rest x) (foldr (fun i cs => <[i := None]> cs) (caps x) gs).

(** The capture of group [i]: the input between the states [from] and [to]. *)
Definition set_cap (i : nat) (from to : mstate) : mstate :=
  MState (prev to) (pos to) (rest to)
         (<[i := Some (take (pos to - pos from) (rest from))]> (caps to)).

(** [RepeatMatcher]: a pass that starts from a zero minimum and consumes
    nothing is rejected, so at most [mn + length (rest x)] passes are made and
    the fuel [S (mn + length (rest x))] given by [rmatch] is never used up. *)
Fixpoint repeat_match (m : mstate -> cont -> option mstate) (gs : list nat)
         (greedy : bool) (fuel : nat) (mn : nat) (mx : option nat)
         (x : mstate) (k : cont) : option mstate :=
  match fuel with
  | O => None
  | S fuel' =>
    match mx with
    | Some O => k x
    | _ =>
      let d := fun y : mstate =>
        if (mn =? 0) && (pos y =? pos x) then None
        else repeat_match m gs greedy fuel' (pred mn) (pred <$> mx) y k in
      let xr := clear_caps gs x in
      if mn =? 0 then
        if greedy then
          match m xr d with
          | Some z => Some z
          | None => k x
          end
        else
          match k x with
          | Some z => Some z
          | None => m xr d
          end
      else m xr d
    end
  end.

Fixpoint rmatch (fl : flags) (r : regex) (x : mstate) (k : cont) {struct r} : option mstate :=
  match r with
  | Eps => k x
  | Lit s => lit_match fl s x k
  | Cls inv rs => cls_match fl inv rs x k
  | Seq r1 r2 => rmatch fl r1 x (fun y => rmatch fl r2 y k)
  | Alt r1 r2 =>
    match rmatch fl r1 x k with
    | Some z => Some z
    | None => rmatch fl r2 x k
    end
  | Rep r' mn mx greedy =>
    repeat_match (rmatch fl r') (groups_in r') greedy (S (mn + length (rest x))) mn mx x k
  | Grp i r' => rmatch fl r' x (fun y => k (set_cap i x y))
  | Bol => if at_bol fl x then k x else None
  | Eol => if at_eol fl x then k x else None
  end.

(** The number of capture slots of a pattern: slot 0 is the whole match. *)
Definition slots (r : regex) : nat := S (foldr Nat.max 0 (groups_in r)).

Definition start (r : regex) (p : option N) (s : jsstring) : mstate :=
  MState p 0 s (replicate (slots r) None).

(** One attempt at the current position: on success the end state, with
    slot 0 holding the matched text. *)
Definition match_here (fl : flags) (r : regex) (p : option N) (s : jsstring) : option mstate :=
  match rmatch fl r (start r p s) Some with
  | Some y => Some (set_cap 0 (start r p s) y)
  | None => None
  end.

Record match_result := MatchResult { index : nat; groups : list (option jsstring) }.

(** [match[i]]: [undefined] is [None]. *)
Definition group (m : match_result) (i : nat) : option jsstring :=
  mjoin (groups m !! i).

(** The leftmost position from which the pattern matches. *)
Fixpoint exec_from (fl : flags) (r : regex) (idx : nat) (p : option N) (s : jsstring)
  : option match_result :=
  match match_here fl r p s with
  | Some y => Some (MatchResult idx (caps y))
  | None =>
    match s with
    | [] => None
    | c :: tl => exec_from fl r (S idx) (Some c) tl
    end
  end.

(** [s.match(re)] for a pattern without the [g] flag, and [re.test(s)]. *)
Definition exec (fl : flags) (r : regex) (s : jsstring) : option match_result :=
  exec_from fl r 0 None s.

Definition test (fl : flags) (r : regex) (s : jsstring) : bool :=
  match exec fl r s with
  | Some _ => true
  | None => false
  end.

(** [s.replace(re, rep)] for a pattern with the [g] flag and a replacement
    without [$] patterns.  [skip] counts the code units of the last match
    that are still to be passed over; an empty match inserts the replacement
    and moves on by one code unit. *)
Fixpoint replace_go (fl : flags) (r : regex) (rep : jsstring) (skip : nat)
         (p : option N) (s : jsstring) : jsstring :=
  match skip, s with
  | S n, c :: tl => replace_go fl r rep n (Some c) tl
  | S _, [] => []
  | O, _ =>
    match match_here fl r p s with
    | Some y =>
      rep ++ match s with
             | [] => []
             | c :: tl =>
               match pos y with
               | O => c :: replace_go fl r rep 0 (Some c) tl
               | S n' => replace_go fl r rep n' (Some c) tl
               end
             end
    | None =>
      match s with
      | [] => []
      | c :: tl => c :: replace_go fl r rep 0 (Some c) tl
      end
    end
  end.

Definition replace_all (fl : flags) (r : regex) (rep : jsstring) (s : jsstring) : jsstring :=
  replace_go fl r rep 0 None s.

(** [s.replace(re, rep)] for a pattern without the [g] flag: the leftmost
    match only. *)
Definition replace_first (fl : flags) (r : regex) (rep : jsstring) (s : jsstring) : jsstring :=
  match exec fl r s with
  | Some m =>
    take (index m) s ++ rep
      ++ drop (index m + length (default [] (group m 0))) s
  | None => s
  end.

(** [s.split(re)] for a pattern without capture groups: the pattern is tried
    at each position in turn, never at the end of the input.  [cur] is the
    piece being read, reversed; an empty match closes the current piece when
    that piece is not empty, and the scan moves on by one code unit. *)
Fixpoint split_go (fl : flags) (r : regex) (skip : nat) (cur : jsstring)
         (p : option N) (s : jsstring) : list jsstring :=
  match s with
  | [] => [rev cur]
  | c :: tl =>
    match skip with
    | S n => split_go fl r n cur (Some c) tl
    | O =>
      match match_here fl r p s with
      | Some y =>
        match pos y with
        | O =>
          match cur with
          | [] => split_go fl r 0 [c] (Some c) tl
          | _ => rev cur :: split_go fl r 0 [c] (Some c) tl
          end
        | S n' => rev cur :: split_go fl r n' [] (Some c) tl
        end
      | None => split_go fl r 0 (c :: cur) (Some c) tl
      end
    end
  end.

Definition split (fl : flags) (r : regex) (s : jsstring) : list jsstring :=
  match s with
  | [] => match match_here fl r None [] with Some _ => [] | None => [[]] end
  | _ => split_go fl r 0 [] None s
  end.

End Regex.

(** ** The scripts *)

Import Regex.

(** [cleanText] (the same function in each script). *)
Definition cleanText (text : option jsstring) : jsstring :=
  match text with
  | None | Some [] => []
  | Some t =>
    JS.trim
      (replace_all no_flags (plus space) (js " ")
      (replace_all no_flags (Lit (js "&#39;")) (js "'")
      (replace_all no_flags (Lit (js "&quot;")) [34%N]
      (replace_all no_flags (Lit (js "&gt;")) (js ">")
      (replace_all no_flags (Lit (js "&lt;")) (js "<")
      (replace_all no_flags (Lit (js "&amp;")) (js "&")
      (replace_all no_flags (Lit (js "&nbsp;")) (js " ") t)))))))
  end.


Definition truthy (s : jsstring) : bool :=
  match s with
  | [] => false
  | _ :: _ => true
  end.

Definition BASE_URL : jsstring := js "https://www.transfermarkt.com".

Module Team.
Record t := Make { name : jsstring; url : jsstring; slug : jsstring; id : jsstring }.
End Team.

(** An [<a>] element as the scripts read it: [getAttribute('href')] and
    [textContent]. *)
Record Anchor := { href : option jsstring; textContent : jsstring }.

(** [extractSlug]: [parts[1] || 'unknown']. *)
Definition extractSlug (url : jsstring) : jsstring :=
  match JS.split_str (js "/") url !! 1 with
  | Some (c :: p) => c :: p
  | _ => js "unknown"
  end.

Inductive entityKind := verein | spieler.

Definition kind_name (type : entityKind) : jsstring :=
  match type with
  | verein => js "verein"
  | spieler => js "spieler"
  end.

(** [new RegExp(`/${type}/(\\d+)`)]. *)
Definition idPattern (type : entityKind) : regex :=
  seq [Lit (js "/" ++ kind_name type ++ js "/"); Grp 1 (plus digit)].

(** [extractId]: [match ? match[1] : 'unknown']; group 1 takes part in every
    match of the pattern. *)
Definition extractId (url : jsstring) (type : entityKind) : jsstring :=
  match exec no_flags (idPattern type) url with
  | Some m => default [] (group m 1)
  | None => js "unknown"
  end.

Definition slash : N := 47%N.

(** [/^\/[^/]+\/startseite\/verein\/\d+/] and [/^\/[^/]+\/profil\/spieler\/\d+/]. *)
Definition teamHref : regex :=
  seq [Bol; Lit (js "/"); plus (Cls true [(slash, slash)]);
       Lit (js "/startseite/verein/"); plus digit].

Definition playerHref : regex :=
  seq [Bol; Lit (js "/"); plus (Cls true [(slash, slash)]);
       Lit (js "/profil/spieler/"); plus digit].

(** [/^\d+$/]. *)
Definition numericOnly : regex := seq [Bol; plus digit; Eol].

(** The body of the [for (const link of allLinks)] loop of [scrapeTeams]:
    the state is the pair of [teams] and [seenIds]; [continue] and a failed
    guard leave it as it is. *)
Definition scrapeTeams_visit (st : list Team.t * gset jsstring) (link : Anchor)
  : list Team.t * gset jsstring :=
  let '(teams, seenIds) := st in
  let name := cleanText (Some (textContent link)) in
  match href link with
  | Some h =>
    if truthy h && truthy name && test no_flags teamHref h then
      if negb (truthy name) || (length name <? 3) then st
      else if test no_flags numericOnly name then st
      else
        let teamId := extractId h verein in
        if bool_decide (teamId ∈ seenIds) then st
        else
          (teams ++ [Team.Make name
                       (BASE_URL ++ default [] (JS.split_str (js "/saison_id") h !! 0))
                       (extractSlug h) teamId],
           {[teamId]} ∪ seenIds)
    else st
  | None => st
  end.

(** The [extract] callback of [scrapeTeams], on the anchors of the listing
    page in document order. *)
Definition scrapeTeams_extract (allLinks : list Anchor) : list Team.t :=
  fst (foldl scrapeTeams_visit ([], ∅) allLinks).

(** [result.data.slice(0, 20)]. *)
Definition scrapeTeams_of (allLinks : list Anchor) : list Team.t :=
  take 20 (scrapeTeams_extract allLinks).


(** *** Field extraction (the [extract] callbacks of [scrapePlayerProfile]
    and of the test script's [scrapePlayer]) *)

(** An [<img>] element: its [data-src] and [src] attributes. *)
Record Image := { dataSrc : option jsstring; src : option jsstring }.

(** What the callbacks read from a parsed page: [querySelectorAll('a')],
    [querySelectorAll('img')], the text of [h1.data-header__headline-wrapper]
    ([None] when there is no such element), the texts of the
    [a.data-header__market-value-wrapper] elements, and the text of [body]. *)
Record Document := {
  allLinks : list Anchor;
  allImages : list Image;
  nameEl : option jsstring;
  mvElements : list jsstring;
  body : option jsstring
}.

(** [a || b] on attribute values. *)
Definition or_else (a b : option jsstring) : option jsstring :=
  match a with
  | Some (c :: t) => Some (c :: t)
  | _ => b
  end.

Fixpoint imageUrl_scan (imgs : list Image) : option jsstring :=
  match imgs with
  | [] => None
  | img :: tl =>
    match or_else (dataSrc img) (src img) with
    | Some u =>
      if truthy u && JS.includes (js "portrait") u then
        Some (JS.replace_str (js "/big/") (js "/header/")
               (JS.replace_str (js "/medium/") (js "/header/")
                 (JS.replace_str (js "/small/") (js "/header/") u)))
      else imageUrl_scan tl
    | None => imageUrl_scan tl
    end
  end.

(** [/#(\d+)/] on the cleaned headline. *)
Definition shirtNumber_of (d : Document) : option jsstring :=
  match exec no_flags (seq [Lit (js "#"); Grp 1 (plus digit)]) (cleanText (nameEl d)) with
  | Some m => group m 1
  | None => None
  end.

Definition euro : jsstring := js "€".

(** [/(€[\d,.]+[mk]?)/i]. *)
Definition mvPattern : regex :=
  Grp 1 (seq [Lit euro;
              plus (Cls false [(48, 57); (44, 44); (46, 46)]%N);
              opt (Cls false [(109, 109); (107, 107)]%N)]).

(** The loop over [mvElements]: the first element whose cleaned text has a
    euro sign decides, whether the pattern matches it or not. *)
Fixpoint marketValue_scan (els : list jsstring) : option jsstring :=
  match els with
  | [] => None
  | el :: tl =>
    let text := cleanText (Some el) in
    if truthy text && JS.includes euro text then
      match exec flag_i mvPattern text with
      | Some m => group m 1
      | None => None
      end
    else marketValue_scan tl
  end.

Definition bodyText (d : Document) : jsstring := default [] (body d).

(** [(\d{2}\/\d{2}\/\d{4})]. *)
Definition dateGroup : regex :=
  Grp 1 (seq [times 2 digit; Lit (js "/"); times 2 digit; Lit (js "/"); times 4 digit]).

(** [/Date of birth\/Age:\s*(\d{2}\/\d{2}\/\d{4})\s*\((\d+)\)/] and
    [/Date of birth:\s*(\d{2}\/\d{2}\/\d{4})/]. *)
Definition dobAgePattern : regex :=
  seq [Lit (js "Date of birth/Age:"); star space; dateGroup; star space;
       Lit (js "("); Grp 2 (plus digit); Lit (js ")")].

Definition dobOnlyPattern : regex :=
  seq [Lit (js "Date of birth:"); star space; dateGroup].

Definition dobPatterns : list regex := [dobAgePattern; dobOnlyPattern].

(** The loop over [dobPatterns]: the first pattern that matches gives
    [dateOfBirth = match[1]] and [age = match[2] ? parseInt(match[2], 10) : null]. *)
Fixpoint dob_scan (patterns : list regex) (text : jsstring)
  : option jsstring * option JS.number :=
  match patterns with
  | [] => (None, None)
  | pattern :: tl =>
    match exec no_flags pattern text with
    | Some m =>
      (group m 1,
       match group m 2 with
       | Some g => if truthy g then Some (JS.parseInt g) else None
       | None => None
       end)
    | None => dob_scan tl text
    end
  end.

Definition letters : list (N * N) := [(65, 90); (97, 122)]%N.
Definition latin : list (N * N) := letters ++ [(192, 255)]%N.       (* A-Za-zÀ-ÿ *)
Definition one (c : string) : list (N * N) :=
  match js c with
  | a :: _ => [(a, a)]
  | [] => []
  end.

(** [/Place of birth:\s*([A-Za-zÀ-ÿ\s\-']+?)(?:\s{2,}|Citizenship|Height|Position|Foot|$)/m]. *)
Definition pobPattern : regex :=
  seq [Lit (js "Place of birth:"); star space;
       Grp 1 (plus_lazy (Cls false (latin ++ JS.white_ranges ++ one "-" ++ one "'")));
       alt [at_least 2 space; Lit (js "Citizenship"); Lit (js "Height");
            Lit (js "Position"); Lit (js "Foot"); Eol]].

Definition placeOfBirth_of (text : jsstring) : option jsstring :=
  match exec flag_m pobPattern text with
  | Some m => Some (cleanText (group m 1))
  | None => None
  end.

(** [/Height:\s*([\d,\.]+\s*m)/i]. *)
Definition heightPattern : regex :=
  seq [Lit (js "Height:"); star space;
       Grp 1 (seq [plus (Cls false ([(48, 57)]%N ++ one "," ++ one "."));
                   star space; Lit (js "m")])].

Definition height_of (text : jsstring) : option jsstring :=
  match exec flag_i heightPattern text with
  | Some m => group m 1
  | None => None
  end.

Definition posPatterns : list regex :=
  [ seq [Lit (js "Position:"); star space;
         opt (alt [seq [Lit (js "Attack"); star space; Lit (js "-"); star space];
                   seq [Lit (js "Midfield"); star space; Lit (js "-"); star space];
                   seq [Lit (js "Defender"); star space; Lit (js "-"); star space]]);
         Grp 1 (plus_lazy (Cls false (letters ++ one "-" ++ JS.white_ranges)));
         alt [seq [plus space; Lit (js "Foot")]; seq [plus space; Lit (js "Agent")];
              seq [plus space; Lit (js "Player")]; seq [plus space; Lit (js "National")];
              Eol]];
    seq [Lit (js "Main position:"); star space;
         Grp 1 (plus (Cls false (letters ++ one "-" ++ JS.white_ranges)))] ].

(** [/\s*(National|Player|agent).*$/i]. *)
Definition trailingWords : regex :=
  seq [star space;
       Grp 1 (alt [Lit (js "National"); Lit (js "Player"); Lit (js "agent")]);
       star any; Eol].

Fixpoint position_scan (patterns : list regex) (text : jsstring) : option jsstring :=
  match patterns with
  | [] => None
  | pattern :: tl =>
    match exec flag_im pattern text with
    | Some m =>
      Some (JS.trim (replace_first flag_i trailingWords [] (cleanText (group m 1))))
    | None => position_scan tl text
    end
  end.

(** [toLowerCase] on ASCII and Latin-1 letters. *)
Definition lower (c : N) : N :=
  if ((65 <=? c) && (c <=? 90))%N then (c + 32)%N
  else if ((192 <=? c) && (c <=? 222) && negb (c =? 215))%N then (c + 32)%N
  else c.

(** [/Foot:\s*(right|left|both)/i]. *)
Definition footPattern : regex :=
  seq [Lit (js "Foot:"); star space;
       Grp 1 (alt [Lit (js "right"); Lit (js "left"); Lit (js "both")])].

Definition foot_of (text : jsstring) : option jsstring :=
  match exec flag_i footPattern text with
  | Some m => map lower <$> group m 1
  | None => None
  end.

(** [/Citizenship:\s*([A-Za-zÀ-ÿ\s]+?)(?:\s{2,}|Position|Height|Foot|$)/m]. *)
Definition citizenPattern : regex :=
  seq [Lit (js "Citizenship:"); star space;
       Grp 1 (plus_lazy (Cls false (latin ++ JS.white_ranges)));
       alt [at_least 2 space; Lit (js "Position"); Lit (js "Height");
            Lit (js "Foot"); Eol]].

(** [citizenMatch[1].trim().split(/\s{2,}/).map(c => c.trim()).filter(c => c.length > 1)]. *)
Definition citizenship_tokens (captured : jsstring) : list jsstring :=
  JS.trim <$> split no_flags (at_least 2 space) (JS.trim captured).

(** The [citizenship] variable: [[]] unless the pattern matches. *)
Definition citizenship_of (text : jsstring) : list jsstring :=
  match exec flag_m citizenPattern text with
  | Some m => filter (fun c => 1 < length c) (citizenship_tokens (default [] (group m 1)))
  | None => []
  end.

(** [/Agent:\s*([A-Za-z\s\.\-&]+?)(?:\s+verified|\s+Current|\s{2,}|$)/im]. *)
Definition agentPattern : regex :=
  seq [Lit (js "Agent:"); star space;
       Grp 1 (plus_lazy (Cls false (letters ++ JS.white_ranges ++ one "." ++ one "-" ++ one "&")));
       alt [seq [plus space; Lit (js "verified")]; seq [plus space; Lit (js "Current")];
            at_least 2 space; Eol]].

(** [cleanText(agentMatch[1]).replace(/\s*\.\.\.$/, '')]. *)
Definition agent_of (text : jsstring) : option jsstring :=
  match exec flag_im agentPattern text with
  | Some m =>
    Some (replace_first no_flags (seq [star space; Lit (js "..."); Eol]) []
            (cleanText (group m 1)))
  | None => None
  end.

(** [/Joined:\s*(\d{2}\/\d{2}\/\d{4})/i] and [/Contract expires:\s*(\d{2}\/\d{2}\/\d{4})/i]. *)
Definition dated (label : string) (text : jsstring) : option jsstring :=
  match exec flag_i (seq [Lit (js label); star space; dateGroup]) text with
  | Some m => group m 1
  | None => None
  end.

(** [/Current club:\s*([A-Za-zÀ-ÿ\s\.\-&]+?)(?:\s{2,}|Joined|Contract|$)/m]. *)
Definition clubPattern : regex :=
  seq [Lit (js "Current club:"); star space;
       Grp 1 (plus_lazy (Cls false (latin ++ JS.white_ranges ++ one "." ++ one "-" ++ one "&")));
       alt [at_least 2 space; Lit (js "Joined"); Lit (js "Contract"); Eol]].

Definition currentClub_of (text : jsstring) : option jsstring :=
  match exec flag_m clubPattern text with
  | Some m => Some (cleanText (group m 1))
  | None => None
  end.

(** [/Current international:\s*([A-Za-zÀ-ÿ\s]+?)\s*Caps\/Goals:\s*(\d+)\s*\/\s*(\d+)/im]. *)
Definition intlPattern : regex :=
  seq [Lit (js "Current international:"); star space;
       Grp 1 (plus_lazy (Cls false (latin ++ JS.white_ranges)));
       star space; Lit (js "Caps/Goals:"); star space; Grp 2 (plus digit);
       star space; Lit (js "/"); star space; Grp 3 (plus digit)].

(** [internationalTeam], [internationalCaps] and [internationalGoals]. *)
Definition international_of (text : jsstring)
  : option jsstring * option JS.number * option JS.number :=
  match exec flag_im intlPattern text with
  | Some m =>
    (Some (cleanText (group m 1)),
     Some (JS.parseInt (default [] (group m 2))),
     Some (JS.parseInt (default [] (group m 3))))
  | None => (None, None, None)
  end.

(** The object the callbacks return; [C] is the type of its [citizenship]
    field, which is the one field on which the two callbacks differ. *)
Record ProfileData (C : Type) := {
  imageUrl : option jsstring;
  shirtNumber : option jsstring;
  dateOfBirth : option jsstring;
  age : option JS.number;
  placeOfBirth : option jsstring;
  citizenship : C;
  height : option jsstring;
  position : option jsstring;
  foot : option jsstring;
  currentClub : option jsstring;
  joined : option jsstring;
  contractExpires : option jsstring;
  marketValue : option jsstring;
  agent : option jsstring;
  internationalTeam : option jsstring;
  internationalCaps : option JS.number;
  internationalGoals : option JS.number
}.

Arguments imageUrl {C} _.
Arguments shirtNumber {C} _.
Arguments dateOfBirth {C} _.
Arguments age {C} _.
Arguments placeOfBirth {C} _.
Arguments citizenship {C} _.
Arguments height {C} _.
Arguments position {C} _.
Arguments foot {C} _.
Arguments currentClub {C} _.
Arguments joined {C} _.
Arguments contractExpires {C} _.
Arguments marketValue {C} _.
Arguments agent {C} _.
Arguments internationalTeam {C} _.
Arguments internationalCaps {C} _.
Arguments internationalGoals {C} _.

Definition extract_with {C : Type} (cit : list jsstring -> C) (d : Document) : ProfileData C :=
  let text := bodyText d in
  {| imageUrl := imageUrl_scan (allImages d);
     shirtNumber := shirtNumber_of d;
     dateOfBirth := fst (dob_scan dobPatterns text);
     age := snd (dob_scan dobPatterns text);
     placeOfBirth := placeOfBirth_of text;
     citizenship := cit (citizenship_of text);
     height := height_of text;
     position := position_scan posPatterns text;
     foot := foot_of text;
     currentClub := currentClub_of text;
     joined := dated "Joined:" text;
     contractExpires := dated "Contract expires:" text;
     marketValue := marketValue_scan (mvElements d);
     agent := agent_of text;
     internationalTeam := fst (fst (international_of text));
     internationalCaps := snd (fst (international_of text));
     internationalGoals := snd (international_of text) |}.

(** The test script's [scrapePlayer] returns [citizenship] as it is. *)
Definition scrapePlayer_extract (d : Document) : ProfileData (list jsstring) :=
  extract_with (fun c => c) d.

(** [scrapePlayerProfile] returns
    [citizenship.length > 0 ? citizenship : null]. *)
Definition scrapePlayerProfile_extract (d : Document) : ProfileData (option (list jsstring)) :=
  extract_with (fun c => if 0 <? length c then Some c else None) d.


(** *** Effects

    The scripts run one sequential flow of awaited calls.  A run is a
    function of the trace so far: it returns or throws, and extends the
    trace.  The network and the file system are oracles that may answer by
    the trace, so that two requests for one URL need not agree. *)

Inductive path := IMAGES_DIR | DATA_DIR | join (p : path) (seg : jsstring).

Inductive event :=
| Scrape (url : jsstring)            (* [scraper.scrape(url, ...)] *)
| Fetch (url : jsstring)             (* [fetch(url, {headers})] *)
| Mkdir (p : path)                   (* [mkdir(p, {recursive: true})], resolved *)
| WriteFile (p : path)               (* [writeFile(p, ...)], resolved *)
| ConsoleError (about : jsstring)    (* the message of a [catch] block *)
| Wait (ms : nat).                   (* [setTimeout(resolve, ms)] *)

Record Response := { ok : bool; arrayBuffer : list N }.

(** [scrape_page tr url] is the parsed page that [scraper.scrape] obtains,
    [None] when the request fails after its retries; [fetch_url tr url] is
    the response of [fetch], [None] when the promise rejects; [mkdir_ok tr p]
    and [writeFile_ok tr p] tell whether [mkdir(p, {recursive: true})] and
    [writeFile(p, ...)] resolve ([false] when the promise rejects). *)
Record World := {
  scrape_page : list event -> jsstring -> option Document;
  fetch_url : list event -> jsstring -> option Response;
  mkdir_ok : list event -> path -> bool;
  writeFile_ok : list event -> path -> bool
}.

Inductive outcome (A : Type) := Returned (a : A) | Thrown.
Arguments Returned {A} a.
Arguments Thrown {A}.

Definition IO (A : Type) := list event -> outcome A * list event.

Definition ret {A} (a : A) : IO A := fun tr => (Returned a, tr).

Definition bind {A B} (m : IO A) (f : A -> IO B) : IO B :=
  fun tr =>
    match m tr with
    | (Returned a, tr') => f a tr'
    | (Thrown, tr') => (Thrown, tr')
    end.

Definition emit (e : event) : IO unit := fun tr => (Returned tt, tr ++ [e]).

(** [try { m } catch { h }]. *)
Definition try_catch {A} (m : IO A) (h : IO A) : IO A :=
  fun tr =>
    match m tr with
    | (Returned a, tr') => (Returned a, tr')
    | (Thrown, tr') => h tr'
    end.

#[global] Instance io_ret : MRet IO := @ret.
#[global] Instance io_bind : MBind IO := fun A B f m => bind m f.

(** [for (const a of l) { s = body a s }] with the loop variables in [s]. *)
Fixpoint for_each {A S} (l : list A) (body : A -> S -> IO S) (s : S) : IO S :=
  match l with
  | [] => ret s
  | a :: tl => s' ← body a s; for_each tl body s'
  end.

Definition scrape {T} (w : World) (url : jsstring) (extract : Document -> T) : IO T :=
  fun tr =>
    match scrape_page w tr url with
    | Some doc => (Returned (extract doc), tr ++ [Scrape url])
    | None => (Thrown, tr ++ [Scrape url])
    end.

Definition fetch (w : World) (url : jsstring) : IO Response :=
  fun tr =>
    match fetch_url w tr url with
    | Some r => (Returned r, tr ++ [Fetch url])
    | None => (Thrown, tr ++ [Fetch url])
    end.

(** [await mkdir(p, {recursive: true})] and [await writeFile(p, ...)]: the
    call is recorded in the trace when it resolves; when it rejects the run
    throws and the trace stays as it is. *)
Definition mkdir (w : World) (p : path) : IO unit :=
  fun tr => if mkdir_ok w tr p then (Returned tt, tr ++ [Mkdir p]) else (Thrown, tr).

Definition writeFile (w : World) (p : path) : IO unit :=
  fun tr => if writeFile_ok w tr p then (Returned tt, tr ++ [WriteFile p]) else (Thrown, tr).

Definition PREMIER_LEAGUE_URL : jsstring :=
  BASE_URL ++ js "/premier-league/startseite/wettbewerb/GB1".

(** [scrapeTeams] (the same function in both scrapers). *)
Definition scrapeTeams (w : World) : IO (list Team.t) :=
  data ← scrape w PREMIER_LEAGUE_URL (fun doc => scrapeTeams_extract (allLinks doc));
  ret (take 20 data).

Definition images_prefix : jsstring := js "public/images/players/".

(** Both scrapers group the players by [teamSlug] in a [Map], which keeps the
    keys in insertion order. *)
Fixpoint map_push {P} (k : jsstring) (p : P) (m : list (jsstring * list P))
  : list (jsstring * list P) :=
  match m with
  | [] => [(k, [p])]
  | (k', ps) :: tl =>
    if bool_decide (k' = k) then (k', ps ++ [p]) :: tl else (k', ps) :: map_push k p tl
  end.

Definition group_by {P} (key : P -> jsstring) (ps : list P) : list (jsstring * list P) :=
  foldl (fun m p => map_push (key p) p m) [] ps.

(** *** [scrape-transfermarkt.ts]: the scraper that builds image URLs from
    player ids *)

Module Basic.

Module Player.
Record t := Make {
  id : jsstring;
  name : jsstring;
  url : jsstring;
  imageUrl : option jsstring;
  localImagePath : option jsstring;
  position : option jsstring;
  number : option jsstring;
  team : jsstring;
  teamSlug : jsstring
}.
End Player.

Definition constructImageUrl (playerId : jsstring) : jsstring :=
  js "https://img.a.transfermarkt.technology/portrait/header/" ++ playerId ++ js ".jpg".

Definition scrapeTeamPlayers_visit (team : Team.t) (st : list Player.t * gset jsstring)
           (link : Anchor) : list Player.t * gset jsstring :=
  let '(players, seenIds) := st in
  let name := cleanText (Some (textContent link)) in
  match href link with
  | Some h =>
    if truthy h && truthy name && test no_flags playerHref h then
      if negb (truthy name) || (length name <? 2) then st
      else if test no_flags numericOnly name then st
      else
        let playerId := extractId h spieler in
        if bool_decide (playerId ∈ seenIds) then st
        else
          (players ++ [Player.Make playerId name (BASE_URL ++ h)
                         (Some (constructImageUrl playerId)) None None None
                         (Team.name team) (Team.slug team)],
           {[playerId]} ∪ seenIds)
    else st
  | None => st
  end.

Definition scrapeTeamPlayers_extract (team : Team.t) (allLinks : list Anchor) : list Player.t :=
  fst (foldl (scrapeTeamPlayers_visit team) ([], ∅) allLinks).

Definition scrapeTeamPlayers (w : World) (team : Team.t) : IO (list Player.t) :=
  let squadUrl := JS.replace_str (js "/startseite/") (js "/kader/") (Team.url team) in
  scrape w squadUrl (fun doc => scrapeTeamPlayers_extract team (allLinks doc)).

Definition saveImage (w : World) (player : Player.t) (buffer : list N)
  : IO (option jsstring) :=
  if length buffer <? 1000 then ret None
  else
    let teamDir := join IMAGES_DIR (Player.teamSlug player) in
    let fileName := Player.id player ++ js ".jpg" in
    mkdir w teamDir;;
    writeFile w (join teamDir fileName);;
    ret (Some (images_prefix ++ Player.teamSlug player ++ js "/" ++ fileName)).

Definition downloadPlayerImage (w : World) (player : Player.t) : IO (option jsstring) :=
  match Player.imageUrl player with
  | None | Some [] => ret None
  | Some u =>
    try_catch
      (response ← fetch w u;
       if negb (ok response) then
         let altUrl := JS.replace_str (js ".jpg") (js "-1.jpg") u in
         altResponse ← fetch w altUrl;
         if negb (ok altResponse) then ret None
         else saveImage w player (arrayBuffer altResponse)
       else saveImage w player (arrayBuffer response))
      (ret None)
  end.

Definition set_localImagePath (player : Player.t) (p : jsstring) : Player.t :=
  Player.Make (Player.id player) (Player.name player) (Player.url player)
              (Player.imageUrl player) (Some p) (Player.position player)
              (Player.number player) (Player.team player) (Player.teamSlug player).

(** [main]; it returns the player list that it writes.  Progress messages
    on the console are left out.  The calls of [mkdir] and [writeFile] are
    outside any [try]. *)
Definition main (w : World) : IO (list Player.t) :=
  mkdir w IMAGES_DIR;;
  mkdir w DATA_DIR;;
  teams ← scrapeTeams w;
  allPlayers ←
    for_each teams (fun team allPlayers =>
      try_catch
        (players ← scrapeTeamPlayers w team;
         emit (Wait 500);;
         ret (allPlayers ++ players))
        (emit (ConsoleError (Team.name team));; ret allPlayers)) [];
  allPlayers ←
    for_each allPlayers (fun player done =>
      localPath ← downloadPlayerImage w player;
      emit (Wait 100);;
      ret (done ++ [match localPath with
                    | Some (c :: p) => set_localImagePath player (c :: p)
                    | _ => player
                    end])) [];
  writeFile w (join DATA_DIR (js "premier-league.json"));;
  for_each (group_by Player.teamSlug allPlayers) (fun '(teamSlug, _) (_ : unit) =>
    writeFile w (join DATA_DIR (teamSlug ++ js ".json"))) tt;;
  ret allPlayers.

End Basic.

(** *** The full-profile scraper (carried by [test-single-player.ts]): it
    visits every player's profile page and takes the image URL from it *)

Module Full.

Module BasicInfo.
Record t := Make { id : jsstring; name : jsstring; url : jsstring }.
End BasicInfo.

Module Player.
Record t := Make {
  id : jsstring;
  name : jsstring;
  url : jsstring;
  imageUrl : option jsstring;
  localImagePath : option jsstring;
  team : jsstring;
  teamSlug : jsstring;
  data : ProfileData (option (list jsstring))   (* the metadata fields *)
}.
End Player.

Definition scrapeTeamPlayerList_visit (st : list BasicInfo.t * gset jsstring) (link : Anchor)
  : list BasicInfo.t * gset jsstring :=
  let '(players, seenIds) := st in
  let name := cleanText (Some (textContent link)) in
  match href link with
  | Some h =>
    if truthy h && truthy name && test no_flags playerHref h then
      if negb (truthy name) || (length name <? 2) then st
      else if test no_flags numericOnly name then st
      else
        let playerId := extractId h spieler in
        if bool_decide (playerId ∈ seenIds) then st
        else (players ++ [BasicInfo.Make playerId name (BASE_URL ++ h)],
              {[playerId]} ∪ seenIds)
    else st
  | None => st
  end.

Definition scrapeTeamPlayerList_extract (allLinks : list Anchor) : list BasicInfo.t :=
  fst (foldl scrapeTeamPlayerList_visit ([], ∅) allLinks).

Definition scrapeTeamPlayerList (w : World) (team : Team.t) : IO (list BasicInfo.t) :=
  let squadUrl := JS.replace_str (js "/startseite/") (js "/kader/") (Team.url team) in
  scrape w squadUrl (fun doc => scrapeTeamPlayerList_extract (allLinks doc)).

Definition scrapePlayerProfile (w : World) (basicInfo : BasicInfo.t) (team : Team.t)
  : IO Player.t :=
  data ← scrape w (BasicInfo.url basicInfo) scrapePlayerProfile_extract;
  ret (Player.Make (BasicInfo.id basicInfo) (BasicInfo.name basicInfo)
                   (BasicInfo.url basicInfo) (imageUrl data) None
                   (Team.name team) (Team.slug team) data).

Definition downloadPlayerImage (w : World) (player : Player.t) : IO (option jsstring) :=
  match Player.imageUrl player with
  | None | Some [] => ret None
  | Some u =>
    try_catch
      (response ← fetch w u;
       if negb (ok response) then ret None
       else
         let buffer := arrayBuffer response in
         if length buffer <? 1000 then ret None
         else
           let teamDir := join IMAGES_DIR (Player.teamSlug player) in
           let fileName := Player.id player ++ js ".jpg" in
           mkdir w teamDir;;
           writeFile w (join teamDir fileName);;
           ret (Some (images_prefix ++ Player.teamSlug player ++ js "/" ++ fileName)))
      (ret None)
  end.

Definition set_localImagePath (player : Player.t) (p : jsstring) : Player.t :=
  Player.Make (Player.id player) (Player.name player) (Player.url player)
              (Player.imageUrl player) (Some p) (Player.team player)
              (Player.teamSlug player) (Player.data player).

(** [main]; it returns the player list that it writes.  The loop over the
    teams calls [scrapeTeamPlayerList] outside any [try]; the loop over the
    players wraps [scrapePlayerProfile] in [try]/[catch]. *)
Definition main (w : World) : IO (list Player.t) :=
  mkdir w IMAGES_DIR;;
  mkdir w DATA_DIR;;
  teams ← scrapeTeams w;
  allPlayerBasicInfo ←
    for_each teams (fun team acc =>
      players ← scrapeTeamPlayerList w team;
      emit (Wait 300);;
      ret (acc ++ [(team, players)])) [];
  allPlayers ←
    for_each allPlayerBasicInfo (fun '(team, players) allPlayers =>
      for_each players (fun basicInfo allPlayers =>
        allPlayers ←
          try_catch
            (player ← scrapePlayerProfile w basicInfo team;
             ret (allPlayers ++ [player]))
            (emit (ConsoleError (BasicInfo.name basicInfo));; ret allPlayers);
        emit (Wait 500);;
        ret allPlayers) allPlayers) [];
  allPlayers ←
    for_each allPlayers (fun player done =>
      localPath ← downloadPlayerImage w player;
      emit (Wait 100);;
      ret (done ++ [match localPath with
                    | Some (c :: p) => set_localImagePath player (c :: p)
                    | _ => player
                    end])) [];
  writeFile w (join DATA_DIR (js "premier-league.json"));;
  for_each (group_by Player.teamSlug allPlayers) (fun '(teamSlug, _) (_ : unit) =>
    writeFile w (join DATA_DIR (teamSlug ++ js ".json"))) tt;;
  ret allPlayers.

End Full.

(** *** Parsing helpers of the full-profile scraper ([test-single-player.ts]) *)

(** [parseAge]: [text.match(/\((\d+)\)/)], then [parseInt(match[1], 10)];
    [null] without a match.  Group 1 takes part in every match. *)
Definition parseAge (text : jsstring) : option JS.number :=
  match exec no_flags (seq [Lit (js "("); Grp 1 (plus digit); Lit (js ")")]) text with
  | Some m => Some (JS.parseInt (default [] (group m 1)))
  | None => None
  end.

(** [parseCapsGoals]: [text.match(/(\d+)\s*\/\s*(\d+)/)]; the object
    [{ caps, goals }] is the pair. *)
Definition parseCapsGoals (text : jsstring) : option JS.number * option JS.number :=
  match exec no_flags (seq [Grp 1 (plus digit); star space; Lit (js "/"); star space;
                            Grp 2 (plus digit)]) text with
  | Some m =>
    (Some (JS.parseInt (default [] (group m 1))), Some (JS.parseInt (default [] (group m 2))))
  | None => (None, None)
  end.

(** * Vocabulary of the properties *)

(** The state reached from [x] once the code units [ds] have been read and
    [tl] is what remains. *)
Fixpoint consume (ds tl : jsstring) (x : mstate) : mstate :=
  match ds with
  | [] => MState (prev x) (pos x) tl (caps x)
  | c :: ds' => consume ds' tl (advance x c (ds' ++ tl))
  end.

(** The code units that a class accepts under given flags. *)
Definition accepts (fl : flags) (inv : bool) (rs : list (N * N)) (c : N) : Prop :=
  xorb inv (class_has fl rs c) = true.

Definition is_digit (c : N) : Prop := JS.is_digit c = true.

(** [s] does not begin with a digit. *)
Definition no_digit_ahead (s : jsstring) : Prop :=
  match s with
  | [] => True
  | c :: _ => JS.is_digit c = false
  end.

(** An href of the shape [/<slug>/startseite/verein/<digits>]: [slug] is the
    first path segment and [ds] the whole run of digits after [/verein/]. *)
Definition team_href_shape (h slug ds tl : jsstring) : Prop :=
  h = js "/" ++ slug ++ js "/startseite/verein/" ++ ds ++ tl /\
  slug <> [] /\ (slash ∉ slug) /\
  ds <> [] /\ Forall is_digit ds /\ no_digit_ahead tl.

(** [s] has an occurrence of [/verein/] followed by a digit. *)
Definition has_verein_id (s : jsstring) : Prop :=
  exists a d tl, is_digit d /\ s = a ++ js "/verein/" ++ d :: tl.

(** The literal part of the id pattern. *)
Definition id_label (type : entityKind) : jsstring := js "/" ++ kind_name type ++ js "/".

(** The position context of a search that has passed over [a]. *)
Definition before (a : jsstring) (p : option N) : option N :=
  match last a with
  | Some c => Some c
  | None => p
  end.

(** *** Discovery

    What an anchor contributes to a discovery pass when its id has not been
    seen: the guards of the loop body, and the entity that it pushes. *)
Definition team_of (link : Anchor) : option Team.t :=
  let name := cleanText (Some (textContent link)) in
  match href link with
  | Some h =>
    if truthy h && truthy name && test no_flags teamHref h
       && negb (negb (truthy name) || (length name <? 3))
       && negb (test no_flags numericOnly name)
    then Some (Team.Make name
                 (BASE_URL ++ default [] (JS.split_str (js "/saison_id") h !! 0))
                 (extractSlug h) (extractId h verein))
    else None
  | None => None
  end.

Definition player_accepts (link : Anchor) : option (jsstring * jsstring * jsstring) :=
  let name := cleanText (Some (textContent link)) in
  match href link with
  | Some h =>
    if truthy h && truthy name && test no_flags playerHref h
       && negb (negb (truthy name) || (length name <? 2))
       && negb (test no_flags numericOnly name)
    then Some (extractId h spieler, name, h)
    else None
  | None => None
  end.

Definition player_of (team : Team.t) (link : Anchor) : option Basic.Player.t :=
  '(playerId, name, h) ← player_accepts link;
  Some (Basic.Player.Make playerId name (BASE_URL ++ h)
          (Some (Basic.constructImageUrl playerId)) None None None
          (Team.name team) (Team.slug team)).

Definition basicInfo_of (link : Anchor) : option Full.BasicInfo.t :=
  '(playerId, name, h) ← player_accepts link;
  Some (Full.BasicInfo.Make playerId name (BASE_URL ++ h)).

Section FirstSeen.

Context {E : Type} (key : E -> jsstring).

(** First occurrence wins, in the words of the specification: a candidate is
    kept exactly when no earlier candidate, kept or not, carries its id;
    [earlier] lists the ids of the candidates already passed. *)
Fixpoint first_seen_from (earlier : list jsstring) (cands : list E) : list E :=
  match cands with
  | [] => []
  | e :: tl =>
    if bool_decide (key e ∈ earlier)
    then first_seen_from (earlier ++ [key e]) tl
    else e :: first_seen_from (earlier ++ [key e]) tl
  end.

Definition first_seen (cands : list E) : list E := first_seen_from [] cands.

(** The loop body shared by the discovery passes: [cand] is the candidate of
    an anchor, [st] the pair of the output list and the set of seen ids. *)
Definition dedup_visit (cand : Anchor -> option E) (st : list E * gset jsstring)
           (link : Anchor) : list E * gset jsstring :=
  match cand link with
  | Some e =>
    if bool_decide (key e ∈ st.2) then st
    else (st.1 ++ [e], {[key e]} ∪ st.2)
  | None => st
  end.

End FirstSeen.

(** An anchor whose href passes the team pattern, and the id of its href. *)
Definition matches_team_href (link : Anchor) : bool :=
  match href link with
  | Some h => test no_flags teamHref h
  | None => false
  end.

Definition href_id (link : Anchor) : jsstring :=
  extractId (default [] (href link)) verein.

(** The name guards of team discovery: the cleaned text has at least three
    code units and is not made of digits only. *)
Definition team_name_ok (link : Anchor) : bool :=
  let name := cleanText (Some (textContent link)) in
  (3 <=? length name) && negb (test no_flags numericOnly name).

(** An anchor that team discovery accepts. *)
Definition accepted_team_anchor (link : Anchor) : bool :=
  matches_team_href link && team_name_ok link.

(** What a discovery pass returns for the anchors [allLinks]: ids are
    pairwise distinct, the entries are the first occurrences in document
    order, and the first anchor that carries an id is the one retained. *)
Definition keeps_first_seen {E : Type} (key : E -> jsstring) (cand : Anchor -> option E)
           (allLinks : list Anchor) (out : list E) : Prop :=
  NoDup (key <$> out) /\
  out = first_seen key (omap cand allLinks) /\
  (forall pre a post ea,
     allLinks = pre ++ a :: post -> cand a = Some ea ->
     (forall b eb, b ∈ pre -> cand b = Some eb -> key eb <> key ea) ->
     ea ∈ out /\ (forall e, e ∈ out -> key e = key ea -> e = ea)).

(** The same for a pass that keeps the first [n] entries only: the first
    anchor that carries an id is retained when fewer than [n] entries come
    before its own. *)
Definition keeps_first_seen_upto {E : Type} (n : nat) (key : E -> jsstring)
           (cand : Anchor -> option E) (allLinks : list Anchor) (out : list E) : Prop :=
  NoDup (key <$> out) /\
  out = take n (first_seen key (omap cand allLinks)) /\
  (forall pre a post ea,
     allLinks = pre ++ a :: post -> cand a = Some ea ->
     (forall b eb, b ∈ pre -> cand b = Some eb -> key eb <> key ea) ->
     (length (first_seen key (omap cand pre)) < n -> ea ∈ out) /\
     (forall e, e ∈ out -> key e = key ea -> e = ea)).

(** An anchor whose href passes the player pattern, the id of its href, the
    name guards of player discovery (the cleaned text has at least two code
    units and is not made of digits only), and an anchor that player
    discovery accepts. *)
Definition matches_player_href (link : Anchor) : bool :=
  match href link with
  | Some h => test no_flags playerHref h
  | None => false
  end.

Definition player_href_id (link : Anchor) : jsstring :=
  extractId (default [] (href link)) spieler.

Definition player_name_ok (link : Anchor) : bool :=
  let name := cleanText (Some (textContent link)) in
  (2 <=? length name) && negb (test no_flags numericOnly name).

Definition accepted_player_anchor (link : Anchor) : bool :=
  matches_player_href link && player_name_ok link.

(** Sample anchors. *)
Definition anchor (h name : string) : Anchor := Build_Anchor (Some (js h)) (js name).

Definition arsenal_row : Anchor :=
  anchor "/fc-arsenal/startseite/verein/11/saison_id/2024" " Arsenal&nbsp;FC ".
Definition arsenal_thumb : Anchor := anchor "/fc-arsenal/startseite/verein/11" "Gunners".
Definition chelsea_row : Anchor := anchor "/fc-chelsea/startseite/verein/631" "Chelsea".

Definition arsenal : Team.t :=
  Team.Make (js "Arsenal FC") (js "https://www.transfermarkt.com/fc-arsenal/startseite/verein/11")
            (js "fc-arsenal") (js "11").

(** Two decimal digits. *)
Definition two_digits (n : nat) : jsstring :=
  [(48 + N.of_nat (n / 10))%N; (48 + N.of_nat (n mod 10))%N].

Definition club_anchor (name : string) (n : nat) : Anchor :=
  Build_Anchor (Some (js "/club/startseite/verein/" ++ two_digits n)) (js name).

(** A crest image link: the href of a club, no text. *)
Definition crest_anchor (n : nat) : Anchor :=
  Build_Anchor (Some (js "/club/startseite/verein/" ++ two_digits n)) [].

(** A listing page with 25 named anchors for the clubs 10 to 29, the first
    five of them linked twice. *)
Definition league_page : list Anchor :=
  (club_anchor "Club" <$> List.seq 10 20) ++ (club_anchor "Club" <$> List.seq 10 5).

(** The same page, except that the one link to club 29 is a crest image
    whose text is empty: still 25 anchors that pass the team pattern, with
    20 distinct ids. *)
Definition crest_page : list Anchor :=
  (club_anchor "Club" <$> List.seq 10 19) ++ [crest_anchor 29]
    ++ (club_anchor "Club" <$> List.seq 10 5).

(** *** Field extraction *)

(** Whether the pattern matches from some position inside [pre], in the text
    [pre ++ s]; [p] is the code unit before [pre]. *)
Fixpoint matches_before (fl : flags) (r : regex) (p : option N) (pre s : jsstring) : bool :=
  match pre with
  | [] => false
  | c :: pre' =>
    match match_here fl r p (pre ++ s) with
    | Some _ => true
    | None => matches_before fl r (Some c) pre' s
    end
  end.

Definition dob_fragment : jsstring := js "Date of birth/Age: 15/08/1998 (27)".

Definition is_white (c : N) : Prop := JS.is_white c = true.

(** A profile page with the given market-value texts and body text. *)
Definition page (mv : list jsstring) (text : jsstring) : Document :=
  {| allLinks := []; allImages := []; nameEl := None; mvElements := mv; body := Some text |}.

Definition intl_page : Document :=
  page [] (js "Foot: left  Current international: Sweden  Caps/Goals: 30 / 15  Market value").

(** The state after the code units [ds], written out, and a state with the
    text [ds] recorded for group [i]. *)
Definition moved (ds tl : jsstring) (x : mstate) : mstate :=
  MState (before ds (prev x)) (pos x + length ds) tl (caps x).

Definition with_cap (i : nat) (ds : jsstring) (y : mstate) : mstate :=
  MState (prev y) (pos y) (rest y) (<[i := Some ds]> (caps y)).

(** What follows a quantifier over a class stops it: the input ends, or the
    next code unit is not accepted. *)
Definition stops (fl : flags) (inv : bool) (rs : list (N * N)) (tl : jsstring) : Prop :=
  match tl with
  | [] => True
  | c :: _ => ~ accepts fl inv rs c
  end.

Definition intl_fragment (ws : jsstring) : jsstring :=
  js "Current international: Sweden" ++ ws ++ js "Caps/Goals: 30 / 15".

(** *** Runs *)

(** The alternate image URL of the scraper that builds image URLs. *)
Definition altUrl (u : jsstring) : jsstring := JS.replace_str (js ".jpg") (js "-1.jpg") u.

(** No occurrence of [p] begins inside [a], in the text [a ++ tl]. *)
Fixpoint absent_in (p a tl : jsstring) : bool :=
  match a with
  | [] => true
  | c :: a' => negb (JS.starts_with p (a ++ tl)) && absent_in p a' tl
  end.

(** The URLs fetched in a trace, in order. *)
Definition fetches (tr : list event) : list jsstring :=
  omap (fun e => match e with Fetch u => Some u | _ => None end) tr.

(** A run that returns from every trace. *)
Definition total {A} (m : IO A) : Prop := forall tr, exists a tr', m tr = (Returned a, tr').

(** The squad page of a team: [team.url.replace('/startseite/', '/kader/')]. *)
Definition squadUrl (team : Team.t) : jsstring :=
  JS.replace_str (js "/startseite/") (js "/kader/") (Team.url team).

(** A world in which every page is [doc] and no image can be fetched.  In
    this world and in the next ones every file-system call succeeds, unless
    it is said otherwise. *)
Definition static_world (doc : Document) : World :=
  {| scrape_page := fun _ _ => Some doc;
     fetch_url := fun _ _ => None;
     mkdir_ok := fun _ _ => true; writeFile_ok := fun _ _ => true |}.

Definition listing_page : Document :=
  {| allLinks := [arsenal_row; chelsea_row]; allImages := []; nameEl := None;
     mvElements := []; body := None |}.

(** A listing page on which Chelsea is linked twice, first from a link whose
    text is a number; and a squad page on which a player is linked twice,
    first from the shirt number. *)
Definition numbered_listing : Document :=
  {| allLinks := [anchor "/fc-chelsea/startseite/verein/631" "24"; chelsea_row];
     allImages := []; nameEl := None; mvElements := []; body := None |}.

Definition numbered_squad : Document :=
  {| allLinks := [anchor "/reece-james/profil/spieler/472423" "24";
                  anchor "/reece-james/profil/spieler/472423" "Reece James"];
     allImages := []; nameEl := None; mvElements := []; body := None |}.

(** A listing page with Chelsea, then Arsenal linked twice under two names. *)
Definition renamed_listing : Document :=
  {| allLinks := [chelsea_row; arsenal_row; arsenal_thumb];
     allImages := []; nameEl := None; mvElements := []; body := None |}.

Definition squad_page : Document :=
  {| allLinks := [anchor "/reece-james/profil/spieler/472423" "Reece James"];
     allImages := []; nameEl := None; mvElements := []; body := None |}.

Definition arsenal_squad_url : jsstring :=
  js "https://www.transfermarkt.com/fc-arsenal/kader/verein/11".

Definition chelsea_squad_url : jsstring :=
  js "https://www.transfermarkt.com/fc-chelsea/kader/verein/631".

(** A world in which the listing page shows Arsenal and Chelsea, the request
    for Arsenal's squad page fails, every other page is a squad page with one
    player, and no image can be fetched. *)
Definition arsenal_down : World :=
  {| scrape_page := fun _ url =>
       if bool_decide (url = PREMIER_LEAGUE_URL) then Some listing_page
       else if bool_decide (url = arsenal_squad_url) then None
       else Some squad_page;
     fetch_url := fun _ _ => None;
     mkdir_ok := fun _ _ => true; writeFile_ok := fun _ _ => true |}.

(** A player of the full-profile scraper whose image is at [u]. *)
Definition full_player (u : jsstring) : Full.Player.t :=
  Full.Player.Make (js "1") (js "P") (js "https://www.transfermarkt.com/p/profil/spieler/1")
                   (Some u) None (js "T") (js "t") (scrapePlayerProfile_extract (page [] [])).

Definition basic_player (u : jsstring) : Basic.Player.t :=
  Basic.Player.Make (js "1") (js "P") (js "https://www.transfermarkt.com/p/profil/spieler/1")
                    (Some u) None None None (js "T") (js "t").

(** A world in which every image request is answered with [r]. *)
Definition answering (r : Response) : World :=
  {| scrape_page := fun _ _ => None;
     fetch_url := fun _ _ => Some r;
     mkdir_ok := fun _ _ => true; writeFile_ok := fun _ _ => true |}.

(** *** Traces *)

(** The file-system calls of [main] itself: the two output directories can
    be made at the start of a run, and the files under the data directory can
    be written. *)
Definition dirs_made (w : World) : Prop :=
  mkdir_ok w [] IMAGES_DIR = true /\ mkdir_ok w [Mkdir IMAGES_DIR] DATA_DIR = true.

Definition data_files_writable (w : World) : Prop :=
  forall tr file, writeFile_ok w tr (join DATA_DIR file) = true.

(** Where a run of [main] ends when it throws at one of its first three
    calls: at the first or the second [mkdir], which leave no event, or right
    after the request for the listing page. *)
Definition start_fails (w : World) (tr : list event) : Prop :=
  (tr = [] /\ mkdir_ok w [] IMAGES_DIR = false) \/
  (tr = [Mkdir IMAGES_DIR] /\ mkdir_ok w [Mkdir IMAGES_DIR] DATA_DIR = false) \/
  (tr = [Mkdir IMAGES_DIR; Mkdir DATA_DIR; Scrape PREMIER_LEAGUE_URL] /\
   scrape_page w [Mkdir IMAGES_DIR; Mkdir DATA_DIR] PREMIER_LEAGUE_URL = None).

(** A file of the data directory cannot be written at the end of [tr]. *)
Definition data_write_fails (w : World) (tr : list event) : Prop :=
  exists file, writeFile_ok w tr (join DATA_DIR file) = false.

(** The trace [tr] ends with the failed request for the squad page of one of
    the [teams]. *)
Definition squad_request_fails (w : World) (teams : list Team.t) (tr : list event) : Prop :=
  exists team t,
    team ∈ teams /\ tr = t ++ [Scrape (squadUrl team)] /\
    scrape_page w t (squadUrl team) = None.


(** The files written in a trace, in order. *)
Definition writes (tr : list event) : list path :=
  omap (fun e => match e with WriteFile p => Some p | _ => None end) tr.

(** A run that only adds events to the trace it is given. *)
Definition extends {A} (m : IO A) : Prop :=
  forall tr o tr', m tr = (o, tr') -> exists ev, tr' = tr ++ ev.

(** Where the image of the player [id] of the team [slug] is written, and the
    path that is recorded for it. *)
Definition image_file (slug id : jsstring) : path :=
  join (join IMAGES_DIR slug) (id ++ js ".jpg").

Definition image_path (slug id : jsstring) : jsstring :=
  images_prefix ++ slug ++ js "/" ++ id ++ js ".jpg".

(** A response that carries an image: the status is ok and the body has at
    least 1000 bytes. *)
Definition carries_image (r : Response) : Prop :=
  ok r = true /\ 1000 <= length (arrayBuffer r).

(** A recorded image path names a file that the trace has written. *)
Definition path_written (slug id : jsstring) (localImagePath : option jsstring)
           (tr : list event) : Prop :=
  match localImagePath with
  | None => True
  | Some p => p = image_path slug id /\ image_file slug id ∈ writes tr
  end.


(** In the run with trace [tr] the page [url] was requested, and the request
    was answered with [page] ([None]: it failed). *)
Definition answered (w : World) (tr : list event) (url : jsstring) (page : option Document)
  : Prop :=
  exists t post, tr = t ++ Scrape url :: post /\ scrape_page w t url = page.

(** The players that the scraper that builds image URLs discovers when the
    requests for the squad pages of [teams] are answered with [squads]: the
    players of each squad page, team by team; a team whose squad page could
    not be obtained gives none. *)
Definition basic_squads (teams : list Team.t) (squads : list (option Document))
  : list Basic.Player.t :=
  concat (zip_with (fun team squad =>
                      match squad with
                      | Some d => Basic.scrapeTeamPlayers_extract team (allLinks d)
                      | None => []
                      end) teams squads).

(** The same for the full-profile scraper.  [squad_lists] is the basic
    information of the players, team by team, when the squad pages are
    [squads]; [listed] puts each player of such lists beside its team, in
    order; [profile_of] is the player that a profile page gives, and
    [profiled] the players of the entries whose profile page was obtained. *)
Definition squad_lists (teams : list Team.t) (squads : list Document)
  : list (Team.t * list Full.BasicInfo.t) :=
  zip_with (fun team d => (team, Full.scrapeTeamPlayerList_extract (allLinks d))) teams squads.

Definition beside (l : Team.t * list Full.BasicInfo.t) : list (Team.t * Full.BasicInfo.t) :=
  (fun info => (l.1, info)) <$> l.2.

Definition listed (lists : list (Team.t * list Full.BasicInfo.t))
  : list (Team.t * Full.BasicInfo.t) :=
  concat (beside <$> lists).

Definition profile_of (e : Team.t * Full.BasicInfo.t) (profile : Document) : Full.Player.t :=
  Full.Player.Make (Full.BasicInfo.id e.2) (Full.BasicInfo.name e.2) (Full.BasicInfo.url e.2)
                   (imageUrl (scrapePlayerProfile_extract profile)) None
                   (Team.name e.1) (Team.slug e.1) (scrapePlayerProfile_extract profile).

Definition profiled (entries : list (Team.t * Full.BasicInfo.t))
           (profiles : list (option Document)) : list Full.Player.t :=
  omap id (zip_with (fun e profile => profile_of e <$> profile) entries profiles).

(** What the download loop does to a player: it leaves it as it is, or it
    records the path of the player's image. *)
Definition basic_path_set (p q : Basic.Player.t) : Prop :=
  q = p \/
  q = Basic.set_localImagePath p (image_path (Basic.Player.teamSlug p) (Basic.Player.id p)).

Definition full_path_set (p q : Full.Player.t) : Prop :=
  q = p \/
  q = Full.set_localImagePath p (image_path (Full.Player.teamSlug p) (Full.Player.id p)).

(** A profile page with a portrait image. *)
Definition profile_page : Document :=
  {| allLinks := [];
     allImages :=
       [{| dataSrc := None;
           src := Some (js "https://img.a.transfermarkt.technology/portrait/big/472423-1700000000.jpg") |}];
     nameEl := None; mvElements := []; body := None |}.

(** A world in which the listing page shows Arsenal and Chelsea, every squad
    page has one player, every other page is that player's profile, and every
    image request is answered with [r]. *)
Definition serving (r : Response) : World :=
  {| scrape_page := fun _ url =>
       if bool_decide (url = PREMIER_LEAGUE_URL) then Some listing_page
       else if JS.includes (js "/kader/") url then Some squad_page
       else Some profile_page;
     fetch_url := fun _ _ => Some r;
     mkdir_ok := fun _ _ => true; writeFile_ok := fun _ _ => true |}.

Definition photo : Response := {| ok := true; arrayBuffer := replicate 1000 0%N |}.

(** The same world, except that no profile page can be obtained. *)
Definition profiles_down : World :=
  {| scrape_page := fun _ url =>
       if bool_decide (url = PREMIER_LEAGUE_URL) then Some listing_page
       else if JS.includes (js "/kader/") url then Some squad_page
       else None;
     fetch_url := fun _ _ => Some photo;
     mkdir_ok := fun _ _ => true; writeFile_ok := fun _ _ => true |}.

(** The world [serving photo], except that nothing can be written under the
    images directory: only the two output directories can be made and only
    the files of the data directory can be written. *)
Definition images_unwritable : World :=
  {| scrape_page := scrape_page (serving photo);
     fetch_url := fetch_url (serving photo);
     mkdir_ok := fun _ p => match p with IMAGES_DIR | DATA_DIR => true | join _ _ => false end;
     writeFile_ok := fun _ p => match p with join DATA_DIR _ => true | _ => false end |}.

(** *** Grouping *)

(** The group of the key [k]: the elements with that key, in their order. *)
Definition group_of {P} (key : P -> jsstring) (ps : list P) (k : jsstring)
  : jsstring * list P :=
  (k, filter (fun p => key p = k) ps).

(** The per-team data file of a team slug. *)
Definition team_file (teamSlug : jsstring) : path := join DATA_DIR (teamSlug ++ js ".json").

(** *** The resolver *)

(** An href of the shape [/<slug>/profil/spieler/<digits>]. *)
Definition player_href_shape (h slug ds tl : jsstring) : Prop :=
  h = js "/" ++ slug ++ js "/profil/spieler/" ++ ds ++ tl /\
  slug <> [] /\ (slash ∉ slug) /\
  ds <> [] /\ Forall is_digit ds /\ no_digit_ahead tl.

(** [url] has an occurrence of [/<type>/] followed by a digit, [a] being what
    precedes the occurrence. *)
Definition id_occurs_after (type : entityKind) (url a : jsstring) : Prop :=
  exists d tl, is_digit d /\ url = a ++ id_label type ++ d :: tl.

(** What follows the first path segment: nothing, or a slash and the rest. *)
Definition segment_ends (r : jsstring) : Prop :=
  match r with
  | [] => True
  | c :: _ => c = slash
  end.

(** *** The text normalizer *)

(** White space occurs in [s] only as single spaces, each after a code unit
    that is not white space; [after_white] tells whether [s] follows white
    space or begins the text. *)
Fixpoint single_spaced (after_white : bool) (s : jsstring) : bool :=
  match s with
  | [] => true
  | c :: tl =>
    if JS.is_white c then (c =? 32)%N && negb after_white && single_spaced true tl
    else single_spaced false tl
  end.

(** The normal form of the normalizer: no white space at either end, and
    inside only single spaces. *)
Definition normal_text (s : jsstring) : Prop :=
  single_spaced true s = true /\
  match last s with
  | Some c => JS.is_white c = false
  | None => True
  end.

(** Every run of white space replaced by one space; [in_run] tells whether
    the run has begun. *)
Fixpoint collapse (in_run : bool) (s : jsstring) : jsstring :=
  match s with
  | [] => []
  | c :: tl =>
    if JS.is_white c then (if in_run then collapse true tl else 32%N :: collapse true tl)
    else c :: collapse false tl
  end.

Definition ampersand : N := 38%N.

(** The same normal form, said of the code units: the first and the last are
    not white space, and a code unit that is white space is a space followed
    by a code unit that is not white space. *)
Definition normalized (s : jsstring) : Prop :=
  (forall c, head s = Some c -> JS.is_white c = false) /\
  (forall c, last s = Some c -> JS.is_white c = false) /\
  (forall i c, s !! i = Some c -> JS.is_white c = true ->
     c = 32%N /\ exists d, s !! S i = Some d /\ JS.is_white d = false).

(** An anchor with the given href and text. *)
Definition link_to (h text : jsstring) : Anchor := Build_Anchor (Some h) text.

(** *** Shapes of the extracted fields *)

(** A date as the profile patterns capture it: [dd/dd/dddd]. *)
Definition date_shaped (s : jsstring) : Prop :=
  exists dd mm yyyy,
    s = dd ++ js "/" ++ mm ++ js "/" ++ yyyy /\
    length dd = 2 /\ length mm = 2 /\ length yyyy = 4 /\
    Forall is_digit dd /\ Forall is_digit mm /\ Forall is_digit yyyy.

(** A number that [parseInt] reads from a non-empty run of digits: the
    Number value of the integer that the run denotes.  It is never [NaN] and
    never negative: it is a double of integer value or, for a run beyond the
    range of the doubles, [Infinity]; for a run of at most 15 digits it is the
    integer itself, not rounded. *)
Definition count_of (ds : jsstring) (n : JS.number) : Prop :=
  ds <> [] /\ Forall is_digit ds /\ n = JS.number_of (JS.digits_value 0 ds) /\
  match n with
  | JS.Num z => (0 <= z)%Z
  | JS.Infinity => True
  | _ => False
  end /\
  (length ds <= 15 -> n = JS.Num (JS.digits_value 0 ds)).

(** A market value as the pattern captures it: the euro sign, a non-empty
    run of digits, commas and dots, and at most one of the letters m and k in
    either case. *)
Definition amount_char (c : N) : Prop := is_digit c \/ c = 44%N \/ c = 46%N.

Definition amount_shaped (v : jsstring) : Prop :=
  exists num suffix,
    v = euro ++ num ++ suffix /\ num <> [] /\ Forall amount_char num /\
    (suffix = [] \/ suffix = js "m" \/ suffix = js "k" \/ suffix = js "M" \/ suffix = js "K").

(** The headline of a profile page. *)
Definition headline (text : jsstring) : Document :=
  {| allLinks := []; allImages := []; nameEl := Some text; mvElements := []; body := None |}.

(** A height as the pattern captures it: a non-empty run of digits, commas
    and dots, white space, and the letter m in either case. *)
Definition height_shaped (v : jsstring) : Prop :=
  exists num ws unit,
    v = num ++ ws ++ unit /\ num <> [] /\ Forall amount_char num /\ Forall is_white ws /\
    (unit = js "m" \/ unit = js "M").

(** *** Team URLs *)

(** The href of a team row: [/<slug>/startseite/verein/<digits>], alone or
    followed by a season suffix. *)
Definition team_row_href (slug ds : jsstring) (season : option jsstring) : jsstring :=
  js "/" ++ slug ++ js "/startseite/verein/" ++ ds
    ++ match season with
       | Some r => js "/saison_id" ++ r
       | None => []
       end.

(** A slug that cannot be mistaken for a part of the URL scheme: it is a
    non-empty path segment, it is not [startseite] and it does not begin with
    [saison_id]. *)
Definition plain_slug (slug : jsstring) : Prop :=
  slug <> [] /\ (slash ∉ slug) /\ slug <> (js "startseite") /\
  JS.starts_with (js "saison_id") slug = false.

(** *** Images of a profile page *)

(** The source that the callbacks read from an image: [data-src || src]. *)
Definition source_of (img : Image) : option jsstring := or_else (dataSrc img) (src img).

(** An image whose source does not hold [portrait]. *)
Definition no_portrait (img : Image) : Prop :=
  match source_of img with
  | Some u => JS.includes (js "portrait") u = false
  | None => True
  end.

(** The three size replacements, in the order of the callbacks. *)
Definition header_size (u : jsstring) : jsstring :=
  JS.replace_str (js "/big/") (js "/header/")
    (JS.replace_str (js "/medium/") (js "/header/")
      (JS.replace_str (js "/small/") (js "/header/") u)).

(** A text without white space at either end. *)
Definition trimmed (s : jsstring) : Prop :=
  (forall c, head s = Some c -> JS.is_white c = false) /\
  (forall c, last s = Some c -> JS.is_white c = false).

(** * Properties *)

(** ** The matcher *)

Lemma consume_pos ds tl x : pos (consume ds tl x) = pos x + length ds.
Proof.
  revert x. induction ds as [|c ds IH]; intros x; simpl.
  - lia.
  - rewrite IH. simpl. lia.
Qed.

Lemma consume_rest ds tl x : rest (consume ds tl x) = tl.
Proof. revert x. induction ds as [|c ds IH]; intros x; simpl; auto. Qed.

Lemma consume_caps ds tl x : caps (consume ds tl x) = caps x.
Proof.
  revert x. induction ds as [|c ds IH]; intros x; simpl; auto.
  rewrite IH. reflexivity.
Qed.

Lemma consume_prev ds tl x :
  prev (consume ds tl x) = match last ds with Some c => Some c | None => prev x end.
Proof.
  revert x. induction ds as [|c ds IH]; intros x; simpl; auto.
  rewrite IH. simpl. destruct ds as [|d ds]; [reflexivity|].
  change (last (c :: d :: ds)) with (last (d :: ds)).
  destruct (last (d :: ds)) eqn:E; [reflexivity|].
  apply last_None in E. discriminate.
Qed.

Lemma consume_here x : consume [] (rest x) x = x.
Proof. destruct x; reflexivity. Qed.

Lemma clear_no_caps x : clear_caps [] x = x.
Proof. destruct x; reflexivity. Qed.

Lemma take_consumed ds tl x :
  take (pos (consume ds tl x) - pos x) (ds ++ tl) = ds.
Proof.
  rewrite consume_pos.
  replace (pos x + length ds - pos x) with (length ds) by lia.
  apply take_app_length.
Qed.

(** A literal, without flags, reads exactly its own code units. *)
Lemma lit_match_prefix s x k :
  lit_match no_flags s x k =
  if JS.starts_with s (rest x)
  then k (consume s (drop (length s) (rest x)) x)
  else None.
Proof.
  revert x. induction s as [|a s IH]; intros x; simpl.
  - rewrite drop_0. destruct x; reflexivity.
  - destruct x as [p n r cs]; simpl. destruct r as [|c tl]; simpl; [reflexivity|].
    unfold canon; simpl. destruct (N.eqb_spec a c) as [->|]; simpl; [|reflexivity].
    rewrite IH. simpl. destruct (JS.starts_with s tl) eqn:E; [|reflexivity].
    f_equal. f_equal. unfold advance; simpl. f_equal.
    clear -E. revert tl E. induction s as [|b s IH]; intros tl E; simpl.
    + rewrite drop_0. reflexivity.
    + destruct tl as [|d tl]; simpl in *; [discriminate|].
      apply andb_true_iff in E as [E1 E2]. apply N.eqb_eq in E1 as ->.
      f_equal. apply IH, E2.
Qed.

Lemma starts_with_app s tl : JS.starts_with s (s ++ tl) = true.
Proof. induction s; simpl; auto. rewrite N.eqb_refl. auto. Qed.

Lemma starts_with_inv s r : JS.starts_with s r = true -> r = s ++ drop (length s) r.
Proof.
  revert r. induction s as [|a s IH]; intros r H; simpl in *.
  - rewrite drop_0. reflexivity.
  - destruct r as [|c r]; [discriminate|].
    apply andb_true_iff in H as [H1 H2]. apply N.eqb_eq in H1 as ->.
    simpl. f_equal. apply IH, H2.
Qed.

Lemma lit_match_app s tl x k :
  rest x = s ++ tl -> lit_match no_flags s x k = k (consume s tl x).
Proof.
  intros E. rewrite lit_match_prefix, E, starts_with_app, drop_app_length. reflexivity.
Qed.

Lemma repeat_match_unbounded m gs g f mn x k :
  repeat_match m gs g (S f) mn None x k =
  let d := fun y : mstate =>
    if (mn =? 0) && (pos y =? pos x) then None
    else repeat_match m gs g f (pred mn) None y k in
  if mn =? 0 then
    if g then match m (clear_caps gs x) d with Some z => Some z | None => k x end
    else match k x with Some z => Some z | None => m (clear_caps gs x) d end
  else m (clear_caps gs x) d.
Proof. reflexivity. Qed.

Section ClassRepeat.

Variables (fl : flags) (inv : bool) (rs : list (N * N)).

Let P := accepts fl inv rs.

Lemma cls_match_accept x k c tl :
  rest x = c :: tl -> P c -> cls_match fl inv rs x k = k (advance x c tl).
Proof. intros E H. unfold cls_match. rewrite E, H. reflexivity. Qed.

Lemma cls_match_stop x k :
  match rest x with [] => True | c :: _ => ~ P c end ->
  cls_match fl inv rs x k = None.
Proof using Type*.
  unfold cls_match. destruct (rest x) as [|c tl]; [reflexivity|].
  intros H. unfold P, accepts in H. destruct (xorb _ _); [contradiction H|]; reflexivity.
Qed.

(** A greedy quantifier over a class reads the whole run of accepted code
    units when what follows the quantifier then matches. *)
Lemma repeat_cls_greedy ds : forall fuel mn x k tl z,
  rest x = ds ++ tl ->
  Forall P ds ->
  match tl with [] => True | c :: _ => ~ P c end ->
  mn <= length ds -> length ds < fuel ->
  k (consume ds tl x) = Some z ->
  repeat_match (cls_match fl inv rs) [] true fuel mn None x k = Some z.
Proof using Type*.
  induction ds as [|c ds IH]; intros fuel mn x k tl z E HP Htl Hmn Hf Hk.
  - destruct fuel as [|f]; [simpl in Hf; lia|].
    simpl in E, Hmn. subst tl. assert (mn = 0) as -> by lia.
    rewrite repeat_match_unbounded. cbv zeta. change (0 =? 0) with true. cbv iota.
    rewrite clear_no_caps, cls_match_stop by exact Htl.
    rewrite consume_here in Hk. exact Hk.
  - destruct fuel as [|f]; [simpl in Hf; lia|].
    apply Forall_cons in HP as [Hc HP]. simpl in Hk, Hmn, Hf.
    assert (Hd : (if (mn =? 0) && (pos (advance x c (ds ++ tl)) =? pos x) then None
                  else repeat_match (cls_match fl inv rs) [] true f (pred mn) None
                         (advance x c (ds ++ tl)) k) = Some z).
    { replace (pos (advance x c (ds ++ tl)) =? pos x) with false
        by (symmetry; apply Nat.eqb_neq; simpl; lia).
      rewrite andb_false_r. apply IH with (tl := tl); auto; lia. }
    rewrite repeat_match_unbounded. cbv zeta. rewrite clear_no_caps.
    rewrite (cls_match_accept x _ c (ds ++ tl)) by auto.
    rewrite Hd. destruct (mn =? 0); reflexivity.
Qed.

(** Whatever a quantifier over a class returns was returned by its
    continuation after a run of accepted code units. *)
Lemma repeat_cls_inv fuel : forall g mn x k z,
  repeat_match (cls_match fl inv rs) [] g fuel mn None x k = Some z ->
  exists ds tl, rest x = ds ++ tl /\ Forall P ds /\ mn <= length ds /\
                k (consume ds tl x) = Some z.
Proof using Type*.
  induction fuel as [|f IH]; intros g mn x k z H; [discriminate|].
  rewrite repeat_match_unbounded in H. cbv zeta in H. rewrite clear_no_caps in H.
  assert (Hstep : forall d', 
    (forall y, d' y = (if (mn =? 0) && (pos y =? pos x) then None
       else repeat_match (cls_match fl inv rs) [] g f (pred mn) None y k)) ->
    cls_match fl inv rs x d' = Some z ->
    exists ds tl, rest x = ds ++ tl /\ Forall P ds /\ mn <= length ds /\
                  k (consume ds tl x) = Some z).
  { intros d' Hd' Hm. unfold cls_match in Hm.
    destruct (rest x) as [|c tl] eqn:E; [discriminate|].
    destruct (xorb inv (class_has fl rs c)) eqn:Hc; [|discriminate].
    rewrite Hd' in Hm.
    destruct ((mn =? 0) && (pos (advance x c tl) =? pos x)); [discriminate|].
    apply IH in Hm as (ds & tl' & E' & HP & Hmn & Hk). simpl in E'. subst tl.
    exists (c :: ds), tl'.
    split; [reflexivity|]. split; [constructor; auto|]. split; [simpl; lia|]. exact Hk. }
  destruct (mn =? 0) eqn:Hz.
  - apply Nat.eqb_eq in Hz. subst mn.
    assert (Hhere : k x = Some z -> exists ds tl, rest x = ds ++ tl /\ Forall P ds /\
               0 <= length ds /\ k (consume ds tl x) = Some z).
    { intros Hk. exists [], (rest x). rewrite consume_here.
      split; [reflexivity|]. split; [constructor|]. split; [simpl; lia|]. exact Hk. }
    destruct g.
    + destruct (cls_match fl inv rs x _) eqn:Hm.
      * inversion H; subst. eapply Hstep; [|exact Hm]. reflexivity.
      * auto.
    + destruct (k x) eqn:Hk.
      * inversion H; subst. auto.
      * eapply Hstep; [|exact H]. reflexivity.
  - eapply Hstep; [|exact H]. reflexivity.
Qed.

(** The fuel of a quantifier over a class is never used up: every pass reads
    one code unit, so any fuel above the length of the remaining input gives
    the same result. *)
Lemma repeat_cls_fuel f : forall g mn x k,
  length (rest x) < f ->
  repeat_match (cls_match fl inv rs) [] g (S f) mn None x k
  = repeat_match (cls_match fl inv rs) [] g f mn None x k.
Proof using Type.
  induction f as [|f IH]; intros g mn x k Hf; [lia|].
  rewrite (repeat_match_unbounded _ _ _ (S f)), (repeat_match_unbounded _ _ _ f).
  cbv zeta. rewrite clear_no_caps.
  assert (Hm : cls_match fl inv rs x
                 (fun y => if (mn =? 0) && (pos y =? pos x) then None
                           else repeat_match (cls_match fl inv rs) [] g (S f) (pred mn) None y k)
             = cls_match fl inv rs x
                 (fun y => if (mn =? 0) && (pos y =? pos x) then None
                           else repeat_match (cls_match fl inv rs) [] g f (pred mn) None y k)).
  { unfold cls_match. destruct (rest x) as [|c tl] eqn:E; [reflexivity|].
    destruct (xorb inv (class_has fl rs c)); [|reflexivity].
    rewrite IH; [reflexivity|]. simpl in *. lia. }
  rewrite Hm. reflexivity.
Qed.

End ClassRepeat.

Lemma exec_from_step fl r idx p s :
  exec_from fl r idx p s =
  match match_here fl r p s with
  | Some y => Some (MatchResult idx (caps y))
  | None =>
    match s with
    | [] => None
    | c :: tl => exec_from fl r (S idx) (Some c) tl
    end
  end.
Proof. destruct s; reflexivity. Qed.

(** The search tries the positions from left to right. *)
Lemma exec_from_skip fl r pre : forall idx p s,
  (forall a b, pre = a ++ b -> b <> [] ->
     match_here fl r (before a p) (b ++ s) = None) ->
  exec_from fl r idx p (pre ++ s) =
  exec_from fl r (idx + length pre) (before pre p) s.
Proof.
  unfold before. induction pre as [|c pre IH]; intros idx p s H.
  - simpl. rewrite Nat.add_0_r. reflexivity.
  - rewrite exec_from_step.
    pose proof (H [] (c :: pre) eq_refl ltac:(discriminate)) as H0.
    change (match_here fl r p ((c :: pre) ++ s) = None) in H0. rewrite H0.
    change ((c :: pre) ++ s) with (c :: (pre ++ s)). cbv iota.
    rewrite IH.
    + replace (S idx + length pre) with (idx + length (c :: pre)) by (simpl; lia).
      f_equal. destruct pre as [|d pre]; [reflexivity|].
      change (last (c :: d :: pre)) with (last (d :: pre)).
      destruct (last (d :: pre)) eqn:E; [reflexivity|].
      apply last_None in E. discriminate.
    + intros a b E Hb. specialize (H (c :: a) b).
      rewrite <- H by (auto; rewrite E; reflexivity).
      f_equal. destruct a as [|d a]; [reflexivity|].
      change (last (c :: d :: a)) with (last (d :: a)).
      destruct (last (d :: a)) eqn:E'; [reflexivity|].
      apply last_None in E'. discriminate.
Qed.

Lemma exec_from_char fl r idx p c s :
  match_here fl r p (c :: s) = None ->
  exec_from fl r idx p (c :: s) = exec_from fl r (S idx) (Some c) s.
Proof. intros H. rewrite exec_from_step, H. reflexivity. Qed.

Lemma exec_from_here fl r idx p s y :
  match_here fl r p s = Some y ->
  exec_from fl r idx p s = Some (MatchResult idx (caps y)).
Proof. intros H. rewrite exec_from_step, H. reflexivity. Qed.

(** No position matches: the search returns [null]. *)
Lemma exec_from_none fl r s : forall idx p,
  (forall a b q, s = a ++ b -> match_here fl r q b = None) ->
  exec_from fl r idx p s = None.
Proof.
  induction s as [|c s IH]; intros idx p H; rewrite exec_from_step.
  - rewrite (H [] []); reflexivity.
  - rewrite (H [] (c :: s)) by reflexivity. apply IH.
    intros a b q E. apply (H (c :: a)). rewrite E. reflexivity.
Qed.

(** A match of the search is a match at one of the positions. *)
Lemma exec_from_some fl r s : forall idx p m,
  exec_from fl r idx p s = Some m ->
  exists a b y, s = a ++ b /\ match_here fl r (before a p) b = Some y /\
                groups m = caps y.
Proof.
  induction s as [|c s IH]; intros idx p m H; rewrite exec_from_step in H.
  - destruct (match_here fl r p []) as [y|] eqn:E; [|discriminate].
    inversion H; subst. exists [], [], y. auto.
  - destruct (match_here fl r p (c :: s)) as [y|] eqn:E.
    + inversion H; subst. exists [], (c :: s), y. auto.
    + apply IH in H as (a & b & y & -> & Hm & Hg).
      exists (c :: a), b, y. split; [reflexivity|]. split; [|exact Hg].
      rewrite <- Hm. f_equal. unfold before.
      destruct a as [|d a]; [reflexivity|].
      change (last (c :: d :: a)) with (last (d :: a)).
      destruct (last (d :: a)) eqn:E'; [reflexivity|].
      apply last_None in E'. discriminate.
Qed.

Lemma digit_accepts c : accepts no_flags false [(48, 57)%N] c <-> is_digit c.
Proof.
  unfold accepts, is_digit, class_has, JS.in_ranges, JS.is_digit, JS.in_range; simpl.
  rewrite orb_false_r. reflexivity.
Qed.

Lemma digits_accepted ds : Forall is_digit ds <-> Forall (accepts no_flags false [(48, 57)%N]) ds.
Proof. apply Forall_iff. intros c. symmetry. apply digit_accepts. Qed.

Lemma no_digit_stop tl :
  no_digit_ahead tl ->
  match tl with [] => True | c :: _ => ~ accepts no_flags false [(48, 57)%N] c end.
Proof.
  destruct tl as [|c tl]; simpl; auto.
  intros H Ha. apply digit_accepts in Ha. unfold is_digit in Ha. congruence.
Qed.

(** Every string splits into its leading run of digits and a remainder that
    does not begin with a digit. *)
Lemma digit_run s : exists ds tl, s = ds ++ tl /\ Forall is_digit ds /\ no_digit_ahead tl.
Proof.
  induction s as [|c s (ds & tl & E & Hd & Ht)].
  - exists [], []. simpl. auto.
  - destruct (JS.is_digit c) eqn:Hc.
    + exists (c :: ds), tl. rewrite E. repeat split; auto.
    + exists [], (c :: s). simpl. auto.
Qed.

(** ** C1: the text normalizer *)

(** C1, as the specification states it, fails: the normalizer does not return
    "A& B" on "A&amp;nbsp;&nbsp;B". *)
Lemma cleanText_double_encoded_not_amp :
  cleanText (Some (js "A&amp;nbsp;&nbsp;B")) <> js "A& B".
Proof. vm_compute. discriminate. Qed.

(** C1 (amended): on "A&amp;nbsp;&nbsp;B" the normalizer returns
    "A&nbsp; B".  The [&nbsp;] pass runs first and decodes the one genuine
    entity into a space; the [&amp;] pass then leaves the text [&nbsp;], which
    no later pass decodes; white space is collapsed and trimmed last. *)
Theorem cleanText_double_encoded :
  cleanText (Some (js "A&amp;nbsp;&nbsp;B")) = js "A&nbsp; B".
Proof. vm_compute. reflexivity. Qed.

(** ** C6: the identifier and slug resolver *)

Lemma rmatch_seq fl r1 r2 x k :
  rmatch fl (Seq r1 r2) x k = rmatch fl r1 x (fun y => rmatch fl r2 y k).
Proof. reflexivity. Qed.

Lemma rmatch_lit fl s x k : rmatch fl (Lit s) x k = lit_match fl s x k.
Proof. reflexivity. Qed.

Lemma rmatch_grp fl i r x k :
  rmatch fl (Grp i r) x k = rmatch fl r x (fun y => k (set_cap i x y)).
Proof. reflexivity. Qed.

Lemma rmatch_rep_cls fl inv rs mn g x k :
  rmatch fl (Rep (Cls inv rs) mn None g) x k =
  repeat_match (cls_match fl inv rs) [] g (S (mn + length (rest x))) mn None x k.
Proof. reflexivity. Qed.

Lemma idPattern_eq type :
  idPattern type = Seq (Lit (id_label type)) (Grp 1 (Rep (Cls false [(48, 57)%N]) 1 None true)).
Proof. reflexivity. Qed.

(** At a position where the marker and a run of digits begin, the id pattern
    matches and group 1 holds the whole run. *)
Lemma id_match_here type p (ds tl : jsstring) :
  ds <> [] -> Forall is_digit ds -> no_digit_ahead tl ->
  exists y, match_here no_flags (idPattern type) p (id_label type ++ ds ++ tl) = Some y /\
            group (MatchResult 0 (caps y)) 1 = Some ds.
Proof.
  intros Hne Hd Htl. unfold match_here. rewrite idPattern_eq.
  set (x := start _ p _).
  rewrite rmatch_seq, rmatch_lit, (lit_match_app _ (ds ++ tl)) by reflexivity.
  set (y := consume _ _ x).
  assert (Hy : rest y = ds ++ tl) by apply consume_rest.
  rewrite rmatch_grp, rmatch_rep_cls.
  rewrite (repeat_cls_greedy no_flags false _ ds _ _ _ _ tl (set_cap 1 y (consume ds tl y))).
  - eexists. split; [reflexivity|]. unfold group. simpl.
    rewrite consume_caps. unfold y. rewrite consume_caps.
    fold y. rewrite Hy, take_consumed. reflexivity.
  - exact Hy.
  - apply digits_accepted, Hd.
  - apply no_digit_stop, Htl.
  - destruct ds; [congruence|simpl; lia].
  - rewrite Hy, length_app. lia.
  - reflexivity.
Qed.

(** The id pattern matches at a position only if the marker and a digit
    begin there. *)
Lemma id_match_here_inv type p s y :
  match_here no_flags (idPattern type) p s = Some y ->
  exists d tl, is_digit d /\ s = id_label type ++ d :: tl.
Proof.
  unfold match_here. rewrite idPattern_eq.
  destruct (rmatch _ _ _ _) as [z|] eqn:E; [intros _|discriminate].
  rewrite rmatch_seq, rmatch_lit, lit_match_prefix in E.
  simpl rest in E.
  destruct (JS.starts_with (id_label type) s) eqn:Hs; [|discriminate].
  apply starts_with_inv in Hs.
  rewrite rmatch_grp, rmatch_rep_cls in E.
  apply repeat_cls_inv in E as (ds & tl & Hr & Hd & Hlen & _).
  rewrite consume_rest in Hr.
  destruct ds as [|d ds]; [simpl in Hlen; lia|].
  apply Forall_cons in Hd as [Hd _]. apply digit_accepts in Hd.
  exists d, (ds ++ tl). split; [exact Hd|].
  rewrite Hs at 1. rewrite Hr. reflexivity.
Qed.

Lemma id_no_match type p s :
  (forall d tl, is_digit d -> s <> id_label type ++ d :: tl) ->
  match_here no_flags (idPattern type) p s = None.
Proof.
  intros H. destruct (match_here _ _ _ _) as [y|] eqn:E; [exfalso|reflexivity].
  apply id_match_here_inv in E as (d & tl & Hd & ->). eapply H; eauto.
Qed.

(** Two strings that agree up to their first slash agree on both sides of it. *)
Lemma first_slash a : forall b x y,
  slash ∉ a -> slash ∉ b -> a ++ slash :: x = b ++ slash :: y -> a = b /\ x = y.
Proof.
  induction a as [|c a IH]; intros [|d b] x y Ha Hb E; simpl in E.
  - inversion E. auto.
  - inversion E; subst. exfalso. apply Hb. left.
  - inversion E; subst. exfalso. apply Ha. left.
  - inversion E; subst.
    destruct (IH b x y) as [-> ->]; auto.
    + intros H. apply Ha. right. exact H.
    + intros H. apply Hb. right. exact H.
Qed.

Lemma no_slash_in_verein : slash ∉ js "verein".
Proof. vm_compute. intros H. repeat (inversion H as [|? ? ? H']; subst; clear H; rename H' into H). Qed.

(** The id of an href of the team shape is the run of digits of the shape. *)
Lemma extractId_of_shape h slug ds tl :
  team_href_shape h slug ds tl -> extractId h verein = ds.
Proof.
  intros (-> & Hne & Hslug & Hds & Hd & Htl).
  destruct (id_match_here verein (Some 101%N) ds tl Hds Hd Htl) as (y & Hy & Hcap).
  assert (E : js "/" ++ slug ++ js "/startseite/verein/" ++ ds ++ tl =
              [slash] ++ slug ++ js "/startseite" ++ id_label verein ++ ds ++ tl)
    by reflexivity.
  unfold extractId, exec. rewrite E. clear E.
  (* position 0 *)
  change ([slash] ++ slug ++ ?r) with (slash :: (slug ++ r)).
  rewrite exec_from_char.
  2:{ apply id_no_match. intros d tl' Hd' E.
      apply (f_equal (@tail _)) in E.
      change (slug ++ slash :: (115%N :: js "tartseite" ++ id_label verein ++ ds ++ tl) =
              js "verein" ++ slash :: d :: tl') in E.
      apply first_slash in E as [_ E]; auto using no_slash_in_verein.
      apply (f_equal head) in E. simpl in E. inversion E; subst. discriminate Hd'. }
  (* the positions inside the slug *)
  rewrite exec_from_skip.
  2:{ intros a b -> Hb. apply id_no_match. intros d tl' _ E.
      destruct b as [|c b]; [congruence|]. inversion E; subst.
      apply Hslug. apply elem_of_app. right. left. }
  (* the positions inside [/startseite] *)
  change (js "/startseite" ++ ?r) with
    (47 :: 115 :: 116 :: 97 :: 114 :: 116 :: 115 :: 101 :: 105 :: 116 :: 101 :: r)%N.
  do 11 (rewrite exec_from_char
           by (apply id_no_match; intros ? ? _ E'; discriminate E')).
  erewrite exec_from_here by exact Hy.
  unfold group in *. cbn [groups] in *. rewrite Hcap. reflexivity.
Qed.

Lemma split_go_segment slug : forall cur r,
  slash ∉ slug ->
  JS.split_go [slash] 0 cur (slug ++ slash :: r)
  = (rev cur ++ slug) :: JS.split_go [slash] 0 [] r.
Proof.
  induction slug as [|c slug IH]; intros cur r H.
  - simpl. rewrite app_nil_r. reflexivity.
  - assert (Hc : (slash =? c)%N = false).
    { apply N.eqb_neq. intros <-. apply H. left. }
    change ((c :: slug) ++ slash :: r) with (c :: (slug ++ slash :: r)).
    change (JS.split_go [slash] 0 cur (c :: ?s))
      with (if (slash =? c)%N && true
            then rev cur :: JS.split_go [slash] 0 [] s
            else JS.split_go [slash] 0 (c :: cur) s).
    rewrite Hc. simpl andb. cbv iota.
    rewrite IH by (intros H'; apply H; right; exact H').
    simpl. rewrite <- app_assoc. reflexivity.
Qed.

(** The slug of an href of the team shape is its first path segment. *)
Lemma extractSlug_of_shape h slug ds tl :
  team_href_shape h slug ds tl -> extractSlug h = slug.
Proof.
  intros (-> & Hne & Hslug & _).
  unfold extractSlug, JS.split_str.
  change (js "/" ++ slug ++ js "/startseite/verein/" ++ ds ++ tl)
    with (slash :: (slug ++ slash :: (js "startseite/verein/" ++ ds ++ tl))).
  change (js "/") with [slash].
  change (JS.split_go [slash] 0 [] (slash :: ?r)) with ([] :: JS.split_go [slash] 0 [] r).
  rewrite split_go_segment by exact Hslug.
  simpl. destruct slug; [congruence|reflexivity].
Qed.

(** Without an occurrence of [/verein/] followed by a digit the id is the
    sentinel. *)
Lemma extractId_unknown h : ~ has_verein_id h -> extractId h verein = js "unknown".
Proof.
  intros H. unfold extractId, exec.
  rewrite exec_from_none; [reflexivity|].
  intros a b q ->. apply id_no_match. intros d tl Hd ->.
  apply H. exists a, d, tl. split; [exact Hd|reflexivity].
Qed.

Lemma not_slash_accepts c : accepts no_flags true [(slash, slash)] c <-> c <> slash.
Proof.
  unfold accepts, class_has, JS.in_ranges, JS.in_range, slash; simpl.
  rewrite orb_false_r.
  destruct (N.leb_spec 47 c), (N.leb_spec c 47); simpl; split; intros; try lia; congruence.
Qed.

Lemma teamHref_eq :
  teamHref =
  Seq Bol (Seq (Lit [slash]) (Seq (Rep (Cls true [(slash, slash)]) 1 None true)
          (Seq (Lit (js "/startseite/verein/")) (Rep (Cls false [(48, 57)%N]) 1 None true)))).
Proof. reflexivity. Qed.

(** An href that passes the team pattern has the team shape. *)
Lemma teamHref_shape h :
  test no_flags teamHref h = true -> exists slug ds tl, team_href_shape h slug ds tl.
Proof.
  unfold test, exec. destruct (exec_from _ _ _ _ _) as [m|] eqn:E; [intros _|discriminate].
  apply exec_from_some in E as (a & b & y & -> & Hm & _).
  unfold match_here in Hm.
  destruct (rmatch _ _ _ _) as [z|] eqn:Hz; [clear Hm|discriminate].
  rewrite teamHref_eq in Hz. unfold start in Hz.
  (* [^] holds at the start of the input only *)
  assert (a = []) as ->.
  { destruct a as [|c a] using rev_ind; [reflexivity|].
    unfold before in Hz. rewrite last_snoc in Hz. discriminate Hz. }
  simpl app. change (before [] None) with (@None N) in Hz.
  rewrite rmatch_seq in Hz. change (rmatch no_flags Bol ?x ?k) with (k x) in Hz.
  cbv beta in Hz.
  rewrite rmatch_seq, rmatch_lit, lit_match_prefix in Hz. simpl rest in Hz.
  destruct (JS.starts_with [slash] b) eqn:H1; [|discriminate].
  apply starts_with_inv in H1.
  rewrite rmatch_seq, rmatch_rep_cls in Hz.
  apply repeat_cls_inv in Hz as (slug & r1 & Hr1 & Hslug & Hlen & Hz).
  rewrite consume_rest in Hr1.
  rewrite rmatch_seq, rmatch_lit, lit_match_prefix in Hz.
  rewrite consume_rest in Hz.
  destruct (JS.starts_with (js "/startseite/verein/") r1) eqn:H2; [|discriminate].
  apply starts_with_inv in H2.
  rewrite rmatch_rep_cls in Hz.
  apply repeat_cls_inv in Hz as (ds1 & r2 & Hr2 & Hds1 & Hlen1 & _).
  rewrite consume_rest in Hr2.
  destruct (digit_run r2) as (ds2 & tl & -> & Hds2 & Htl).
  exists slug, (ds1 ++ ds2), tl. unfold team_href_shape.
  split; [|split; [|split; [|split; [|split]]]].
  - rewrite H1, Hr1, H2, Hr2, <- app_assoc. reflexivity.
  - destruct slug; [simpl in Hlen; lia|discriminate].
  - intros Hin. rewrite Forall_forall in Hslug.
    apply Hslug in Hin. apply not_slash_accepts in Hin. congruence.
  - destruct ds1; [simpl in Hlen1; lia|discriminate].
  - apply Forall_app. split; [apply digits_accepted, Hds1|exact Hds2].
  - exact Htl.
Qed.

(** ** Discovery: first occurrence wins *)

Section FirstSeenFacts.

Context {E : Type} (key : E -> jsstring) (cand : Anchor -> option E).

(** The loop with its set of seen ids computes the first occurrences. *)
Lemma foldl_dedup links : forall (out : list E) (seen : gset jsstring) (earlier : list jsstring),
  (forall k, k ∈ seen <-> k ∈ earlier) ->
  (foldl (dedup_visit key cand) (out, seen) links).1
  = out ++ first_seen_from key earlier (omap cand links).
Proof.
  induction links as [|link links IH]; intros out seen earlier Hs; simpl.
  - rewrite app_nil_r. reflexivity.
  - unfold dedup_visit at 2. destruct (cand link) as [e|]; simpl; [|apply IH, Hs].
    destruct (bool_decide_reflect (key e ∈ seen)) as [Hin|Hin].
    + rewrite bool_decide_eq_true_2 by (apply Hs, Hin).
      apply IH. intros k. rewrite elem_of_app, list_elem_of_singleton, <- Hs.
      split; [auto|]. intros [H| ->]; auto.
    + rewrite bool_decide_eq_false_2 by (rewrite <- Hs; exact Hin).
      rewrite (IH _ _ (earlier ++ [key e])).
      * rewrite <- app_assoc. reflexivity.
      * intros k. rewrite elem_of_union, elem_of_singleton, elem_of_app,
          list_elem_of_singleton, Hs. tauto.
Qed.

Lemma first_seen_from_sublist cands : forall earlier,
  first_seen_from key earlier cands `sublist_of` cands.
Proof.
  induction cands as [|e cands IH]; intros earlier; simpl; [constructor|].
  destruct (bool_decide _); [apply sublist_cons, IH|apply sublist_skip, IH].
Qed.

Lemma first_seen_from_fresh cands : forall earlier e,
  e ∈ first_seen_from key earlier cands -> key e ∉ earlier.
Proof.
  induction cands as [|c cands IH]; intros earlier e; simpl; [intros H; inversion H|].
  assert (Hnext : e ∈ first_seen_from key (earlier ++ [key c]) cands -> key e ∉ earlier).
  { intros H Hin. apply IH in H. apply H. apply elem_of_app. left. exact Hin. }
  destruct (bool_decide_reflect (key c ∈ earlier)) as [Hin|Hin]; [exact Hnext|].
  intros H. apply elem_of_cons in H as [->|H]; [exact Hin|apply Hnext, H].
Qed.

Lemma first_seen_from_NoDup cands : forall earlier,
  NoDup (key <$> first_seen_from key earlier cands).
Proof.
  induction cands as [|c cands IH]; intros earlier; simpl; [constructor|].
  destruct (bool_decide _); [apply IH|].
  rewrite fmap_cons. constructor; [|apply IH].
  intros H. apply list_elem_of_fmap in H as (e & He & Hin).
  apply first_seen_from_fresh in Hin. apply Hin.
  apply elem_of_app. right. rewrite He. left.
Qed.

Lemma first_seen_from_keys cands : forall earlier k,
  k ∈ key <$> cands -> k ∈ earlier \/ k ∈ key <$> first_seen_from key earlier cands.
Proof.
  induction cands as [|c cands IH]; intros earlier k; simpl; [intros H; inversion H|].
  intros H.
  assert (Hnext : k ∈ key <$> cands ->
                  k ∈ earlier \/ k = key c \/
                  k ∈ key <$> first_seen_from key (earlier ++ [key c]) cands).
  { intros H'. apply (IH (earlier ++ [key c])) in H' as [H'|H']; [|auto].
    apply elem_of_app in H' as [H'|H']; [auto|].
    apply list_elem_of_singleton in H'. auto. }
  destruct (bool_decide_reflect (key c ∈ earlier)) as [Hin|Hin].
  - apply elem_of_cons in H as [->|H]; [auto|].
    destruct (Hnext H) as [?|[->|?]]; auto.
  - rewrite fmap_cons. apply elem_of_cons in H as [->|H]; [right; left|].
    destruct (Hnext H) as [?|[->|?]]; auto.
    + right. left.
    + right. right. assumption.
Qed.

Lemma first_seen_from_app l1 : forall l2 earlier,
  first_seen_from key earlier (l1 ++ l2)
  = first_seen_from key earlier l1 ++ first_seen_from key (earlier ++ (key <$> l1)) l2.
Proof.
  induction l1 as [|c l1 IH]; intros l2 earlier; simpl.
  - rewrite app_nil_r. reflexivity.
  - rewrite IH, <- app_assoc. simpl. destruct (bool_decide _); reflexivity.
Qed.

(** The first candidate that carries an id is kept. *)
Lemma first_occurrence_kept cands pre e post :
  cands = pre ++ e :: post -> key e ∉ key <$> pre -> e ∈ first_seen key cands.
Proof.
  intros -> H. unfold first_seen. rewrite first_seen_from_app. simpl.
  rewrite bool_decide_eq_false_2 by exact H.
  apply elem_of_app. right. left.
Qed.

Lemma keyed_unique (l : list E) x y :
  NoDup (key <$> l) -> x ∈ l -> y ∈ l -> key x = key y -> x = y.
Proof.
  induction l as [|a l IH]; intros Hnd Hx Hy Hk; [inversion Hx|].
  rewrite fmap_cons in Hnd. apply NoDup_cons in Hnd as [Ha Hnd].
  apply elem_of_cons in Hx as [->|Hx]; apply elem_of_cons in Hy as [->|Hy]; auto.
  - exfalso. apply Ha. rewrite Hk. apply list_elem_of_fmap. eauto.
  - exfalso. apply Ha. rewrite <- Hk. apply list_elem_of_fmap. eauto.
Qed.

(** As many entries are kept as there are distinct ids. *)
Lemma first_seen_length cands :
  length (first_seen key cands) = size (list_to_set (key <$> cands) : gset jsstring).
Proof.
  rewrite <- (length_fmap key).
  rewrite <- (size_list_to_set (C := gset jsstring)) by apply first_seen_from_NoDup.
  f_equal. apply set_eq. intros k. rewrite !elem_of_list_to_set. split.
  - intros H. apply list_elem_of_fmap in H as (e & -> & He).
    apply list_elem_of_fmap. exists e. split; [reflexivity|].
    eapply elem_of_sublist; [exact He|apply first_seen_from_sublist].
  - intros H. apply (first_seen_from_keys _ []) in H as [H|H]; [inversion H|exact H].
Qed.

End FirstSeenFacts.

Lemma scrapeTeams_visit_eq st link :
  scrapeTeams_visit st link = dedup_visit Team.id team_of st link.
Proof.
  destruct st as [teams seenIds]. unfold scrapeTeams_visit, dedup_visit, team_of.
  destruct (href link) as [h|]; [|reflexivity].
  generalize (test no_flags teamHref h) (test no_flags numericOnly (cleanText (Some (textContent link))))
             (length (cleanText (Some (textContent link))) <? 3)
             (truthy (cleanText (Some (textContent link)))) (truthy h).
  intros [] [] [] [] []; reflexivity.
Qed.

Lemma foldl_ext_visit {A B} (f g : A -> B -> A) l : forall a,
  (forall a b, f a b = g a b) -> foldl f a l = foldl g a l.
Proof. induction l as [|b l IH]; intros a H; simpl; [reflexivity|]. rewrite H. apply IH, H. Qed.

(** Team discovery returns the first occurrences of the accepted anchors. *)
Lemma scrapeTeams_extract_first_seen allLinks :
  scrapeTeams_extract allLinks = first_seen Team.id (omap team_of allLinks).
Proof.
  unfold scrapeTeams_extract.
  rewrite (foldl_ext_visit _ (dedup_visit Team.id team_of)) by apply scrapeTeams_visit_eq.
  rewrite (foldl_dedup _ _ _ _ _ []); [reflexivity|].
  intros k. split; intros H; [apply elem_of_empty in H; contradiction|inversion H].
Qed.

Lemma team_of_shape link t :
  team_of link = Some t ->
  exists h slug ds tl, href link = Some h /\ team_href_shape h slug ds tl /\
                       Team.id t = ds /\ Team.slug t = slug.
Proof.
  unfold team_of. destruct (href link) as [h|]; [|discriminate].
  destruct (test no_flags teamHref h) eqn:Ht.
  - destruct (teamHref_shape h Ht) as (slug & ds & tl & Hs).
    destruct (_ && _); [|discriminate]. intros [= <-].
    exists h, slug, ds, tl. simpl.
    split; [reflexivity|]. split; [exact Hs|].
    split; [eapply extractId_of_shape, Hs|eapply extractSlug_of_shape, Hs].
  - rewrite andb_false_r. discriminate.
Qed.

(** C6, as the specification states it, fails in its second part: an href
    that does not pass the team pattern may still resolve to an id, because
    the resolver looks for [/verein/] and digits anywhere in the href. *)
Lemma extractId_outside_team_pattern :
  ~ (forall h : jsstring,
       test no_flags teamHref h = false -> extractId h verein = js "unknown").
Proof.
  intros H. specialize (H (js "/fc-arsenal/kader/verein/11")).
  assert (E : test no_flags teamHref (js "/fc-arsenal/kader/verein/11") = false)
    by (vm_compute; reflexivity).
  specialize (H E). vm_compute in H. discriminate H.
Qed.

(** C6 (amended): an href of the shape [/<slug>/startseite/verein/<digits>]
    resolves to exactly that run of digits as id and to its first path segment
    as slug; an href without any occurrence of [/verein/] followed by a digit
    resolves to the sentinel "unknown"; and an anchor whose href lacks the
    shape is excluded from team discovery: it leaves the loop state as it is,
    so that every discovered team stems from an anchor whose href has the
    shape, with the digits as its id and the first segment as its slug. *)
Theorem resolver_on_team_hrefs :
  (forall h slug ds tl,
     team_href_shape h slug ds tl -> extractId h verein = ds /\ extractSlug h = slug) /\
  (forall h, ~ has_verein_id h -> extractId h verein = js "unknown") /\
  (forall st link,
     (forall h slug ds tl, href link = Some h -> ~ team_href_shape h slug ds tl) ->
     scrapeTeams_visit st link = st) /\
  (forall allLinks t,
     t ∈ scrapeTeams_of allLinks ->
     exists link h slug ds tl,
       link ∈ allLinks /\ href link = Some h /\ team_href_shape h slug ds tl /\
       Team.id t = ds /\ Team.slug t = slug).
Proof.
  split; [|split; [|split]].
  - intros h slug ds tl H. split.
    + eapply extractId_of_shape, H.
    + eapply extractSlug_of_shape, H.
  - apply extractId_unknown.
  - intros st link H. rewrite scrapeTeams_visit_eq. unfold dedup_visit.
    destruct (team_of link) as [t|] eqn:Ht; [exfalso|reflexivity].
    apply team_of_shape in Ht as (h & slug & ds & tl & Hh & Hs & _).
    exact (H h slug ds tl Hh Hs).
  - intros allLinks t Ht. unfold scrapeTeams_of in Ht.
    apply elem_of_take in Ht as (i & Ht & _). apply list_elem_of_lookup_2 in Ht.
    rewrite scrapeTeams_extract_first_seen in Ht.
    eapply elem_of_sublist in Ht; [|apply first_seen_from_sublist].
    apply list_elem_of_omap in Ht as (link & Hl & Hc).
    apply team_of_shape in Hc as (h & slug & ds & tl & Hh & Hs & Hid & Hsl).
    exists link, h, slug, ds, tl. auto.
Qed.

Lemma resolver_on_team_hrefs_witness :
  (extractId (js "/fc-arsenal/startseite/verein/11/saison_id/2024") verein = js "11" /\
   extractSlug (js "/fc-arsenal/startseite/verein/11/saison_id/2024") = js "fc-arsenal") /\
  extractId (js "/verein/x") verein = js "unknown".
Proof.
  split.
  - apply (proj1 resolver_on_team_hrefs _ (js "fc-arsenal") (js "11") (js "/saison_id/2024")).
    unfold team_href_shape.
    split; [reflexivity|]. split; [discriminate|].
    split; [apply (bool_decide_unpack _); vm_compute; exact I|].
    split; [discriminate|].
    split; [repeat constructor|reflexivity].
  - apply (proj1 (proj2 resolver_on_team_hrefs)).
    intros (a & d & tl & Hd & E). vm_compute in E.
    do 9 (destruct a as [|? a]; simpl in E;
           [discriminate E || (inversion E; subst; vm_compute in Hd; discriminate Hd)|];
           injection E as _ E).
    destruct a; discriminate E.
Defined.

Lemma dedup_keeps_first_seen {E : Type} (key : E -> jsstring) cand visit allLinks :
  (forall st link, visit st link = dedup_visit key cand st link) ->
  keeps_first_seen key cand allLinks (foldl visit ([], ∅) allLinks).1.
Proof.
  intros Hv. rewrite (foldl_ext_visit _ (dedup_visit key cand)) by exact Hv.
  rewrite (foldl_dedup _ _ _ _ _ []).
  2:{ intros k. split; intros H; [apply elem_of_empty in H; contradiction|inversion H]. }
  simpl. fold (first_seen key (omap cand allLinks)).
  split; [apply first_seen_from_NoDup|]. split; [reflexivity|].
  intros pre a post ea -> Ha Hpre.
  assert (Hin : ea ∈ first_seen key (omap cand (pre ++ a :: post))).
  { eapply (first_occurrence_kept _ _ (omap cand pre) ea (omap cand post)).
    - rewrite omap_app. simpl. rewrite Ha. reflexivity.
    - intros H. apply list_elem_of_fmap in H as (eb & Hk & Hb).
      apply list_elem_of_omap in Hb as (b & Hb & Hc).
      apply (Hpre b eb Hb Hc). congruence. }
  split; [exact Hin|].
  intros e He Hk. eapply keyed_unique; eauto. apply first_seen_from_NoDup.
Qed.

Lemma scrapeTeamPlayers_visit_eq team st link :
  Basic.scrapeTeamPlayers_visit team st link
  = dedup_visit Basic.Player.id (player_of team) st link.
Proof.
  destruct st as [players seenIds].
  unfold Basic.scrapeTeamPlayers_visit, dedup_visit, player_of, player_accepts.
  destruct (href link) as [h|]; [|reflexivity].
  generalize (test no_flags playerHref h) (test no_flags numericOnly (cleanText (Some (textContent link))))
             (length (cleanText (Some (textContent link))) <? 2)
             (truthy (cleanText (Some (textContent link)))) (truthy h).
  intros [] [] [] [] []; reflexivity.
Qed.

Lemma scrapeTeamPlayerList_visit_eq st link :
  Full.scrapeTeamPlayerList_visit st link
  = dedup_visit Full.BasicInfo.id basicInfo_of st link.
Proof.
  destruct st as [players seenIds].
  unfold Full.scrapeTeamPlayerList_visit, dedup_visit, basicInfo_of, player_accepts.
  destruct (href link) as [h|]; [|reflexivity].
  generalize (test no_flags playerHref h) (test no_flags numericOnly (cleanText (Some (textContent link))))
             (length (cleanText (Some (textContent link))) <? 2)
             (truthy (cleanText (Some (textContent link)))) (truthy h).
  intros [] [] [] [] []; reflexivity.
Qed.

(** ** C3: 25 anchors with 20 distinct ids *)

Lemma team_of_accepted link :
  accepted_team_anchor link = true ->
  exists t, team_of link = Some t /\ Team.id t = href_id link.
Proof.
  unfold accepted_team_anchor, matches_team_href, team_name_ok, team_of, href_id.
  destruct (href link) as [h|]; [|discriminate].
  change (default [] (Some h)) with h. cbv beta iota zeta.
  intros H. apply andb_true_iff in H as [Ht H]. apply andb_true_iff in H as [Hlen Hnum].
  assert (Hh : truthy h = true).
  { destruct (teamHref_shape h Ht) as (slug & ds & tl & -> & _). reflexivity. }
  assert (Hn : truthy (cleanText (Some (textContent link))) = true).
  { destruct (cleanText _); [discriminate Hlen|reflexivity]. }
  assert (Hl : (length (cleanText (Some (textContent link))) <? 3) = false).
  { apply Nat.ltb_ge. apply Nat.leb_le in Hlen. exact Hlen. }
  rewrite Hh, Hn, Ht, Hl, Hnum. cbn [andb orb negb]. eexists. split; reflexivity.
Qed.

Lemma team_of_rejected link : accepted_team_anchor link = false -> team_of link = None.
Proof.
  unfold accepted_team_anchor, matches_team_href, team_name_ok, team_of.
  destruct (href link) as [h|]; [|reflexivity]. cbv beta iota zeta.
  generalize (truthy h) (truthy (cleanText (Some (textContent link)))).
  destruct (test no_flags teamHref h), (test no_flags numericOnly _);
    cbn [andb orb negb]; intros b1 b2 H;
    rewrite ?andb_false_r, ?andb_true_r in *; try reflexivity; try discriminate.
  apply Nat.leb_gt in H. apply Nat.ltb_lt in H. rewrite H, orb_true_r.
  cbn [negb]. rewrite andb_false_r. reflexivity.
Qed.

Lemma accepted_ids allLinks :
  Team.id <$> omap team_of allLinks = href_id <$> List.filter accepted_team_anchor allLinks.
Proof.
  induction allLinks as [|link l IH]; [reflexivity|].
  change (omap team_of (link :: l))
    with (match team_of link with Some t => t :: omap team_of l | None => omap team_of l end).
  change (List.filter accepted_team_anchor (link :: l))
    with (if accepted_team_anchor link then link :: List.filter accepted_team_anchor l
          else List.filter accepted_team_anchor l).
  destruct (accepted_team_anchor link) eqn:Ha.
  - destruct (team_of_accepted link Ha) as (t & -> & Hid).
    rewrite !fmap_cons, Hid, IH. reflexivity.
  - rewrite (team_of_rejected link Ha). exact IH.
Qed.

(** C3, as the specification states it, fails: a page may hold 25 anchors
    that pass the team pattern, with 20 distinct ids, and yield fewer than 20
    teams, because an anchor without an acceptable name is skipped. *)
Lemma scrapeTeams_crest_page :
  ~ (forall allLinks,
       length (List.filter matches_team_href allLinks) = 25 ->
       size (list_to_set (href_id <$> List.filter matches_team_href allLinks) : gset jsstring) = 20 ->
       length (scrapeTeams_of allLinks) = 20).
Proof.
  intros H. specialize (H crest_page).
  assert (E1 : length (List.filter matches_team_href crest_page) = 25)
    by (vm_compute; reflexivity).
  assert (E2 : size (list_to_set (href_id <$> List.filter matches_team_href crest_page)
                      : gset jsstring) = 20)
    by (vm_compute; reflexivity).
  assert (E3 : length (scrapeTeams_of crest_page) = 19) by (vm_compute; reflexivity).
  specialize (H E1 E2). congruence.
Qed.

(** C3 (amended): when the anchors that team discovery accepts (the href
    passes the team pattern and the cleaned text has at least three code
    units, not all digits) number 25 and carry 20 distinct ids, team discovery
    returns exactly 20 teams: the first occurrence of each id, in document
    order, none of them cut by the truncation to 20. *)
Theorem scrapeTeams_25_anchors_20_ids allLinks :
  length (List.filter accepted_team_anchor allLinks) = 25 ->
  size (list_to_set (href_id <$> List.filter accepted_team_anchor allLinks) : gset jsstring) = 20 ->
  length (scrapeTeams_of allLinks) = 20 /\
  scrapeTeams_of allLinks = first_seen Team.id (omap team_of allLinks).
Proof.
  intros _ Hids. rewrite <- accepted_ids, <- first_seen_length in Hids.
  unfold scrapeTeams_of. rewrite scrapeTeams_extract_first_seen.
  rewrite take_ge by lia. auto.
Qed.

Lemma scrapeTeams_25_anchors_20_ids_witness :
  length (scrapeTeams_of league_page) = 20 /\
  scrapeTeams_of league_page = first_seen Team.id (omap team_of league_page).
Proof.
  apply scrapeTeams_25_anchors_20_ids; vm_compute; reflexivity.
Defined.

(** ** Field extraction *)

Lemma matches_before_none fl r pre : forall p s,
  matches_before fl r p pre s = false ->
  forall a b, pre = a ++ b -> b <> [] -> match_here fl r (before a p) (b ++ s) = None.
Proof.
  induction pre as [|c pre IH]; intros p s H a b E Hb.
  - destruct a, b; try discriminate E. congruence.
  - simpl in H. destruct (match_here fl r p (c :: pre ++ s)) eqn:Hm; [discriminate|].
    destruct a as [|d a]; simpl in E.
    + subst b. exact Hm.
    + injection E as <- E. rewrite <- (IH _ _ H a b E Hb). f_equal.
      unfold before. destruct a as [|e a]; [reflexivity|].
      change (last (c :: e :: a)) with (last (e :: a)).
      destruct (last (e :: a)) eqn:E'; [reflexivity|].
      apply last_None in E'. discriminate.
Qed.

(** The search returns the match at the first position where the pattern
    matches. *)
Lemma exec_first_match fl r pre s y :
  matches_before fl r None pre s = false ->
  match_here fl r (before pre None) s = Some y ->
  exec fl r (pre ++ s) = Some (MatchResult (length pre) (caps y)).
Proof.
  intros Hb Hm. unfold exec.
  rewrite exec_from_skip by (apply matches_before_none, Hb).
  apply exec_from_here, Hm.
Qed.

(** ** C9: market value *)

Lemma marketValue_scan_cons el tl :
  marketValue_scan (el :: tl) =
  if truthy (cleanText (Some el)) && JS.includes euro (cleanText (Some el)) then
    match exec flag_i mvPattern (cleanText (Some el)) with
    | Some m => group m 1
    | None => None
    end
  else marketValue_scan tl.
Proof. reflexivity. Qed.

(** C9: market value extraction on an element whose text is
    "€75.00m market value" yields "€75.00m", without the trailing text; the
    scan stops at this element, the first one whose text has a euro sign:
    the elements after it are not looked at. *)
Theorem marketValue_first_euro_element (d : Document) (pre rest : list jsstring) :
  mvElements d = pre ++ js "€75.00m market value" :: rest ->
  (forall el, el ∈ pre -> JS.includes euro (cleanText (Some el)) = false) ->
  marketValue (scrapePlayerProfile_extract d) = Some (js "€75.00m") /\
  marketValue (scrapePlayer_extract d) = Some (js "€75.00m").
Proof.
  intros E Hpre.
  assert (H : marketValue_scan (mvElements d) = Some (js "€75.00m")).
  { rewrite E. clear E. induction pre as [|el pre IH].
    - simpl app. rewrite marketValue_scan_cons.
      vm_compute. reflexivity.
    - simpl app. rewrite marketValue_scan_cons.
      rewrite (Hpre el) by left. rewrite andb_false_r.
      apply IH. intros el' Hel. apply Hpre. right. exact Hel. }
  split; exact H.
Qed.

Lemma marketValue_first_euro_element_witness :
  marketValue (scrapePlayerProfile_extract
                 (page [js "Market value"; js "€75.00m market value"; js "€1.00k"] [])) =
    Some (js "€75.00m") /\
  marketValue (scrapePlayer_extract
                 (page [js "Market value"; js "€75.00m market value"; js "€1.00k"] [])) =
    Some (js "€75.00m").
Proof.
  apply (marketValue_first_euro_element _ [js "Market value"] [js "€1.00k"]).
  - reflexivity.
  - intros el Hel. apply list_elem_of_singleton in Hel. subst el. vm_compute. reflexivity.
Defined.

(** ** C7: date of birth and age *)

Lemma dob_match_here p post :
  match_here no_flags dobAgePattern p (dob_fragment ++ post) =
  Some (MState (Some 41%N) 34 post
               [Some dob_fragment; Some (js "15/08/1998"); Some (js "27")]).
Proof. vm_compute. reflexivity. Qed.

(** C7, as the specification states it, fails: a body text may contain the
    fragment and yield another date and age, because the rule takes its
    leftmost match. *)
Lemma dob_age_later_fragment :
  ~ (forall (d : Document) (pre post : jsstring),
       bodyText d = pre ++ dob_fragment ++ post ->
       dateOfBirth (scrapePlayerProfile_extract d) = Some (js "15/08/1998") /\
       age (scrapePlayerProfile_extract d) = Some (JS.Num 27)).
Proof.
  intros H.
  destruct (H (page [] (js "Date of birth/Age: 01/01/2000 (25) " ++ dob_fragment))
              (js "Date of birth/Age: 01/01/2000 (25) ") [])
    as [H1 _].
  - vm_compute. reflexivity.
  - vm_compute in H1. discriminate H1.
Qed.

(** C7 (amended): for every body text that contains the fragment
    "Date of birth/Age: 15/08/1998 (27)" and in which the date-of-birth-and-age
    rule matches at no position before the fragment, field extraction (in the
    full-profile scraper and in the test script) yields [dateOfBirth]
    "15/08/1998" and [age] 27. *)
Theorem dob_age_of_fragment (d : Document) (pre post : jsstring) :
  bodyText d = pre ++ dob_fragment ++ post ->
  matches_before no_flags dobAgePattern None pre (dob_fragment ++ post) = false ->
  (dateOfBirth (scrapePlayerProfile_extract d) = Some (js "15/08/1998") /\
   age (scrapePlayerProfile_extract d) = Some (JS.Num 27)) /\
  (dateOfBirth (scrapePlayer_extract d) = Some (js "15/08/1998") /\
   age (scrapePlayer_extract d) = Some (JS.Num 27)).
Proof.
  intros E Hb.
  assert (H : dob_scan dobPatterns (bodyText d) = (Some (js "15/08/1998"), Some (JS.Num 27))).
  { rewrite E.
    change (dob_scan dobPatterns ?t)
      with (match exec no_flags dobAgePattern t with
            | Some m =>
              (group m 1,
               match group m 2 with
               | Some g => if truthy g then Some (JS.parseInt g) else None
               | None => None
               end)
            | None => dob_scan [dobOnlyPattern] t
            end).
    rewrite (exec_first_match _ _ _ _ _ Hb (dob_match_here _ _)).
    vm_compute. reflexivity. }
  unfold scrapePlayerProfile_extract, scrapePlayer_extract, extract_with.
  cbn [dateOfBirth age]. rewrite H. auto.
Qed.

Lemma dob_age_of_fragment_witness :
  (dateOfBirth (scrapePlayerProfile_extract
     (page [] (js "Born  Date of birth/Age: 15/08/1998 (27)  Place of birth: Stockholm")))
     = Some (js "15/08/1998") /\
   age (scrapePlayerProfile_extract
     (page [] (js "Born  Date of birth/Age: 15/08/1998 (27)  Place of birth: Stockholm")))
     = Some (JS.Num 27)) /\
  (dateOfBirth (scrapePlayer_extract
     (page [] (js "Born  Date of birth/Age: 15/08/1998 (27)  Place of birth: Stockholm")))
     = Some (js "15/08/1998") /\
   age (scrapePlayer_extract
     (page [] (js "Born  Date of birth/Age: 15/08/1998 (27)  Place of birth: Stockholm")))
     = Some (JS.Num 27)).
Proof.
  apply (dob_age_of_fragment _ (js "Born  ") (js "  Place of birth: Stockholm")).
  - vm_compute. reflexivity.
  - vm_compute. reflexivity.
Defined.

(** ** C10: citizenship is null or a non-empty list *)

Lemma filter_short (l : list jsstring) :
  Forall (fun c => length c <= 1) l -> filter (fun c => 1 < length c) l = [].
Proof.
  induction 1 as [|c l Hc _ IH]; [reflexivity|].
  rewrite filter_cons_False by lia. exact IH.
Qed.

Lemma filter_long (l : list jsstring) :
  Exists (fun c => 1 < length c) l -> filter (fun c => 1 < length c) l <> [].
Proof.
  intros H Hnil. apply Exists_exists in H as (c & Hin & Hc).
  exact (filter_nil_not_elem_of _ _ _ Hnil Hc Hin).
Qed.

Lemma filter_all_long (l : list jsstring) :
  Forall (fun c => 1 < length c) (filter (fun c => 1 < length c) l).
Proof.
  apply Forall_forall. intros c Hc. apply list_elem_of_filter in Hc as [Hc _]. exact Hc.
Qed.

Lemma citizenship_of_extract (d : Document) :
  (exec flag_m citizenPattern (bodyText d) = None ->
   citizenship (scrapePlayerProfile_extract d) = None) /\
  (forall m,
     exec flag_m citizenPattern (bodyText d) = Some m ->
     Forall (fun c => length c <= 1) (citizenship_tokens (default [] (group m 1))) ->
     citizenship (scrapePlayerProfile_extract d) = None) /\
  (forall m,
     exec flag_m citizenPattern (bodyText d) = Some m ->
     Exists (fun c => 1 < length c) (citizenship_tokens (default [] (group m 1))) ->
     exists l,
       citizenship (scrapePlayerProfile_extract d) = Some l /\
       l <> [] /\ Forall (fun c => 1 < length c) l /\
       l = filter (fun c => 1 < length c) (citizenship_tokens (default [] (group m 1)))) /\
  citizenship (scrapePlayerProfile_extract d) <> Some [].
Proof.
  unfold scrapePlayerProfile_extract, extract_with. cbn [citizenship].
  unfold citizenship_of.
  split; [|split; [|split]].
  - intros ->. reflexivity.
  - intros m -> H. rewrite filter_short by exact H. reflexivity.
  - intros m -> H. apply filter_long in H.
    destruct (filter _ _) as [|c l] eqn:E; [congruence|].
    exists (c :: l). split; [reflexivity|]. split; [discriminate|].
    split; [rewrite <- E; apply filter_all_long|reflexivity].
  - destruct (exec _ _ _); [|discriminate].
    destruct (filter _ _); [discriminate|]. intros [=].
Qed.

(** C10: in the full-profile scraper the citizenship field of the assembled
    player record is null when the citizenship rule matches nothing in the body
    text of the profile page, and when it matches but every token of the split
    has at most one code unit; otherwise it is the list of the tokens longer
    than one code unit, which is not empty.  It is never an empty list. *)
Theorem citizenship_null_or_tokens (w : World) basicInfo team tr player tr' :
  Full.scrapePlayerProfile w basicInfo team tr = (Returned player, tr') ->
  exists doc,
    scrape_page w tr (Full.BasicInfo.url basicInfo) = Some doc /\
    (exec flag_m citizenPattern (bodyText doc) = None ->
     citizenship (Full.Player.data player) = None) /\
    (forall m,
       exec flag_m citizenPattern (bodyText doc) = Some m ->
       Forall (fun c => length c <= 1) (citizenship_tokens (default [] (group m 1))) ->
       citizenship (Full.Player.data player) = None) /\
    (forall m,
       exec flag_m citizenPattern (bodyText doc) = Some m ->
       Exists (fun c => 1 < length c) (citizenship_tokens (default [] (group m 1))) ->
       exists l,
         citizenship (Full.Player.data player) = Some l /\
         l <> [] /\ Forall (fun c => 1 < length c) l /\
         l = filter (fun c => 1 < length c) (citizenship_tokens (default [] (group m 1)))) /\
    citizenship (Full.Player.data player) <> Some [].
Proof.
  unfold Full.scrapePlayerProfile, mbind, io_bind, bind, scrape.
  destruct (scrape_page w tr (Full.BasicInfo.url basicInfo)) as [doc|]; [|discriminate].
  intros [= <- _]. exists doc. split; [reflexivity|].
  cbn [Full.Player.data]. apply citizenship_of_extract.
Qed.

Lemma citizenship_null_or_tokens_witness :
  match Full.scrapePlayerProfile
          (static_world (page [] (js "Citizenship:  Sweden  Hungary  Height: 1,87 m")))
          (Full.BasicInfo.Make (js "1") (js "P") (js "https://www.transfermarkt.com/p/profil/spieler/1"))
          arsenal [] with
  | (Returned player, _) => citizenship (Full.Player.data player) = Some [js "Sweden"]
  | (Thrown, _) => False
  end.
Proof.
  destruct (Full.scrapePlayerProfile _ _ _ _) as [[player|] tr'] eqn:E.
  - destruct (citizenship_null_or_tokens _ _ _ _ _ _ E) as (doc & Hdoc & _ & _ & H & _).
    injection Hdoc as <-.
    edestruct H as (l & Hl & _ & _ & Heq).
    + vm_compute. reflexivity.
    + vm_compute. left. vm_compute. lia.
    + rewrite Hl, Heq. vm_compute. reflexivity.
  - vm_compute in E. discriminate E.
Defined.

(** ** Symbolic runs of the matcher *)

Lemma mstate_eta y : y = MState (prev y) (pos y) (rest y) (caps y).
Proof. destruct y; reflexivity. Qed.

Lemma consume_moved ds tl x : consume ds tl x = moved ds tl x.
Proof.
  rewrite (mstate_eta (consume ds tl x)).
  rewrite consume_prev, consume_pos, consume_rest, consume_caps. reflexivity.
Qed.

Lemma set_cap_moved i ds tl x :
  rest x = ds ++ tl -> set_cap i x (moved ds tl x) = with_cap i ds (moved ds tl x).
Proof.
  intros E. unfold set_cap, with_cap, moved. simpl. rewrite E.
  replace (pos x + length ds - pos x) with (length ds) by lia.
  rewrite take_app_length. reflexivity.
Qed.

Lemma lit_match_same fl s : forall tl x k,
  rest x = s ++ tl -> lit_match fl s x k = k (consume s tl x).
Proof.
  induction s as [|a s IH]; intros tl x k E; simpl.
  - simpl in E. subst tl. destruct x; reflexivity.
  - simpl in E. rewrite E, N.eqb_refl. apply IH. reflexivity.
Qed.

Section Runs.

Variables (fl : flags) (k : cont) (z : mstate).

Lemma run_seq r1 r2 x :
  rmatch fl r1 x (fun y => rmatch fl r2 y k) = Some z -> rmatch fl (Seq r1 r2) x k = Some z.
Proof. intros H. exact H. Qed.

Lemma run_lit s tl x :
  rest x = s ++ tl -> k (moved s tl x) = Some z -> rmatch fl (Lit s) x k = Some z.
Proof.
  intros E H. rewrite rmatch_lit, (lit_match_same _ _ tl) by exact E.
  rewrite consume_moved. exact H.
Qed.

Variables (inv : bool) (rs : list (N * N)).

Lemma run_greedy mn ds tl x :
  rest x = ds ++ tl -> Forall (accepts fl inv rs) ds -> stops fl inv rs tl ->
  mn <= length ds ->
  k (moved ds tl x) = Some z ->
  rmatch fl (Rep (Cls inv rs) mn None true) x k = Some z.
Proof.
  intros E Hd Hs Hmn H. rewrite rmatch_rep_cls.
  apply (repeat_cls_greedy fl inv rs ds) with (tl := tl); auto.
  - rewrite E, length_app. lia.
  - rewrite consume_moved. exact H.
Qed.

(** A lazy quantifier over a class stops at the shortest run after which the
    rest of the pattern matches. *)
Lemma repeat_cls_lazy ds : forall fuel mn x k' tl,
  rest x = ds ++ tl -> Forall (accepts fl inv rs) ds ->
  mn <= length ds -> length ds < fuel ->
  (forall n, mn <= n -> n < length ds ->
     k' (consume (take n ds) (drop n ds ++ tl) x) = None) ->
  k' (consume ds tl x) = Some z ->
  repeat_match (cls_match fl inv rs) [] false fuel mn None x k' = Some z.
Proof.
  induction ds as [|c ds IH]; intros fuel mn x k' tl E Hd Hmn Hf Hshort Hk.
  - destruct fuel as [|f]; [simpl in Hf; lia|].
    simpl in E, Hmn. subst tl. assert (mn = 0) as -> by lia.
    rewrite repeat_match_unbounded. cbv zeta. change (0 =? 0) with true. cbv iota.
    rewrite consume_here in Hk. rewrite Hk. reflexivity.
  - destruct fuel as [|f]; [simpl in Hf; lia|].
    apply Forall_cons in Hd as [Hc Hd]. simpl in Hk, Hmn, Hf.
    assert (Hnext : repeat_match (cls_match fl inv rs) [] false f (pred mn) None
                      (advance x c (ds ++ tl)) k' = Some z).
    { apply IH with (tl := tl); auto; try lia.
      intros n Hn1 Hn2. specialize (Hshort (S n)). simpl in Hshort.
      rewrite (app_assoc (take n ds)), take_drop in Hshort. apply Hshort; lia. }
    assert (Hd' : (if (mn =? 0) && (pos (advance x c (ds ++ tl)) =? pos x) then None
                   else repeat_match (cls_match fl inv rs) [] false f (pred mn) None
                          (advance x c (ds ++ tl)) k') = Some z).
    { replace (pos (advance x c (ds ++ tl)) =? pos x) with false
        by (symmetry; apply Nat.eqb_neq; simpl; lia).
      rewrite andb_false_r. exact Hnext. }
    rewrite repeat_match_unbounded. cbv zeta. rewrite clear_no_caps.
    rewrite (cls_match_accept fl inv rs x _ c (ds ++ tl)) by auto.
    rewrite Hd'. destruct (mn =? 0) eqn:Hz; [|reflexivity].
    apply Nat.eqb_eq in Hz. subst mn.
    specialize (Hshort 0 ltac:(lia) ltac:(simpl; lia)).
    change (k' (consume [] ((c :: ds) ++ tl) x) = None) in Hshort.
    rewrite <- E, consume_here in Hshort. rewrite Hshort. reflexivity.
Qed.

Lemma run_grp_greedy i mn ds tl x :
  rest x = ds ++ tl -> Forall (accepts fl inv rs) ds -> stops fl inv rs tl ->
  mn <= length ds ->
  k (with_cap i ds (moved ds tl x)) = Some z ->
  rmatch fl (Grp i (Rep (Cls inv rs) mn None true)) x k = Some z.
Proof.
  intros E Hd Hs Hmn H. rewrite rmatch_grp, rmatch_rep_cls.
  apply (repeat_cls_greedy fl inv rs ds) with (tl := tl); auto.
  - rewrite E, length_app. lia.
  - rewrite consume_moved, set_cap_moved by exact E. exact H.
Qed.

Lemma run_grp_lazy i mn ds tl x :
  rest x = ds ++ tl -> Forall (accepts fl inv rs) ds ->
  mn <= length ds ->
  (forall n, mn <= n -> n < length ds ->
     k (with_cap i (take n ds) (moved (take n ds) (drop n ds ++ tl) x)) = None) ->
  k (with_cap i ds (moved ds tl x)) = Some z ->
  rmatch fl (Grp i (Rep (Cls inv rs) mn None false)) x k = Some z.
Proof.
  intros E Hd Hmn Hshort H. rewrite rmatch_grp, rmatch_rep_cls.
  apply (repeat_cls_lazy ds) with (tl := tl); auto.
  - rewrite E, length_app. lia.
  - intros n Hn1 Hn2. rewrite consume_moved, set_cap_moved.
    + apply Hshort; assumption.
    + rewrite E, <- (take_drop n ds) at 1. rewrite <- app_assoc. reflexivity.
  - rewrite consume_moved, set_cap_moved by exact E. exact H.
Qed.

End Runs.

(** A class accepts its own members under any flags. *)
Lemma in_ranges_class_has fl rs c : JS.in_ranges rs c = true -> class_has fl rs c = true.
Proof.
  unfold class_has. destruct (ignoreCase fl); [|auto].
  unfold JS.in_ranges. rewrite !existsb_exists.
  intros (r & Hr & Hc). exists r. split; [exact Hr|].
  apply existsb_exists. exists c. split; [|apply N.eqb_refl].
  unfold JS.in_range in Hc. apply andb_true_iff in Hc as [H1 H2].
  apply N.leb_le in H1, H2.
  unfold range_members. apply in_map_iff. exists (N.to_nat (c - fst r)). split; [lia|].
  apply in_seq. lia.
Qed.

Lemma white_accepts_ci ws :
  Forall is_white ws -> Forall (accepts flag_im false JS.white_ranges) ws.
Proof.
  intros Hw. eapply Forall_impl; [exact Hw|]. intros c H. unfold accepts.
  rewrite (in_ranges_class_has flag_im _ c H). reflexivity.
Qed.

(** Case folding maps no other code unit onto a digit. *)
Lemma upper_low c : (upper c < 65)%N -> upper c = c.
Proof.
  unfold upper.
  destruct (N.leb_spec 97 c), (N.leb_spec c 122); simpl; try lia;
    destruct (N.eqb_spec c 181); try lia;
    destruct (N.leb_spec 224 c), (N.leb_spec c 254), (N.eqb_spec c 247); simpl; try lia;
    destruct (N.eqb_spec c 255); lia.
Qed.

Lemma digit_accepts_ci c : accepts flag_im false [(48, 57)%N] c -> is_digit c.
Proof.
  intros H. unfold accepts, class_has in H.
  change (ignoreCase flag_im) with true in H. cbv iota in H. rewrite xorb_false_l in H.
  apply existsb_exists in H as (r & Hr & H).
  destruct Hr as [<-|[]].
  apply existsb_exists in H as (a & Ha & H). apply N.eqb_eq in H.
  assert (Hlow : (48 <= a <= 57)%N).
  { unfold range_members in Ha. apply in_map_iff in Ha as (n & <- & Hn).
    apply in_seq in Hn. simpl in *. lia. }
  assert (Hu : upper a = a) by (apply upper_low; unfold upper;
    destruct (N.leb_spec 97 a), (N.leb_spec a 122); simpl; try lia;
    destruct (N.eqb_spec a 181); try lia;
    destruct (N.leb_spec 224 a), (N.leb_spec a 254), (N.eqb_spec a 247); simpl; try lia;
    destruct (N.eqb_spec a 255); lia).
  rewrite Hu in H. assert (Hc : upper c = c) by (apply upper_low; lia).
  unfold is_digit, JS.is_digit. rewrite Hc in H. subst a.
  apply andb_true_iff. split; apply N.leb_le; lia.
Qed.

Lemma no_digit_stops_ci tl : no_digit_ahead tl -> stops flag_im false [(48, 57)%N] tl.
Proof.
  destruct tl as [|c tl]; simpl; auto.
  intros H Ha. apply digit_accepts_ci in Ha. unfold is_digit in Ha. congruence.
Qed.

Lemma accepts_all fl inv rs ds :
  forallb (fun c => xorb inv (class_has fl rs c)) ds = true -> Forall (accepts fl inv rs) ds.
Proof.
  intros H. apply Forall_forall. intros c Hc.
  rewrite forallb_forall in H. apply H. apply list_elem_of_In, Hc.
Qed.

Ltac accept_all := apply accepts_all; vm_compute; reflexivity.

Ltac stop_here := vm_compute; intros H; discriminate H.

(** ** C8: international team, caps and goals *)

Lemma intlPattern_eq :
  intlPattern =
  Seq (Lit (js "Current international:"))
 (Seq (Rep (Cls false JS.white_ranges) 0 None true)
 (Seq (Grp 1 (Rep (Cls false (latin ++ JS.white_ranges)) 1 None false))
 (Seq (Rep (Cls false JS.white_ranges) 0 None true)
 (Seq (Lit (js "Caps/Goals:"))
 (Seq (Rep (Cls false JS.white_ranges) 0 None true)
 (Seq (Grp 2 (Rep (Cls false [(48, 57)%N]) 1 None true))
 (Seq (Rep (Cls false JS.white_ranges) 0 None true)
 (Seq (Lit (js "/"))
 (Seq (Rep (Cls false JS.white_ranges) 0 None true)
      (Grp 3 (Rep (Cls false [(48, 57)%N]) 1 None true))))))))))).
Proof. reflexivity. Qed.

Lemma intl_fragment_chunks ws post :
  intl_fragment ws ++ post =
  js "Current international:" ++ js " " ++ js "Sweden" ++ ws ++ js "Caps/Goals:"
    ++ js " " ++ js "30" ++ js " " ++ js "/" ++ js " " ++ js "15" ++ post.
Proof. unfold intl_fragment. rewrite <- !app_assoc. reflexivity. Qed.

Lemma intl_match_here p ws post :
  Forall is_white ws -> no_digit_ahead post ->
  exists y, match_here flag_im intlPattern p (intl_fragment ws ++ post) = Some y /\
            group (MatchResult 0 (caps y)) 1 = Some (js "Sweden") /\
            group (MatchResult 0 (caps y)) 2 = Some (js "30") /\
            group (MatchResult 0 (caps y)) 3 = Some (js "15").
Proof.
  intros Hws Hpost. rewrite intl_fragment_chunks. unfold match_here.
  set (x0 := start intlPattern p _).
  eassert (Hz : rmatch flag_im intlPattern x0 Some = Some _).
  { rewrite intlPattern_eq. subst x0. unfold start.
    apply run_seq. eapply run_lit; [reflexivity|]. cbv beta.
    apply run_seq. eapply run_greedy with (ds := js " ");
      [reflexivity|accept_all|stop_here|vm_compute; lia|]. cbv beta.
    apply run_seq. eapply run_grp_lazy with (ds := js "Sweden");
      [reflexivity|accept_all|vm_compute; lia| |].
    { intros n H1 H2. change (length (js "Sweden")) with 6 in H2.
      destruct n as [|[|[|[|[|[|n]]]]]]; try lia; vm_compute; reflexivity. }
    cbv beta.
    apply run_seq. eapply run_greedy with (ds := ws);
      [reflexivity|exact (white_accepts_ci ws Hws)|stop_here|lia|]. cbv beta.
    apply run_seq. eapply run_lit; [reflexivity|]. cbv beta.
    apply run_seq. eapply run_greedy with (ds := js " ");
      [reflexivity|accept_all|stop_here|vm_compute; lia|]. cbv beta.
    apply run_seq. eapply run_grp_greedy with (ds := js "30");
      [reflexivity|accept_all|stop_here|vm_compute; lia|]. cbv beta.
    apply run_seq. eapply run_greedy with (ds := js " ");
      [reflexivity|accept_all|stop_here|vm_compute; lia|]. cbv beta.
    apply run_seq. eapply run_lit; [reflexivity|]. cbv beta.
    apply run_seq. eapply run_greedy with (ds := js " ");
      [reflexivity|accept_all|stop_here|vm_compute; lia|]. cbv beta.
    eapply run_grp_greedy with (ds := js "15") (tl := post);
      [reflexivity|accept_all|exact (no_digit_stops_ci post Hpost)|vm_compute; lia|].
    reflexivity. }
  rewrite Hz. eexists. split; [reflexivity|].
  repeat split; reflexivity.
Qed.

(** C8, as the specification states it, fails: a body text may contain
    "Caps/Goals: 30 / 15" after "Current international: Sweden" and yield other
    values, here because the goals run on into a further digit. *)
Lemma international_goals_run_on :
  ~ (forall (d : Document) (pre mid post : jsstring),
       bodyText d = pre ++ js "Current international: Sweden" ++ mid
                        ++ js "Caps/Goals: 30 / 15" ++ post ->
       internationalTeam (scrapePlayerProfile_extract d) = Some (js "Sweden") /\
       internationalCaps (scrapePlayerProfile_extract d) = Some (JS.Num 30) /\
       internationalGoals (scrapePlayerProfile_extract d) = Some (JS.Num 15)).
Proof.
  intros H.
  destruct (H (page [] (js "Current international: Sweden Caps/Goals: 30 / 150"))
              [] (js " ") (js "0"))
    as (_ & _ & H3).
  - vm_compute. reflexivity.
  - vm_compute in H3. discriminate H3.
Qed.

(** C8 (amended): for every body text in which "Current international: Sweden"
    is followed, after white space only, by "Caps/Goals: 30 / 15", where no
    digit comes next and the international rule matches at no position before
    the fragment, field extraction yields [internationalTeam] "Sweden",
    [internationalCaps] 30 and [internationalGoals] 15, all three from the one
    match. *)
Theorem international_of_fragment (d : Document) (pre ws post : jsstring) :
  bodyText d = pre ++ intl_fragment ws ++ post ->
  Forall is_white ws ->
  no_digit_ahead post ->
  matches_before flag_im intlPattern None pre (intl_fragment ws ++ post) = false ->
  exists m,
    exec flag_im intlPattern (bodyText d) = Some m /\
    (group m 1 = Some (js "Sweden") /\ group m 2 = Some (js "30") /\
     group m 3 = Some (js "15")) /\
    internationalTeam (scrapePlayerProfile_extract d) = Some (js "Sweden") /\
    internationalCaps (scrapePlayerProfile_extract d) = Some (JS.Num 30) /\
    internationalGoals (scrapePlayerProfile_extract d) = Some (JS.Num 15).
Proof.
  intros E Hws Hpost Hb.
  destruct (intl_match_here (before pre None) ws post Hws Hpost) as (y & Hy & H1 & H2 & H3).
  pose proof (exec_first_match _ _ _ _ _ Hb Hy) as Hm.
  exists (MatchResult (length pre) (caps y)).
  unfold scrapePlayerProfile_extract, extract_with.
  cbn [internationalTeam internationalCaps internationalGoals].
  unfold international_of. rewrite E, Hm. cbn [fst snd].
  unfold group in *. cbn [groups] in *. rewrite H1, H2, H3.
  repeat split; vm_compute; reflexivity.
Qed.

Lemma international_of_fragment_witness :
  internationalTeam (scrapePlayerProfile_extract intl_page) = Some (js "Sweden") /\
  internationalCaps (scrapePlayerProfile_extract intl_page) = Some (JS.Num 30) /\
  internationalGoals (scrapePlayerProfile_extract intl_page) = Some (JS.Num 15).
Proof.
  destruct (international_of_fragment intl_page (js "Foot: left  ") (js "  ")
              (js "  Market value")) as (m & _ & _ & H).
  - vm_compute. reflexivity.
  - repeat constructor.
  - reflexivity.
  - vm_compute. reflexivity.
  - exact H.
Defined.

(** ** C2: asset resolution *)

Lemma replace_str_cons p r c s :
  JS.replace_str p r (c :: s) =
  if JS.starts_with p (c :: s) then r ++ drop (length p) (c :: s)
  else c :: JS.replace_str p r s.
Proof. reflexivity. Qed.

Lemma replace_str_no_dot r (a : jsstring) : forall tl,
  46%N ∉ a ->
  JS.replace_str (js ".jpg") r (a ++ tl) = a ++ JS.replace_str (js ".jpg") r tl.
Proof.
  induction a as [|c a IH]; intros tl H; [reflexivity|].
  simpl app. rewrite replace_str_cons.
  assert (Hc : (46 =? c)%N = false).
  { apply N.eqb_neq. intros <-. apply H. left. }
  change (JS.starts_with (js ".jpg") (c :: a ++ tl))
    with ((46 =? c)%N && JS.starts_with (js "jpg") (a ++ tl)).
  rewrite Hc. cbn [andb]. f_equal. apply IH. intros H'. apply H. right. exact H'.
Qed.

Lemma replace_str_absent p r (a : jsstring) : forall tl,
  absent_in p a tl = true ->
  JS.replace_str p r (a ++ tl) = a ++ JS.replace_str p r tl.
Proof.
  induction a as [|c a IH]; intros tl H; [reflexivity|].
  simpl in H. apply andb_true_iff in H as [H1 H2]. apply negb_true_iff in H1.
  simpl app. rewrite replace_str_cons, H1. f_equal. apply IH, H2.
Qed.

(** For a URL built from the template, the alternate URL has [-1] before
    the extension. *)
Lemma altUrl_of_template (playerId : jsstring) :
  46%N ∉ playerId ->
  altUrl (Basic.constructImageUrl playerId) =
  js "https://img.a.transfermarkt.technology/portrait/header/" ++ playerId ++ js "-1.jpg".
Proof.
  intros H. unfold altUrl, Basic.constructImageUrl.
  rewrite replace_str_absent by (vm_compute; reflexivity).
  rewrite replace_str_no_dot by exact H.
  do 2 f_equal.
Qed.

Lemma saveImage_small w player buffer tr :
  length buffer < 1000 -> Basic.saveImage w player buffer tr = (Returned None, tr).
Proof.
  intros H. unfold Basic.saveImage. apply Nat.ltb_lt in H. rewrite H. reflexivity.
Qed.

(** C2, as the specification states it, fails for the full-profile scraper:
    after a non-success response it makes no second request. *)
Lemma full_download_no_alternate :
  ~ (forall (w : World) (player : Full.Player.t) (u : jsstring) (tr : list event) (r : Response),
       Full.Player.imageUrl player = Some u -> u <> [] ->
       fetch_url w tr u = Some r -> ok r = false ->
       fetches (Full.downloadPlayerImage w player tr).2 = fetches tr ++ [u; altUrl u]).
Proof.
  intros H.
  specialize (H (answering {| ok := false; arrayBuffer := [] |})
                (full_player (js "https://img.a.transfermarkt.technology/portrait/header/1.jpg"))
                (js "https://img.a.transfermarkt.technology/portrait/header/1.jpg") []
                {| ok := false; arrayBuffer := [] |} eq_refl ltac:(discriminate) eq_refl eq_refl).
  vm_compute in H. discriminate H.
Qed.

(** C2 (amended): in the scraper that builds image URLs from player ids,
    when the first fetch returns a non-success response the resolver makes
    exactly one further request, for the URL with [.jpg] replaced by [-1.jpg]
    (for a template URL this puts [-1] before the extension), and returns null
    if that request fails or is answered without success; otherwise it goes
    on to save that answer.  The full-profile scraper makes no further request
    and returns null.  In both scrapers a response body under 1000 bytes gives
    null and nothing is written. *)
Theorem image_download_attempts :
  (forall (w : World) (player : Basic.Player.t) (u : jsstring) (tr : list event) (r1 : Response),
     Basic.Player.imageUrl player = Some u -> u <> [] ->
     fetch_url w tr u = Some r1 -> ok r1 = false ->
     match fetch_url w (tr ++ [Fetch u]) (altUrl u) with
     | Some r2 =>
       if ok r2
       then Basic.downloadPlayerImage w player tr
            = try_catch (Basic.saveImage w player (arrayBuffer r2)) (ret None)
                        (tr ++ [Fetch u; Fetch (altUrl u)])
       else Basic.downloadPlayerImage w player tr
            = (Returned None, tr ++ [Fetch u; Fetch (altUrl u)])
     | None =>
       Basic.downloadPlayerImage w player tr = (Returned None, tr ++ [Fetch u; Fetch (altUrl u)])
     end) /\
  (forall playerId : jsstring,
     46%N ∉ playerId ->
     altUrl (Basic.constructImageUrl playerId) =
     js "https://img.a.transfermarkt.technology/portrait/header/" ++ playerId ++ js "-1.jpg") /\
  (forall (w : World) (player : Basic.Player.t) (buffer : list N) (tr : list event),
     length buffer < 1000 -> Basic.saveImage w player buffer tr = (Returned None, tr)) /\
  (forall (w : World) (player : Basic.Player.t) (u : jsstring) (tr : list event) (r1 : Response),
     Basic.Player.imageUrl player = Some u -> u <> [] ->
     fetch_url w tr u = Some r1 -> ok r1 = true -> length (arrayBuffer r1) < 1000 ->
     Basic.downloadPlayerImage w player tr = (Returned None, tr ++ [Fetch u])) /\
  (forall (w : World) (player : Full.Player.t) (u : jsstring) (tr : list event) (r1 : Response),
     Full.Player.imageUrl player = Some u -> u <> [] ->
     fetch_url w tr u = Some r1 ->
     ok r1 = false \/ length (arrayBuffer r1) < 1000 ->
     Full.downloadPlayerImage w player tr = (Returned None, tr ++ [Fetch u])).
Proof.
  split; [|split; [|split; [|split]]].
  - intros w player u tr r1 Hu Hne Hf Hok.
    unfold Basic.downloadPlayerImage. rewrite Hu.
    destruct u as [|c u]; [congruence|].
    unfold try_catch, mbind, io_bind, bind, fetch. rewrite Hf, Hok. cbn [negb].
    fold (altUrl (c :: u)).
    destruct (fetch_url w (tr ++ [Fetch (c :: u)]) (altUrl (c :: u))) as [r2|];
      rewrite <- ?app_assoc; cbn [app].
    + destruct (ok r2); reflexivity.
    + reflexivity.
  - apply altUrl_of_template.
  - apply saveImage_small.
  - intros w player u tr r1 Hu Hne Hf Hok Hlen.
    unfold Basic.downloadPlayerImage. rewrite Hu.
    destruct u as [|c u]; [congruence|].
    unfold try_catch, mbind, io_bind, bind, fetch. rewrite Hf, Hok. cbn [negb].
    rewrite saveImage_small by exact Hlen. reflexivity.
  - intros w player u tr r1 Hu Hne Hf H.
    unfold Full.downloadPlayerImage. rewrite Hu.
    destruct u as [|c u]; [congruence|].
    unfold try_catch, mbind, io_bind, bind, fetch. rewrite Hf.
    destruct (ok r1); cbn [negb]; [|reflexivity].
    destruct H as [H|H]; [discriminate|].
    apply Nat.ltb_lt in H. rewrite H. reflexivity.
Qed.

Lemma image_download_attempts_witness :
  Basic.downloadPlayerImage (answering {| ok := false; arrayBuffer := [] |})
    (basic_player (Basic.constructImageUrl (js "1"))) []
  = (Returned None,
     [Fetch (js "https://img.a.transfermarkt.technology/portrait/header/1.jpg");
      Fetch (js "https://img.a.transfermarkt.technology/portrait/header/1-1.jpg")]) /\
  Basic.saveImage (answering {| ok := false; arrayBuffer := [] |})
    (basic_player (Basic.constructImageUrl (js "1"))) (replicate 999 0%N) []
  = (Returned None, []).
Proof.
  destruct image_download_attempts as (H1 & H2 & H3 & _).
  split.
  - specialize (H1 (answering {| ok := false; arrayBuffer := [] |})
                   (basic_player (Basic.constructImageUrl (js "1")))
                   (Basic.constructImageUrl (js "1")) []
                   {| ok := false; arrayBuffer := [] |}
                   eq_refl ltac:(discriminate) eq_refl eq_refl).
    cbn [fetch_url answering ok] in H1. rewrite H1.
    rewrite H2 by (apply (bool_decide_unpack _); vm_compute; exact I).
    reflexivity.
  - apply H3. vm_compute. lia.
Defined.

(** ** C5: failures in the main loops *)

Lemma total_ret {A} (a : A) : total (ret a).
Proof. intros tr. exists a, tr. reflexivity. Qed.

Lemma total_emit e : total (emit e).
Proof. intros tr. exists tt, (tr ++ [e]). reflexivity. Qed.

Lemma total_bind {A B} (m : IO A) (f : A -> IO B) :
  total m -> (forall a, total (f a)) -> total (m ≫= f).
Proof.
  intros Hm Hf tr. destruct (Hm tr) as (a & tr1 & E). destruct (Hf a tr1) as (b & tr2 & E').
  exists b, tr2. unfold mbind, io_bind, bind. rewrite E. exact E'.
Qed.

(** A [try] whose [catch] block returns always returns. *)
Lemma total_try_catch {A} (m h : IO A) : total h -> total (try_catch m h).
Proof.
  intros Hh tr. unfold try_catch. destruct (m tr) as [[a|] tr1].
  - exists a, tr1. reflexivity.
  - apply Hh.
Qed.

Lemma total_for_each {A S} (l : list A) (body : A -> S -> IO S) :
  (forall a s, total (body a s)) -> forall s, total (for_each l body s).
Proof.
  intros Hb. induction l as [|a l IH]; intros s; simpl.
  - apply total_ret.
  - apply total_bind; [apply Hb|apply IH].
Qed.

Lemma basic_download_total w player : total (Basic.downloadPlayerImage w player).
Proof.
  unfold Basic.downloadPlayerImage.
  destruct (Basic.Player.imageUrl player) as [[|c u]|];
    try apply total_ret. apply total_try_catch, total_ret.
Qed.

Lemma bind_emit {B} e (f : unit -> IO B) tr : (emit e ≫= f) tr = f tt (tr ++ [e]).
Proof. reflexivity. Qed.

Lemma bind_mkdir {B} w p (f : unit -> IO B) tr :
  (mkdir w p ≫= f) tr = if mkdir_ok w tr p then f tt (tr ++ [Mkdir p]) else (Thrown, tr).
Proof.
  unfold mbind, io_bind, bind, mkdir. destruct (mkdir_ok w tr p); reflexivity.
Qed.

Lemma bind_writeFile {B} w p (f : unit -> IO B) tr :
  (writeFile w p ≫= f) tr
  = if writeFile_ok w tr p then f tt (tr ++ [WriteFile p]) else (Thrown, tr).
Proof.
  unfold mbind, io_bind, bind, writeFile. destruct (writeFile_ok w tr p); reflexivity.
Qed.

Lemma total_writeFile w p : (forall tr, writeFile_ok w tr p = true) -> total (writeFile w p).
Proof. intros H tr. exists tt, (tr ++ [WriteFile p]). unfold writeFile. rewrite H. reflexivity. Qed.

Lemma bind_run {A B} (m : IO A) (f : A -> IO B) tr :
  (m ≫= f) tr =
  match m tr with
  | (Returned a, tr') => f a tr'
  | (Thrown, tr') => (Thrown, tr')
  end.
Proof. reflexivity. Qed.

Lemma scrapeTeams_run w tr :
  scrapeTeams w tr =
  match scrape_page w tr PREMIER_LEAGUE_URL with
  | Some doc => (Returned (scrapeTeams_of (allLinks doc)), tr ++ [Scrape PREMIER_LEAGUE_URL])
  | None => (Thrown, tr ++ [Scrape PREMIER_LEAGUE_URL])
  end.
Proof.
  unfold scrapeTeams. rewrite bind_run. unfold scrape.
  destruct (scrape_page w tr PREMIER_LEAGUE_URL); reflexivity.
Qed.

(** In the scraper that builds image URLs, a run whose own file-system
    calls succeed returns whenever the listing page can be fetched: failures
    of squad pages are caught in the loop over the teams, and a download
    never throws. *)
Lemma basic_main_returns w doc :
  dirs_made w ->
  scrape_page w [Mkdir IMAGES_DIR; Mkdir DATA_DIR] PREMIER_LEAGUE_URL = Some doc ->
  data_files_writable w ->
  exists players tr, Basic.main w [] = (Returned players, tr).
Proof.
  intros [Hd1 Hd2] Hdoc Hw. unfold Basic.main.
  rewrite bind_mkdir, Hd1. cbn [app]. rewrite bind_mkdir, Hd2. cbn [app].
  rewrite bind_run, scrapeTeams_run, Hdoc.
  match goal with |- exists players tr, ?m ?t = _ => assert (H : total m) end.
  { apply total_bind.
    - apply total_for_each. intros team allPlayers.
      apply total_try_catch, total_bind; [apply total_emit|intros; apply total_ret].
    - intros allPlayers. apply total_bind.
      + apply total_for_each. intros player done.
        apply total_bind; [apply basic_download_total|]. intros localPath.
        apply total_bind; [apply total_emit|intros; apply total_ret].
      + intros allPlayers'. apply total_bind; [apply total_writeFile; intros; apply Hw|].
        intros _. apply total_bind; [|intros; apply total_ret].
        apply total_for_each. intros [teamSlug ps] []. apply total_writeFile.
        intros; apply Hw. }
  apply H.
Qed.

Lemma basic_main_listing_fatal w :
  dirs_made w ->
  scrape_page w [Mkdir IMAGES_DIR; Mkdir DATA_DIR] PREMIER_LEAGUE_URL = None ->
  Basic.main w [] = (Thrown, [Mkdir IMAGES_DIR; Mkdir DATA_DIR; Scrape PREMIER_LEAGUE_URL]).
Proof.
  intros [Hd1 Hd2] Hdoc. unfold Basic.main.
  rewrite bind_mkdir, Hd1. cbn [app]. rewrite bind_mkdir, Hd2. cbn [app].
  rewrite bind_run, scrapeTeams_run, Hdoc. reflexivity.
Qed.

Lemma total_for_each_in {A S} (l : list A) (body : A -> S -> IO S) :
  (forall a, a ∈ l -> forall s, total (body a s)) -> forall s, total (for_each l body s).
Proof.
  induction l as [|a l IH]; intros Hb s; simpl.
  - apply total_ret.
  - apply total_bind; [apply Hb; left|].
    intros s'. apply IH. intros a' Ha'. apply Hb. right. exact Ha'.
Qed.

(** A loop whose body throws for one of the elements throws. *)
Lemma for_each_throws {A S} (l : list A) (body : A -> S -> IO S) a :
  a ∈ l -> (forall s tr, exists tr', body a s tr = (Thrown, tr')) ->
  forall s tr, exists tr', for_each l body s tr = (Thrown, tr').
Proof.
  intros Hin Ha. induction l as [|b l IH]; intros s tr; [inversion Hin|].
  simpl. rewrite bind_run. destruct (body b s tr) as [[s'|] tr1] eqn:E.
  - apply elem_of_cons in Hin as [->|Hin].
    + destruct (Ha s tr) as (tr' & E'). congruence.
    + apply IH, Hin.
  - eexists. reflexivity.
Qed.

Lemma full_download_total w player : total (Full.downloadPlayerImage w player).
Proof.
  unfold Full.downloadPlayerImage.
  destruct (Full.Player.imageUrl player) as [[|c u]|];
    try apply total_ret. apply total_try_catch, total_ret.
Qed.

(** In the full-profile scraper the failure of one squad page ends the run:
    the loop over the teams has no [try]. *)
Lemma full_main_squad_fatal w doc team :
  dirs_made w ->
  scrape_page w [Mkdir IMAGES_DIR; Mkdir DATA_DIR] PREMIER_LEAGUE_URL = Some doc ->
  team ∈ scrapeTeams_of (allLinks doc) ->
  (forall tr, scrape_page w tr (squadUrl team) = None) ->
  exists tr, Full.main w [] = (Thrown, tr).
Proof.
  intros [Hd1 Hd2] Hdoc Hteam Hsquad. unfold Full.main.
  rewrite bind_mkdir, Hd1. cbn [app]. rewrite bind_mkdir, Hd2. cbn [app].
  rewrite bind_run, scrapeTeams_run, Hdoc.
  rewrite bind_run.
  match goal with |- context [for_each ?l ?b ?s0 ?t] =>
    assert (H : exists tr', for_each l b s0 t = (Thrown, tr'))
  end.
  { apply (for_each_throws _ _ team Hteam).
    intros acc tr. rewrite bind_run. unfold Full.scrapeTeamPlayerList, scrape.
    fold (squadUrl team). rewrite Hsquad. eexists. reflexivity. }
  destruct H as (tr' & ->). eexists. reflexivity.
Qed.

(** When its own file-system calls succeed and the listing page and every
    squad page can be fetched, the full-profile scraper returns: failures of
    profile pages are caught in the loop over the players, and a download
    never throws. *)
Lemma full_main_returns w doc :
  dirs_made w ->
  scrape_page w [Mkdir IMAGES_DIR; Mkdir DATA_DIR] PREMIER_LEAGUE_URL = Some doc ->
  (forall team tr, team ∈ scrapeTeams_of (allLinks doc) ->
                   exists d, scrape_page w tr (squadUrl team) = Some d) ->
  data_files_writable w ->
  exists players tr, Full.main w [] = (Returned players, tr).
Proof.
  intros [Hd1 Hd2] Hdoc Hsquad Hw. unfold Full.main.
  rewrite bind_mkdir, Hd1. cbn [app]. rewrite bind_mkdir, Hd2. cbn [app].
  rewrite bind_run, scrapeTeams_run, Hdoc.
  match goal with |- exists players tr, ?m ?t = _ => assert (H : total m) end.
  { apply total_bind.
    - apply total_for_each_in. intros team Hteam acc.
      apply total_bind.
      + intros tr. unfold Full.scrapeTeamPlayerList, scrape. fold (squadUrl team).
        destruct (Hsquad team tr Hteam) as (d & ->). eexists _, _. reflexivity.
      + intros players. apply total_bind; [apply total_emit|intros; apply total_ret].
    - intros infos. apply total_bind.
      + apply total_for_each. intros [team players] allPlayers.
        apply total_for_each. intros basicInfo allPlayers'.
        apply total_bind.
        * apply total_try_catch, total_bind; [apply total_emit|intros; apply total_ret].
        * intros allPlayers''. apply total_bind; [apply total_emit|intros; apply total_ret].
      + intros allPlayers. apply total_bind.
        * apply total_for_each. intros player done.
          apply total_bind; [apply full_download_total|]. intros localPath.
          apply total_bind; [apply total_emit|intros; apply total_ret].
        * intros allPlayers'. apply total_bind; [apply total_writeFile; intros; apply Hw|].
          intros _. apply total_bind; [|intros; apply total_ret].
          apply total_for_each. intros [teamSlug ps] []. apply total_writeFile.
          intros; apply Hw. }
  apply H.
Qed.

(** C5: a listing page with Arsenal and Chelsea, where the request for
    Arsenal's squad page fails.  The full-profile scraper throws at that
    request and never asks for Chelsea's squad page, whereas the run should
    log the failure and go on; the scraper that builds image URLs does so: it
    logs the failure, goes on to Chelsea and returns its player. *)
Theorem squad_failure_aborts_full_run :
  Full.main arsenal_down [] =
    (Thrown, [Mkdir IMAGES_DIR; Mkdir DATA_DIR; Scrape PREMIER_LEAGUE_URL;
              Scrape arsenal_squad_url]) /\
  (Basic.main arsenal_down []).2 =
    [Mkdir IMAGES_DIR; Mkdir DATA_DIR; Scrape PREMIER_LEAGUE_URL;
     Scrape arsenal_squad_url; ConsoleError (js "Arsenal FC");
     Scrape chelsea_squad_url; Wait 500;
     Fetch (js "https://img.a.transfermarkt.technology/portrait/header/472423.jpg");
     Wait 100; WriteFile (join DATA_DIR (js "premier-league.json"));
     WriteFile (join DATA_DIR (js "fc-chelsea.json"))].
Proof. split; vm_compute; reflexivity. Qed.

(** ** C4: identifiers are unique within a discovery pass *)

(** The anchors that a discovery pass accepts: the href passes the pattern
    and the cleaned text passes the name guards. *)
Lemma team_of_is_Some link : is_Some (team_of link) <-> accepted_team_anchor link = true.
Proof.
  split.
  - intros [t Ht]. destruct (accepted_team_anchor link) eqn:E; [reflexivity|].
    rewrite (team_of_rejected link E) in Ht. discriminate Ht.
  - intros H. destruct (team_of_accepted link H) as (t & -> & _). eexists. reflexivity.
Qed.

Lemma player_accepts_is_Some link :
  is_Some (player_accepts link) <-> accepted_player_anchor link = true.
Proof.
  unfold player_accepts, accepted_player_anchor, matches_player_href, player_name_ok.
  destruct (href link) as [h|]; [|split; [intros [x Hx]; discriminate Hx|discriminate]].
  cbv zeta. set (name := cleanText (Some (textContent link))).
  assert (Hh : test no_flags playerHref h = true -> truthy h = true).
  { destruct h; [vm_compute; discriminate|reflexivity]. }
  assert (Hn : (2 <=? length name) = true -> truthy name = true).
  { destruct name; [discriminate|reflexivity]. }
  rewrite (Nat.ltb_antisym 2 (length name)).
  destruct (test no_flags playerHref h).
  2:{ rewrite andb_false_r. cbn [andb].
      split; [intros [x Hx]; discriminate Hx|discriminate]. }
  rewrite (Hh eq_refl). cbn [andb].
  destruct (2 <=? length name).
  2:{ cbn [negb]. rewrite orb_true_r. cbn [negb andb]. rewrite andb_false_r. cbn [andb].
      split; [intros [x Hx]; discriminate Hx|discriminate]. }
  rewrite (Hn eq_refl). cbn [andb orb negb].
  destruct (test no_flags numericOnly name); cbn [negb].
  - split; [intros [x Hx]; discriminate Hx|discriminate].
  - split; [reflexivity|]. intros _. eexists. reflexivity.
Qed.

Lemma player_of_is_Some team link :
  is_Some (player_of team link) <-> accepted_player_anchor link = true.
Proof.
  rewrite <- player_accepts_is_Some. unfold player_of.
  destruct (player_accepts link) as [[[i n] h]|].
  - split; intros _; eexists; reflexivity.
  - split; intros [x Hx]; discriminate Hx.
Qed.

Lemma basicInfo_of_is_Some link :
  is_Some (basicInfo_of link) <-> accepted_player_anchor link = true.
Proof.
  rewrite <- player_accepts_is_Some. unfold basicInfo_of.
  destruct (player_accepts link) as [[[i n] h]|].
  - split; intros _; eexists; reflexivity.
  - split; intros [x Hx]; discriminate Hx.
Qed.

(** Cutting the list of first occurrences to its first [n] entries. *)
Lemma take_keeps_first_seen {E : Type} n (key : E -> jsstring) cand allLinks out :
  keeps_first_seen key cand allLinks out ->
  keeps_first_seen_upto n key cand allLinks (take n out).
Proof.
  intros (Hnd & Hout & H). split; [|split].
  - rewrite fmap_take. eapply sublist_NoDup; [exact Hnd|apply sublist_take].
  - rewrite Hout. reflexivity.
  - intros pre a post ea Hl Ha Hpre.
    destruct (H pre a post ea Hl Ha Hpre) as [Hin Huniq]. split.
    + intros Hlen. rewrite Hout, Hl. unfold first_seen.
      rewrite omap_app.
      change (omap cand (a :: post))
        with (match cand a with Some t => t :: omap cand post | None => omap cand post end).
      rewrite Ha. rewrite first_seen_from_app.
      cbn [first_seen_from app]. rewrite bool_decide_eq_false_2.
      * apply elem_of_take. eexists. split; [apply list_lookup_middle; reflexivity|exact Hlen].
      * intros Hk. apply list_elem_of_fmap in Hk as (eb & Hk & Hb).
        apply list_elem_of_omap in Hb as (b & Hb & Hc).
        apply (Hpre b eb Hb Hc). congruence.
    + intros e He. apply Huniq.
      apply elem_of_take in He as (i & He & _). eapply list_elem_of_lookup_2, He.
Qed.

Lemma scrape_returned {T} w url (extract : Document -> T) tr x tr' :
  scrape w url extract tr = (Returned x, tr') ->
  exists doc, scrape_page w tr url = Some doc /\ x = extract doc.
Proof.
  unfold scrape. destruct (scrape_page w tr url) as [doc|]; [|discriminate].
  intros H. inversion H. exists doc. auto.
Qed.

(** C4, as the specification states it, fails: of two anchors that match the
    href pattern and carry one id, the first is not the one retained when its
    text does not pass the name guards, which come before the id is recorded
    as seen.  On a listing page that links Chelsea first from a number and
    then from its name, the team returned is the one of the second anchor; on
    a squad page that links a player first from the shirt number, the player
    returned is the one of the second anchor. *)
Lemma first_matching_anchor_not_retained :
  ~ (forall (w : World) (tr : list event) (teams : list Team.t) (tr' : list event)
            (doc : Document) (pre : list Anchor) (a : Anchor) (post : list Anchor) (t : Team.t),
       scrapeTeams w tr = (Returned teams, tr') ->
       scrape_page w tr PREMIER_LEAGUE_URL = Some doc ->
       allLinks doc = pre ++ a :: post ->
       matches_team_href a = true ->
       (forall b, b ∈ pre -> matches_team_href b = true -> href_id b <> href_id a) ->
       t ∈ teams -> Team.id t = href_id a ->
       Team.name t = cleanText (Some (textContent a))) /\
  ~ (forall (w : World) (team : Team.t) (tr : list event) (players : list Full.BasicInfo.t)
            (tr' : list event) (doc : Document) (pre : list Anchor) (a : Anchor)
            (post : list Anchor) (p : Full.BasicInfo.t),
       Full.scrapeTeamPlayerList w team tr = (Returned players, tr') ->
       scrape_page w tr (squadUrl team) = Some doc ->
       allLinks doc = pre ++ a :: post ->
       matches_player_href a = true ->
       (forall b, b ∈ pre -> matches_player_href b = true -> player_href_id b <> player_href_id a) ->
       p ∈ players -> Full.BasicInfo.id p = player_href_id a ->
       Full.BasicInfo.name p = cleanText (Some (textContent a))).
Proof.
  split; intros H.
  - specialize (H (static_world numbered_listing) []
                  [Team.Make (js "Chelsea")
                     (js "https://www.transfermarkt.com/fc-chelsea/startseite/verein/631")
                     (js "fc-chelsea") (js "631")]
                  [Scrape PREMIER_LEAGUE_URL] numbered_listing []
                  (anchor "/fc-chelsea/startseite/verein/631" "24") [chelsea_row]
                  (Team.Make (js "Chelsea")
                     (js "https://www.transfermarkt.com/fc-chelsea/startseite/verein/631")
                     (js "fc-chelsea") (js "631"))).
    assert (E : Team.name (Team.Make (js "Chelsea")
                   (js "https://www.transfermarkt.com/fc-chelsea/startseite/verein/631")
                   (js "fc-chelsea") (js "631"))
                = cleanText (Some (textContent (anchor "/fc-chelsea/startseite/verein/631" "24")))).
    { apply H.
      - vm_compute. reflexivity.
      - reflexivity.
      - reflexivity.
      - vm_compute. reflexivity.
      - intros b Hb. inversion Hb.
      - left.
      - vm_compute. reflexivity. }
    vm_compute in E. discriminate E.
  - specialize (H (static_world numbered_squad) arsenal []
                  [Full.BasicInfo.Make (js "472423") (js "Reece James")
                     (js "https://www.transfermarkt.com/reece-james/profil/spieler/472423")]
                  [Scrape arsenal_squad_url] numbered_squad []
                  (anchor "/reece-james/profil/spieler/472423" "24")
                  [anchor "/reece-james/profil/spieler/472423" "Reece James"]
                  (Full.BasicInfo.Make (js "472423") (js "Reece James")
                     (js "https://www.transfermarkt.com/reece-james/profil/spieler/472423"))).
    assert (E : Full.BasicInfo.name
                  (Full.BasicInfo.Make (js "472423") (js "Reece James")
                     (js "https://www.transfermarkt.com/reece-james/profil/spieler/472423"))
                = cleanText (Some (textContent (anchor "/reece-james/profil/spieler/472423" "24")))).
    { apply H.
      - vm_compute. reflexivity.
      - reflexivity.
      - reflexivity.
      - vm_compute. reflexivity.
      - intros b Hb. inversion Hb.
      - left.
      - vm_compute. reflexivity. }
    vm_compute in E. discriminate E.
Qed.

(** C4 (amended): a discovery pass accepts an anchor when its href passes
    the pattern of the pass and its cleaned text passes the name guards (at
    least three code units for a team, two for a player, and not digits
    only).  The list that [scrapeTeams] returns, and the lists that
    [scrapeTeamPlayers] and [scrapeTeamPlayerList] return, have pairwise
    distinct ids and hold the first occurrences of the accepted anchors in
    document order ([scrapeTeams]: the first 20 of them); when several
    accepted anchors carry one id, whatever their names, no entry other than
    that of the first of them has that id, and that entry is in the list
    ([scrapeTeams]: when fewer than 20 entries come before it). *)
Theorem discovery_keeps_first_seen :
  ((forall link, is_Some (team_of link) <-> accepted_team_anchor link = true) /\
   (forall team link, is_Some (player_of team link) <-> accepted_player_anchor link = true) /\
   (forall link, is_Some (basicInfo_of link) <-> accepted_player_anchor link = true)) /\
  (forall (w : World) (tr : list event) (teams : list Team.t) (tr' : list event),
     scrapeTeams w tr = (Returned teams, tr') ->
     exists doc,
       scrape_page w tr PREMIER_LEAGUE_URL = Some doc /\
       keeps_first_seen_upto 20 Team.id team_of (allLinks doc) teams) /\
  (forall (w : World) (team : Team.t) (tr : list event) (players : list Basic.Player.t)
          (tr' : list event),
     Basic.scrapeTeamPlayers w team tr = (Returned players, tr') ->
     exists doc,
       scrape_page w tr (squadUrl team) = Some doc /\
       keeps_first_seen Basic.Player.id (player_of team) (allLinks doc) players) /\
  (forall (w : World) (team : Team.t) (tr : list event) (players : list Full.BasicInfo.t)
          (tr' : list event),
     Full.scrapeTeamPlayerList w team tr = (Returned players, tr') ->
     exists doc,
       scrape_page w tr (squadUrl team) = Some doc /\
       keeps_first_seen Full.BasicInfo.id basicInfo_of (allLinks doc) players).
Proof.
  split; [|split; [|split]].
  - split; [apply team_of_is_Some|]. split; [apply player_of_is_Some|apply basicInfo_of_is_Some].
  - intros w tr teams tr'. rewrite scrapeTeams_run.
    destruct (scrape_page w tr PREMIER_LEAGUE_URL) as [doc|]; [|discriminate].
    intros H. inversion H; subst teams tr'. exists doc. split; [reflexivity|].
    apply take_keeps_first_seen, dedup_keeps_first_seen, scrapeTeams_visit_eq.
  - intros w team tr players tr' H. apply scrape_returned in H as (doc & Hdoc & ->).
    exists doc. split; [exact Hdoc|].
    apply dedup_keeps_first_seen, scrapeTeamPlayers_visit_eq.
  - intros w team tr players tr' H. apply scrape_returned in H as (doc & Hdoc & ->).
    exists doc. split; [exact Hdoc|].
    apply dedup_keeps_first_seen, scrapeTeamPlayerList_visit_eq.
Qed.

Lemma discovery_keeps_first_seen_witness :
  match scrapeTeams (static_world renamed_listing) [] with
  | (Returned teams, _) => arsenal ∈ teams
  | (Thrown, _) => False
  end.
Proof.
  destruct (scrapeTeams (static_world renamed_listing) []) as [[teams|] tr'] eqn:E;
    [|vm_compute in E; discriminate E].
  destruct (proj1 (proj2 discovery_keeps_first_seen) _ _ _ _ E) as (doc & Hdoc & _ & _ & H).
  injection Hdoc as <-.
  apply (H [chelsea_row] arsenal_row [arsenal_thumb] arsenal).
  - reflexivity.
  - vm_compute. reflexivity.
  - intros b eb Hb. apply list_elem_of_singleton in Hb. subst b.
    vm_compute. intros [= <-]. discriminate.
  - vm_compute. lia.
Defined.

(** ** Runs: what a download leaves behind *)

Lemma writes_app tr ev : writes (tr ++ ev) = writes tr ++ writes ev.
Proof. unfold writes. apply omap_app. Qed.

Lemma bind_returned {A B} (m : IO A) (f : A -> IO B) tr b tr' :
  (m ≫= f) tr = (Returned b, tr') ->
  exists a tr1, m tr = (Returned a, tr1) /\ f a tr1 = (Returned b, tr').
Proof.
  rewrite bind_run. destruct (m tr) as [[a|] tr1]; [|discriminate].
  intros H. exists a, tr1. auto.
Qed.

Lemma extends_ret {A} (a : A) : extends (ret a).
Proof. intros tr o tr' H. inversion H; subst. exists []. symmetry. apply app_nil_r. Qed.

Lemma extends_emit e : extends (emit e).
Proof. intros tr o tr' H. inversion H; subst. exists [e]. reflexivity. Qed.

Lemma extends_bind {A B} (m : IO A) (f : A -> IO B) :
  extends m -> (forall a, extends (f a)) -> extends (m ≫= f).
Proof.
  intros Hm Hf tr o tr'. rewrite bind_run. destruct (m tr) as [[a|] tr1] eqn:E; intros H.
  - destruct (Hm _ _ _ E) as (ev1 & ->). destruct (Hf _ _ _ _ H) as (ev2 & ->).
    exists (ev1 ++ ev2). symmetry. apply app_assoc.
  - inversion H; subst. eapply Hm, E.
Qed.

Lemma extends_try_catch {A} (m h : IO A) : extends m -> extends h -> extends (try_catch m h).
Proof.
  intros Hm Hh tr o tr'. unfold try_catch. destruct (m tr) as [[a|] tr1] eqn:E; intros H.
  - inversion H; subst. eapply Hm, E.
  - destruct (Hm _ _ _ E) as (ev1 & ->). destruct (Hh _ _ _ H) as (ev2 & ->).
    exists (ev1 ++ ev2). symmetry. apply app_assoc.
Qed.

Lemma extends_for_each {A S} (l : list A) (body : A -> S -> IO S) :
  (forall a s, extends (body a s)) -> forall s, extends (for_each l body s).
Proof.
  intros Hb. induction l as [|a l IH]; intros s; simpl.
  - apply extends_ret.
  - apply extends_bind; [apply Hb|apply IH].
Qed.

Lemma extends_scrape {T} w url (extract : Document -> T) : extends (scrape w url extract).
Proof.
  intros tr o tr'. unfold scrape. destruct (scrape_page w tr url); intros H;
    inversion H; subst; eexists; reflexivity.
Qed.

Lemma extends_fetch w url : extends (fetch w url).
Proof.
  intros tr o tr'. unfold fetch. destruct (fetch_url w tr url); intros H;
    inversion H; subst; eexists; reflexivity.
Qed.

Lemma fetch_run w u tr :
  fetch w u tr = match fetch_url w tr u with
                 | Some r => (Returned r, tr ++ [Fetch u])
                 | None => (Thrown, tr ++ [Fetch u])
                 end.
Proof. reflexivity. Qed.

(** [saveImage] either declines a short body, leaving no event, or makes the
    team directory and writes the file; it throws when one of the two calls
    fails. *)
Lemma saveImage_run w player buffer tr :
  Basic.saveImage w player buffer tr =
  if length buffer <? 1000 then (Returned None, tr)
  else if mkdir_ok w tr (join IMAGES_DIR (Basic.Player.teamSlug player)) then
    if writeFile_ok w (tr ++ [Mkdir (join IMAGES_DIR (Basic.Player.teamSlug player))])
                    (image_file (Basic.Player.teamSlug player) (Basic.Player.id player))
    then (Returned (Some (image_path (Basic.Player.teamSlug player) (Basic.Player.id player))),
          tr ++ [Mkdir (join IMAGES_DIR (Basic.Player.teamSlug player));
                 WriteFile (image_file (Basic.Player.teamSlug player) (Basic.Player.id player))])
    else (Thrown, tr ++ [Mkdir (join IMAGES_DIR (Basic.Player.teamSlug player))])
  else (Thrown, tr).
Proof.
  unfold Basic.saveImage. destruct (length buffer <? 1000); [reflexivity|].
  rewrite bind_mkdir. destruct (mkdir_ok w tr _); [|reflexivity].
  rewrite bind_writeFile. unfold image_file.
  destruct (writeFile_ok w _ _); [|reflexivity].
  rewrite <- app_assoc. unfold ret, image_path. reflexivity.
Qed.

Lemma writes_mkdir tr d : writes (tr ++ [Mkdir d]) = writes tr.
Proof. rewrite writes_app. apply app_nil_r. Qed.

Lemma writes_fetch tr u : writes (tr ++ [Fetch u]) = writes tr.
Proof. rewrite writes_app. apply app_nil_r. Qed.

Lemma writes_saved tr d f : writes (tr ++ [Mkdir d; WriteFile f]) = writes tr ++ [f].
Proof. rewrite writes_app. reflexivity. Qed.

Lemma basic_download_outcome w player tr :
  exists o tr', Basic.downloadPlayerImage w player tr = (Returned o, tr') /\
    (exists ev, tr' = tr ++ ev) /\
    match o with
    | None => writes tr' = writes tr
    | Some p =>
      p = image_path (Basic.Player.teamSlug player) (Basic.Player.id player) /\
      writes tr' = writes tr
                     ++ [image_file (Basic.Player.teamSlug player) (Basic.Player.id player)] /\
      exists u t r, fetch_url w t u = Some r /\ carries_image r /\ Fetch u ∈ tr'
    end.
Proof.
  unfold Basic.downloadPlayerImage.
  destruct (Basic.Player.imageUrl player) as [[|c u]|].
  1, 3: exists None, tr; split; [reflexivity|]; split; [exists []; symmetry; apply app_nil_r|];
        reflexivity.
  set (url := c :: u). unfold try_catch. rewrite bind_run, fetch_run.
  assert (Hsave : forall t0 r0 u0, fetch_url w t0 u0 = Some r0 -> ok r0 = true ->
    forall t, (exists ev, t = tr ++ ev) -> Fetch u0 ∈ t ->
    exists o tr', match Basic.saveImage w player (arrayBuffer r0) t with
                  | (Returned a, t') => (Returned a, t')
                  | (Thrown, t') => ret None t'
                  end = (Returned o, tr') /\
      (exists ev, tr' = tr ++ ev) /\
      match o with
      | None => writes tr' = writes t
      | Some p =>
        p = image_path (Basic.Player.teamSlug player) (Basic.Player.id player) /\
        writes tr' = writes t
                       ++ [image_file (Basic.Player.teamSlug player) (Basic.Player.id player)] /\
        exists u t r, fetch_url w t u = Some r /\ carries_image r /\ Fetch u ∈ tr'
      end).
  { intros t0 r0 u0 Hr Hok t (ev & ->) Hin. rewrite saveImage_run.
    destruct (length (arrayBuffer r0) <? 1000) eqn:Hlen.
    - exists None, (tr ++ ev). split; [reflexivity|]. split; [exists ev; reflexivity|]. reflexivity.
    - apply Nat.ltb_ge in Hlen. destruct (mkdir_ok w _ _).
      + destruct (writeFile_ok w _ _).
        * eexists (Some _), _. split; [reflexivity|].
          split; [eexists; rewrite <- app_assoc; reflexivity|].
          split; [reflexivity|]. split; [apply writes_saved|].
          exists u0, t0, r0. split; [exact Hr|]. split; [split; assumption|].
          apply elem_of_app. left. exact Hin.
        * eexists None, _. split; [reflexivity|].
          split; [eexists; rewrite <- app_assoc; reflexivity|]. apply writes_mkdir.
      + exists None, (tr ++ ev). split; [reflexivity|]. split; [exists ev; reflexivity|].
        reflexivity. }
  destruct (fetch_url w tr url) as [r1|] eqn:H1.
  - destruct (ok r1) eqn:Hok1; cbn [negb].
    + destruct (Hsave tr r1 url H1 Hok1 (tr ++ [Fetch url])) as (o & tr' & E & Hext & Ho).
      { exists [Fetch url]. reflexivity. }
      { apply elem_of_app. right. left. }
      exists o, tr'. split; [exact E|]. split; [exact Hext|].
      rewrite writes_fetch in Ho. exact Ho.
    + rewrite bind_run, fetch_run.
      destruct (fetch_url w (tr ++ [Fetch url]) _) as [r2|] eqn:H2.
      * destruct (ok r2) eqn:Hok2; cbn [negb].
        -- match type of H2 with fetch_url _ _ ?a = _ => set (alt := a) in * end.
           destruct (Hsave _ r2 alt H2 Hok2 ((tr ++ [Fetch url]) ++ [Fetch alt]))
             as (o & tr' & E & Hext & Ho).
           { exists [Fetch url; Fetch alt]. rewrite <- app_assoc. reflexivity. }
           { apply elem_of_app. right. left. }
           exists o, tr'. split; [exact E|]. split; [exact Hext|].
           rewrite !writes_fetch in Ho. exact Ho.
        -- eexists None, _. split; [reflexivity|].
           split; [eexists; rewrite <- app_assoc; reflexivity|].
           rewrite !writes_fetch. reflexivity.
      * eexists None, _. split; [reflexivity|].
        split; [eexists; rewrite <- app_assoc; reflexivity|].
        rewrite !writes_fetch. reflexivity.
  - eexists None, _. split; [reflexivity|]. split; [eexists; reflexivity|].
    apply writes_fetch.
Qed.

Lemma full_download_outcome w player tr :
  exists o tr', Full.downloadPlayerImage w player tr = (Returned o, tr') /\
    (exists ev, tr' = tr ++ ev) /\
    match o with
    | None => writes tr' = writes tr
    | Some p =>
      p = image_path (Full.Player.teamSlug player) (Full.Player.id player) /\
      writes tr' = writes tr
                     ++ [image_file (Full.Player.teamSlug player) (Full.Player.id player)] /\
      exists u t r, fetch_url w t u = Some r /\ carries_image r /\ Fetch u ∈ tr'
    end.
Proof.
  unfold Full.downloadPlayerImage, image_path, image_file.
  destruct (Full.Player.imageUrl player) as [[|c u]|].
  1, 3: exists None, tr; split; [reflexivity|]; split; [exists []; symmetry; apply app_nil_r|];
        reflexivity.
  set (url := c :: u). unfold try_catch. rewrite bind_run, fetch_run.
  destruct (fetch_url w tr url) as [r1|] eqn:H1.
  - destruct (ok r1) eqn:Hok1; cbn [negb].
    + destruct (length (arrayBuffer r1) <? 1000) eqn:Hlen.
      * eexists None, _. split; [reflexivity|]. split; [eexists; reflexivity|].
        apply writes_fetch.
      * apply Nat.ltb_ge in Hlen. rewrite bind_mkdir.
        destruct (mkdir_ok w _ _).
        -- rewrite bind_writeFile. destruct (writeFile_ok w _ _).
           ++ unfold ret. eexists (Some _), _. split; [reflexivity|].
              split; [eexists; rewrite <- !app_assoc; reflexivity|].
              split; [reflexivity|].
              split; [rewrite <- !app_assoc; cbn [app]; rewrite writes_app; reflexivity|].
              exists url, tr, r1. split; [exact H1|]. split; [split; assumption|].
              apply elem_of_app. left. apply elem_of_app. left. apply elem_of_app. right. left.
           ++ unfold ret. eexists None, _. split; [reflexivity|].
              split; [eexists; rewrite <- !app_assoc; reflexivity|].
              rewrite writes_mkdir. apply writes_fetch.
        -- unfold ret. eexists None, _. split; [reflexivity|].
           split; [eexists; reflexivity|]. apply writes_fetch.
    + eexists None, _. split; [reflexivity|]. split; [eexists; reflexivity|].
      apply writes_fetch.
  - eexists None, _. split; [reflexivity|]. split; [eexists; reflexivity|].
    apply writes_fetch.
Qed.

(** ** Runs: the loops of [main] *)

(** An invariant of a loop, indexed by the elements already visited. *)
Lemma for_each_prefix_inv {A S} (I : list A -> S -> list event -> Prop)
      (l : list A) (body : A -> S -> IO S) :
  (forall pre a post s tr s' tr',
     l = pre ++ a :: post -> I pre s tr -> body a s tr = (Returned s', tr') ->
     I (pre ++ [a]) s' tr') ->
  forall s tr s' tr', I [] s tr -> for_each l body s tr = (Returned s', tr') -> I l s' tr'.
Proof.
  intros Hb.
  assert (G : forall todo pre s tr s' tr',
    l = pre ++ todo -> I pre s tr -> for_each todo body s tr = (Returned s', tr') -> I l s' tr').
  { induction todo as [|a todo IH]; intros pre s tr s' tr' E HI H.
    - inversion H; subst. rewrite app_nil_r. exact HI.
    - simpl in H. apply bind_returned in H as (s1 & tr1 & H1 & H).
      apply (IH (pre ++ [a]) s1 tr1); [rewrite <- app_assoc; exact E| |exact H].
      eapply Hb; eauto. }
  intros s tr s' tr'. apply (G l []). reflexivity.
Qed.

Lemma for_each_inv {A S} (I : S -> list event -> Prop) (l : list A) (body : A -> S -> IO S) :
  (forall a s tr s' tr', a ∈ l -> I s tr -> body a s tr = (Returned s', tr') -> I s' tr') ->
  forall s tr s' tr', I s tr -> for_each l body s tr = (Returned s', tr') -> I s' tr'.
Proof.
  intros Hb. apply (for_each_prefix_inv (fun _ => I)).
  intros pre a post s tr s' tr' E. apply Hb. rewrite E.
  apply elem_of_app. right. left.
Qed.

(** What a discovery pass returns comes from an anchor of the page. *)
Lemma discovered_from_anchor {E : Type} (key : E -> jsstring) cand visit allLinks e :
  (forall st link, visit st link = dedup_visit key cand st link) ->
  e ∈ (foldl visit ([], ∅) allLinks).1 ->
  exists link, link ∈ allLinks /\ cand link = Some e.
Proof.
  intros Hv He.
  destruct (dedup_keeps_first_seen key cand visit allLinks Hv) as (_ & Hout & _).
  rewrite Hout in He. unfold first_seen in He.
  eapply elem_of_sublist in He; [|apply first_seen_from_sublist].
  apply list_elem_of_omap in He as (link & Hin & Hc). exists link. auto.
Qed.

Lemma path_written_later slug id lp tr ev :
  path_written slug id lp tr -> path_written slug id lp (tr ++ ev).
Proof.
  destruct lp as [p|]; [|auto]. intros [-> H]. split; [reflexivity|].
  rewrite writes_app. apply elem_of_app. left. exact H.
Qed.

Lemma answered_later w tr ev url page :
  answered w tr url page -> answered w (tr ++ ev) url page.
Proof.
  intros (t & post & -> & H). exists t, (post ++ ev).
  split; [rewrite <- app_assoc; reflexivity|exact H].
Qed.

Lemma answered_all_later {A B} w tr ev (url : A -> jsstring) (page : B -> option Document)
      (l : list A) (k : list B) :
  Forall2 (fun a b => answered w tr (url a) (page b)) l k ->
  Forall2 (fun a b => answered w (tr ++ ev) (url a) (page b)) l k.
Proof. intros H. eapply Forall2_impl; [exact H|]. intros a b. apply answered_later. Qed.

(** The loop over the teams, in the scraper that builds image URLs: every
    squad page is requested, and the players of the pages obtained are
    gathered team by team. *)
Lemma basic_team_loop w teams : forall tr acc' tr',
  for_each teams (fun team allPlayers =>
    try_catch
      (players ← Basic.scrapeTeamPlayers w team;
       emit (Wait 500);;
       ret (allPlayers ++ players))
      (emit (ConsoleError (Team.name team));; ret allPlayers)) [] tr = (Returned acc', tr') ->
  exists squads,
    Forall2 (fun team squad => answered w tr' (squadUrl team) squad) teams squads /\
    acc' = basic_squads teams squads.
Proof.
  intros tr acc' tr'.
  apply (for_each_prefix_inv (fun pre acc t =>
    exists squads,
      Forall2 (fun team squad => answered w t (squadUrl team) squad) pre squads /\
      acc = basic_squads pre squads)); [|exists []; split; constructor].
  clear tr acc' tr'. intros pre team post acc tr acc' tr' _ (squads & HF & ->).
  unfold try_catch. rewrite bind_run.
  unfold Basic.scrapeTeamPlayers, scrape. fold (squadUrl team).
  destruct (scrape_page w tr (squadUrl team)) as [squad|] eqn:Hsq.
  - rewrite bind_emit. intros H. inversion H; subst acc' tr'. clear H.
    exists (squads ++ [Some squad]). split.
    + apply Forall2_app.
      * rewrite <- app_assoc. apply (answered_all_later w tr _ squadUrl id), HF.
      * constructor; [|constructor]. exists tr, [Wait 500].
        split; [rewrite <- app_assoc; reflexivity|exact Hsq].
    + unfold basic_squads. rewrite zip_with_app by (eapply Forall2_length, HF).
      rewrite concat_app. cbn [zip_with concat]. rewrite app_nil_r. reflexivity.
  - rewrite bind_emit. intros H. inversion H; subst acc' tr'. clear H.
    exists (squads ++ [None]). split.
    + apply Forall2_app.
      * rewrite <- app_assoc. apply (answered_all_later w tr _ squadUrl id), HF.
      * constructor; [|constructor]. exists tr, [ConsoleError (Team.name team)].
        split; [rewrite <- app_assoc; reflexivity|exact Hsq].
    + unfold basic_squads. rewrite zip_with_app by (eapply Forall2_length, HF).
      rewrite concat_app. cbn [zip_with concat]. rewrite !app_nil_r. reflexivity.
Qed.

Lemma player_of_no_path team link p :
  player_of team link = Some p -> Basic.Player.localImagePath p = None.
Proof.
  unfold player_of. destruct (player_accepts link) as [[[i n] h]|]; [|discriminate].
  intros H. inversion H. reflexivity.
Qed.

Lemma basic_squads_no_path teams : forall squads,
  Forall (fun p => Basic.Player.localImagePath p = None) (basic_squads teams squads).
Proof.
  unfold basic_squads.
  induction teams as [|team teams IH]; intros [|squad squads]; try constructor.
  cbn [zip_with concat]. apply Forall_app. split; [|apply IH].
  destruct squad as [d|]; [|constructor].
  apply Forall_forall. intros p Hp.
  apply (discovered_from_anchor Basic.Player.id (player_of team)) in Hp
    as (link & _ & Hc); [|apply scrapeTeamPlayers_visit_eq].
  eapply player_of_no_path, Hc.
Qed.

Lemma basic_download_loop w (l : list Basic.Player.t) :
  Forall (fun p => Basic.Player.localImagePath p = None) l ->
  forall tr done tr',
  for_each l (fun player done =>
    localPath ← Basic.downloadPlayerImage w player;
    emit (Wait 100);;
    ret (done ++ [match localPath with
                  | Some (c :: p) => Basic.set_localImagePath player (c :: p)
                  | _ => player
                  end])) [] tr = (Returned done, tr') ->
  Forall2 basic_path_set l done /\
  (exists ev, tr' = tr ++ ev) /\
  Forall (fun q => path_written (Basic.Player.teamSlug q) (Basic.Player.id q)
                                (Basic.Player.localImagePath q) tr') done.
Proof.
  intros Hl tr done tr'.
  apply (for_each_prefix_inv (fun pre done tr' =>
    Forall2 basic_path_set pre done /\
    (exists ev, tr' = tr ++ ev) /\
    Forall (fun q => path_written (Basic.Player.teamSlug q) (Basic.Player.id q)
                                  (Basic.Player.localImagePath q) tr') done));
    [|split; [constructor|split; [exists []; symmetry; apply app_nil_r|constructor]]].
  clear done tr'. intros pre a post done t done' tr' E (H2 & (ev0 & ->) & Hw).
  assert (Ha : Basic.Player.localImagePath a = None).
  { rewrite Forall_forall in Hl. apply Hl. rewrite E. apply elem_of_app. right. left. }
  rewrite bind_run.
  destruct (basic_download_outcome w a (tr ++ ev0)) as (o & t1 & -> & (ev & ->) & Ho).
  rewrite bind_emit. intros H. inversion H; subst done' tr'. clear H. split; [|split].
  - apply Forall2_app; [exact H2|]. constructor; [|constructor].
    destruct o as [[|c p]|]; [left; reflexivity| |left; reflexivity].
    destruct Ho as (-> & _). right. reflexivity.
  - eexists. rewrite <- !app_assoc. reflexivity.
  - apply Forall_app. split.
    + eapply Forall_impl; [exact Hw|]. intros q Hq. cbv beta in *.
      rewrite <- (app_assoc (tr ++ ev0)). apply path_written_later. exact Hq.
    + constructor; [|constructor]. destruct o as [[|c p]|].
      * rewrite Ha. exact I.
      * destruct Ho as (-> & Hwr & _). split; [destruct a; reflexivity|].
        rewrite writes_app, Hwr. apply elem_of_app. left. apply elem_of_app. right.
        destruct a; left.
      * rewrite Ha. exact I.
Qed.

(** ** Grouping by team slug *)

Section GroupBy.

Context {P : Type} (key : P -> jsstring).

Lemma group_by_snoc ps p :
  group_by key (ps ++ [p]) = map_push (key p) p (group_by key ps).
Proof. unfold group_by. rewrite foldl_app. reflexivity. Qed.

Lemma map_push_fresh k p (m : list (jsstring * list P)) :
  k ∉ m.*1 -> map_push k p m = m ++ [(k, [p])].
Proof.
  induction m as [|[k' g] m IH]; simpl; intros H; [reflexivity|].
  apply not_elem_of_cons in H as [H1 H2].
  rewrite bool_decide_false by congruence. f_equal. apply IH, H2.
Qed.

Lemma map_push_seen k p (m : list (jsstring * list P)) :
  NoDup m.*1 -> k ∈ m.*1 ->
  map_push k p m = (fun e => (e.1, if bool_decide (e.1 = k) then e.2 ++ [p] else e.2)) <$> m.
Proof.
  induction m as [|[k' g] m IH]; simpl; intros Hnd Hin; [inversion Hin|].
  apply NoDup_cons in Hnd as [Hk' Hnd].
  destruct (decide (k' = k)) as [->|Hne].
  - rewrite bool_decide_true by reflexivity. f_equal.
    clear IH Hnd Hin. induction m as [|[k2 g2] m IH]; simpl; [reflexivity|].
    simpl in Hk'. apply not_elem_of_cons in Hk' as [H1 H2].
    rewrite bool_decide_false by congruence. f_equal. apply IH, H2.
  - rewrite bool_decide_false by exact Hne. f_equal. apply IH; [exact Hnd|].
    apply elem_of_cons in Hin as [Hin|Hin]; [congruence|exact Hin].
Qed.

Lemma first_keys_snoc (ks : list jsstring) k :
  first_seen id (ks ++ [k])
  = first_seen id ks ++ (if bool_decide (k ∈ ks) then [] else [k]).
Proof.
  unfold first_seen. rewrite first_seen_from_app. f_equal.
  rewrite list_fmap_id. simpl. destruct (bool_decide (k ∈ ks)); reflexivity.
Qed.

Lemma first_keys_elem (ks : list jsstring) k : k ∈ first_seen id ks <-> k ∈ ks.
Proof.
  split.
  - intros H. eapply elem_of_sublist; [exact H|]. apply first_seen_from_sublist.
  - intros H. destruct (first_seen_from_keys id ks [] k) as [H'|H'].
    + rewrite list_fmap_id. exact H.
    + inversion H'.
    + rewrite list_fmap_id in H'. exact H'.
Qed.

Lemma first_keys_NoDup (ks : list jsstring) : NoDup (first_seen id ks).
Proof.
  pose proof (first_seen_from_NoDup id ks []) as H. rewrite list_fmap_id in H. exact H.
Qed.

Lemma group_of_keys ps (K : list jsstring) : (group_of key ps <$> K).*1 = K.
Proof. rewrite <- list_fmap_compose. apply list_fmap_id. Qed.

(** Grouping gives one group per key, the keys in the order of their first
    appearance, each group holding the elements of its key in their order. *)
Lemma group_by_groups ps :
  group_by key ps = group_of key ps <$> first_seen id (key <$> ps).
Proof.
  induction ps as [|p ps IH] using rev_ind; [reflexivity|].
  rewrite group_by_snoc, IH, fmap_app.
  change (key <$> [p]) with [key p]. rewrite first_keys_snoc.
  destruct (bool_decide (key p ∈ key <$> ps)) eqn:Hin.
  - apply bool_decide_eq_true in Hin. rewrite app_nil_r.
    rewrite map_push_seen.
    + rewrite <- list_fmap_compose. apply list_fmap_ext. intros i k _.
      unfold compose, group_of. cbn [fst snd]. f_equal.
      rewrite filter_app. destruct (decide (k = key p)) as [->|Hne].
      * rewrite bool_decide_true by reflexivity. f_equal.
        rewrite filter_cons_True by reflexivity. reflexivity.
      * rewrite bool_decide_false by exact Hne.
        rewrite filter_cons_False by congruence. rewrite filter_nil, app_nil_r. reflexivity.
    + rewrite group_of_keys. apply first_keys_NoDup.
    + rewrite group_of_keys. apply first_keys_elem, Hin.
  - apply bool_decide_eq_false in Hin.
    rewrite map_push_fresh by (rewrite group_of_keys, first_keys_elem; exact Hin).
    rewrite fmap_app. f_equal.
    + apply list_fmap_ext. intros i k Hk. unfold group_of. f_equal.
      rewrite filter_app, filter_cons_False, filter_nil, app_nil_r; [reflexivity|].
      intros E. apply Hin. rewrite E. apply first_keys_elem.
      eapply list_elem_of_lookup_2, Hk.
    + cbn [fmap list_fmap]. unfold group_of. f_equal. f_equal.
      rewrite filter_app, filter_cons_True by reflexivity. rewrite filter_nil.
      replace (filter (fun q => key q = key p) ps) with (@nil P); [reflexivity|].
      symmetry. clear IH. induction ps as [|q ps IH]; [reflexivity|].
      rewrite fmap_cons in Hin. apply not_elem_of_cons in Hin as [H1 H2].
      rewrite filter_cons_False by congruence. apply IH, H2.
Qed.

End GroupBy.

Lemma for_each_ext {A S} (l : list A) (f g : A -> S -> IO S) s tr :
  (forall a s, f a s = g a s) -> for_each l f s tr = for_each l g s tr.
Proof.
  intros H. revert s tr. induction l as [|a l IH]; intros s tr; simpl; [reflexivity|].
  rewrite !bind_run, H. destruct (g a s tr) as [[s'|] tr1]; [apply IH|reflexivity].
Qed.

Lemma extends_mkdir w p : extends (mkdir w p).
Proof.
  intros tr o tr'. unfold mkdir. destruct (mkdir_ok w tr p); intros H; inversion H; subst.
  - eexists. reflexivity.
  - exists []. symmetry. apply app_nil_r.
Qed.

Lemma extends_writeFile w p : extends (writeFile w p).
Proof.
  intros tr o tr'. unfold writeFile. destruct (writeFile_ok w tr p); intros H; inversion H; subst.
  - eexists. reflexivity.
  - exists []. symmetry. apply app_nil_r.
Qed.

Lemma group_files_extend {P} w (groups : list (jsstring * list P)) :
  extends (for_each groups (fun '(teamSlug, _) (_ : unit) =>
             writeFile w (join DATA_DIR (teamSlug ++ js ".json"))) tt).
Proof. apply extends_for_each. intros [k g] []. apply extends_writeFile. Qed.

Lemma bind_thrown {A B} (m : IO A) (f : A -> IO B) tr tr' :
  (m ≫= f) tr = (Thrown, tr') ->
  m tr = (Thrown, tr') \/ exists a tr1, m tr = (Returned a, tr1) /\ f a tr1 = (Thrown, tr').
Proof.
  rewrite bind_run. destruct (m tr) as [[a|] tr1]; intros H.
  - right. exists a, tr1. auto.
  - left. inversion H; subst. reflexivity.
Qed.

Lemma total_not_thrown {A} (m : IO A) tr tr' : total m -> m tr <> (Thrown, tr').
Proof. intros H E. destruct (H tr) as (a & tr1 & E'). congruence. Qed.

(** The three calls at the start of [main], in both scrapers, and where a
    run ends when one of them fails. *)
Lemma main_start {A} w (todo : list Team.t -> IO A) :
  (mkdir w IMAGES_DIR;; mkdir w DATA_DIR;; teams ← scrapeTeams w; todo teams) [] =
  if mkdir_ok w [] IMAGES_DIR then
    if mkdir_ok w [Mkdir IMAGES_DIR] DATA_DIR then
      match scrape_page w [Mkdir IMAGES_DIR; Mkdir DATA_DIR] PREMIER_LEAGUE_URL with
      | Some doc =>
        todo (scrapeTeams_of (allLinks doc))
             [Mkdir IMAGES_DIR; Mkdir DATA_DIR; Scrape PREMIER_LEAGUE_URL]
      | None => (Thrown, [Mkdir IMAGES_DIR; Mkdir DATA_DIR; Scrape PREMIER_LEAGUE_URL])
      end
    else (Thrown, [Mkdir IMAGES_DIR])
  else (Thrown, []).
Proof.
  rewrite bind_mkdir. destruct (mkdir_ok w [] IMAGES_DIR); [|reflexivity]. cbn [app].
  rewrite bind_mkdir. destruct (mkdir_ok w _ DATA_DIR); [|reflexivity]. cbn [app].
  rewrite bind_run, scrapeTeams_run.
  destruct (scrape_page w _ PREMIER_LEAGUE_URL); reflexivity.
Qed.

(** The loop that writes the per-team files: one file for each team slug
    among the players, in the order of first appearance; it throws when one
    of them cannot be written. *)
Lemma for_each_writeFile {A} w (f : A -> path) (l : list A) : forall tr o tr',
  for_each l (fun a (_ : unit) => writeFile w (f a)) tt tr = (o, tr') ->
  match o with
  | Returned _ => tr' = tr ++ (WriteFile <$> (f <$> l))
  | Thrown => exists a, a ∈ l /\ writeFile_ok w tr' (f a) = false
  end.
Proof.
  induction l as [|a l IH]; intros tr o tr'; simpl.
  - intros H. inversion H; subst. symmetry. apply app_nil_r.
  - rewrite bind_writeFile. destruct (writeFile_ok w tr (f a)) eqn:E.
    + intros H. apply IH in H. destruct o as [[]|].
      * rewrite H, <- app_assoc. reflexivity.
      * destruct H as (b & Hb & Hf). exists b. split; [right; exact Hb|exact Hf].
    + intros H. inversion H; subst. exists a. split; [left|exact E].
Qed.

Lemma team_files_run {P} w (key : P -> jsstring) (ps : list P) tr o tr' :
  for_each (group_by key ps) (fun '(teamSlug, _) (_ : unit) =>
    writeFile w (join DATA_DIR (teamSlug ++ js ".json"))) tt tr = (o, tr') ->
  match o with
  | Returned _ => tr' = tr ++ (WriteFile <$> (team_file <$> first_seen id (key <$> ps)))
  | Thrown => data_write_fails w tr'
  end.
Proof.
  rewrite (for_each_ext _ _ (fun e (_ : unit) => writeFile w (team_file e.1)))
    by (intros [k g] []; reflexivity).
  intros H. apply for_each_writeFile in H. destruct o as [[]|].
  - rewrite H. do 2 f_equal.
    rewrite group_by_groups, <- !list_fmap_compose. reflexivity.
  - destruct H as (e & _ & H). eexists. exact H.
Qed.

(** The end of [main], in both scrapers: the data files are written. *)
Lemma data_files_run {P} w (key : P -> jsstring) (ps : list P) tr o tr' :
  (writeFile w (join DATA_DIR (js "premier-league.json"));;
   for_each (group_by key ps) (fun '(teamSlug, _) (_ : unit) =>
     writeFile w (join DATA_DIR (teamSlug ++ js ".json"))) tt;;
   ret ps) tr = (o, tr') ->
  match o with
  | Returned qs =>
    qs = ps /\
    tr' = tr ++ WriteFile (join DATA_DIR (js "premier-league.json"))
             :: (WriteFile <$> (team_file <$> first_seen id (key <$> ps)))
  | Thrown => data_write_fails w tr'
  end.
Proof.
  rewrite bind_writeFile. destruct (writeFile_ok w tr _) eqn:E.
  - rewrite bind_run.
    destruct (for_each _ _ tt _) as [[[]|] t1] eqn:Hloop;
      apply team_files_run in Hloop; intros H; inversion H; subst.
    + split; [reflexivity|]. rewrite <- app_assoc. reflexivity.
    + exact Hloop.
  - intros H. inversion H; subst. eexists. exact E.
Qed.

(** What a returning run of the scraper that builds image URLs has done. *)
Lemma basic_main_result w players tr :
  Basic.main w [] = (Returned players, tr) ->
  exists doc squads,
    dirs_made w /\
    scrape_page w [Mkdir IMAGES_DIR; Mkdir DATA_DIR] PREMIER_LEAGUE_URL = Some doc /\
    Forall2 (fun team squad => answered w tr (squadUrl team) squad)
            (scrapeTeams_of (allLinks doc)) squads /\
    Forall2 basic_path_set (basic_squads (scrapeTeams_of (allLinks doc)) squads) players /\
    Forall (fun q => path_written (Basic.Player.teamSlug q) (Basic.Player.id q)
                                  (Basic.Player.localImagePath q) tr) players /\
    exists tr0,
      tr = tr0 ++ WriteFile (join DATA_DIR (js "premier-league.json"))
               :: (WriteFile <$> (team_file <$>
                     first_seen id (Basic.Player.teamSlug <$> players))).
Proof.
  unfold Basic.main. rewrite main_start.
  destruct (mkdir_ok w [] IMAGES_DIR) eqn:Hd1; [|discriminate].
  destruct (mkdir_ok w _ DATA_DIR) eqn:Hd2; [|discriminate].
  destruct (scrape_page w _ PREMIER_LEAGUE_URL) as [doc|] eqn:Hdoc; [|discriminate].
  intros H. apply bind_returned in H as (discovered & t1 & Hdisc & H).
  apply bind_returned in H as (done & t2 & Hdl & H).
  apply data_files_run in H as [-> ->].
  apply basic_team_loop in Hdisc as (squads & HF & ->).
  apply basic_download_loop in Hdl as (H2 & (ev2 & ->) & Hw); [|apply basic_squads_no_path].
  exists doc, squads. split; [split; assumption|]. split; [reflexivity|]. split; [|split; [|split]].
  - rewrite <- app_assoc. apply (answered_all_later w t1 _ squadUrl id), HF.
  - exact H2.
  - eapply Forall_impl; [exact Hw|]. intros q Hq. apply path_written_later. exact Hq.
  - eexists. reflexivity.
Qed.

Lemma basic_team_loop_total w teams acc :
  total (for_each teams (fun team allPlayers =>
    try_catch
      (players ← Basic.scrapeTeamPlayers w team;
       emit (Wait 500);;
       ret (allPlayers ++ players))
      (emit (ConsoleError (Team.name team));; ret allPlayers)) acc).
Proof.
  apply total_for_each. intros team allPlayers.
  apply total_try_catch, total_bind; [apply total_emit|intros; apply total_ret].
Qed.

Lemma basic_download_loop_total w (l : list Basic.Player.t) acc :
  total (for_each l (fun player done =>
    localPath ← Basic.downloadPlayerImage w player;
    emit (Wait 100);;
    ret (done ++ [match localPath with
                  | Some (c :: p) => Basic.set_localImagePath player (c :: p)
                  | _ => player
                  end])) acc).
Proof.
  apply total_for_each. intros player done.
  apply total_bind; [apply basic_download_total|]. intros localPath.
  apply total_bind; [apply total_emit|intros; apply total_ret].
Qed.

(** A run of the scraper that builds image URLs throws only at one of the
    calls of [main] itself. *)
Lemma basic_main_thrown w tr :
  Basic.main w [] = (Thrown, tr) -> start_fails w tr \/ data_write_fails w tr.
Proof.
  unfold Basic.main. rewrite main_start.
  destruct (mkdir_ok w [] IMAGES_DIR) eqn:Hd1.
  2:{ intros H. inversion H. left. left. auto. }
  destruct (mkdir_ok w _ DATA_DIR) eqn:Hd2.
  2:{ intros H. inversion H. left. right. left. auto. }
  destruct (scrape_page w _ PREMIER_LEAGUE_URL) as [doc|] eqn:Hdoc.
  2:{ intros H. inversion H. left. right. right. auto. }
  intros H. apply bind_thrown in H as [H|(discovered & t1 & _ & H)].
  { exfalso. revert H. apply total_not_thrown, basic_team_loop_total. }
  apply bind_thrown in H as [H|(done & t2 & _ & H)].
  { exfalso. revert H. apply total_not_thrown, basic_download_loop_total. }
  right. apply data_files_run in H. exact H.
Qed.

(** ** Runs: the loops of the full-profile scraper *)

Lemma for_each_thrown {A S} (l : list A) (body : A -> S -> IO S) : forall s tr tr',
  for_each l body s tr = (Thrown, tr') ->
  exists a s0 t0, a ∈ l /\ body a s0 t0 = (Thrown, tr').
Proof.
  induction l as [|a l IH]; intros s tr tr'; simpl; [discriminate|].
  intros H. apply bind_thrown in H as [H|(s1 & tr1 & _ & H)].
  - exists a, s, tr. split; [left|exact H].
  - apply IH in H as (b & s0 & t0 & Hb & H). exists b, s0, t0. split; [right; exact Hb|exact H].
Qed.

(** The loop over the teams: it has no [try], so that it returns only when
    every squad page was obtained, and throws right after a request that
    failed. *)
Lemma full_team_loop w teams tr o tr' :
  for_each teams (fun team acc =>
    players ← Full.scrapeTeamPlayerList w team;
    emit (Wait 300);;
    ret (acc ++ [(team, players)])) [] tr = (o, tr') ->
  match o with
  | Returned lists =>
    exists squads,
      Forall2 (fun team d => answered w tr' (squadUrl team) (Some d)) teams squads /\
      lists = squad_lists teams squads
  | Thrown => squad_request_fails w teams tr'
  end.
Proof.
  destruct o as [lists|].
  - apply (for_each_prefix_inv (fun pre acc t =>
      exists squads,
        Forall2 (fun team d => answered w t (squadUrl team) (Some d)) pre squads /\
        acc = squad_lists pre squads)); [|exists []; split; constructor].
    clear tr lists tr'. intros pre team post acc tr acc' tr' _ (squads & HF & ->).
    rewrite bind_run. unfold Full.scrapeTeamPlayerList, scrape. fold (squadUrl team).
    destruct (scrape_page w tr (squadUrl team)) as [squad|] eqn:Hsq; [|discriminate].
    rewrite bind_emit. intros H. inversion H; subst acc' tr'. clear H.
    exists (squads ++ [squad]). split.
    + apply Forall2_app.
      * rewrite <- app_assoc. apply (answered_all_later w tr _ squadUrl Some), HF.
      * constructor; [|constructor]. exists tr, [Wait 300].
        split; [rewrite <- app_assoc; reflexivity|exact Hsq].
    + unfold squad_lists. rewrite zip_with_app by (eapply Forall2_length, HF). reflexivity.
  - intros H. apply for_each_thrown in H as (team & acc & t0 & Hteam & H).
    rewrite bind_run in H. unfold Full.scrapeTeamPlayerList, scrape in H.
    fold (squadUrl team) in H.
    destruct (scrape_page w t0 (squadUrl team)) as [squad|] eqn:Hsq.
    + rewrite bind_emit in H. discriminate H.
    + inversion H; subst tr'. exists team, t0. auto.
Qed.

Lemma listed_snoc lists l : listed (lists ++ [l]) = listed lists ++ beside l.
Proof.
  unfold listed. rewrite fmap_app, concat_app. cbn [fmap list_fmap concat].
  rewrite app_nil_r. reflexivity.
Qed.

Lemma profiled_snoc entries profiles e profile :
  length entries = length profiles ->
  profiled (entries ++ [e]) (profiles ++ [profile])
  = profiled entries profiles ++ match profile with Some d => [profile_of e d] | None => [] end.
Proof.
  intros Hlen. unfold profiled. rewrite zip_with_app by exact Hlen. rewrite omap_app.
  destruct profile; reflexivity.
Qed.

(** The loop over the listed players: every profile page is requested, and
    the players whose page was obtained are gathered in order. *)
Lemma full_profile_loop w (lists : list (Team.t * list Full.BasicInfo.t)) : forall tr acc' tr',
  for_each lists (fun '(team, players) allPlayers =>
    for_each players (fun basicInfo allPlayers =>
      allPlayers ←
        try_catch
          (player ← Full.scrapePlayerProfile w basicInfo team;
           ret (allPlayers ++ [player]))
          (emit (ConsoleError (Full.BasicInfo.name basicInfo));; ret allPlayers);
      emit (Wait 500);;
      ret allPlayers) allPlayers) [] tr = (Returned acc', tr') ->
  exists profiles,
    Forall2 (fun e profile => answered w tr' (Full.BasicInfo.url e.2) profile)
            (listed lists) profiles /\
    acc' = profiled (listed lists) profiles.
Proof.
  intros tr acc' tr'.
  apply (for_each_prefix_inv (fun pre acc t =>
    exists profiles,
      Forall2 (fun e profile => answered w t (Full.BasicInfo.url e.2) profile)
              (listed pre) profiles /\
      acc = profiled (listed pre) profiles)); [|exists []; split; constructor].
  clear tr acc' tr'. intros pre [team players] post acc tr acc' tr' _ HI.
  rewrite listed_snoc.
  apply (for_each_prefix_inv (fun pre' acc t =>
    exists profiles,
      Forall2 (fun e profile => answered w t (Full.BasicInfo.url e.2) profile)
              (listed pre ++ beside (team, pre')) profiles /\
      acc = profiled (listed pre ++ beside (team, pre')) profiles)).
  2:{ destruct HI as (profiles & HF & ->). exists profiles.
      unfold beside. cbn [fmap list_fmap snd]. rewrite app_nil_r. auto. }
  clear acc tr acc' tr' HI. intros pre' info post' acc tr acc' tr' _ (profiles & HF & ->).
  assert (Eb : beside (team, pre' ++ [info]) = beside (team, pre') ++ [(team, info)]).
  { unfold beside. cbn [fst snd]. rewrite fmap_app. reflexivity. }
  rewrite Eb, app_assoc. clear Eb.
  set (L := listed pre ++ beside (team, pre')) in *.
  rewrite bind_run. unfold try_catch. rewrite bind_run.
  unfold Full.scrapePlayerProfile. rewrite bind_run. unfold scrape.
  destruct (scrape_page w tr (Full.BasicInfo.url info)) as [profile|] eqn:Hprof.
  - cbv beta iota delta [ret]. rewrite bind_emit. intros H. inversion H; subst acc' tr'. clear H.
    exists (profiles ++ [Some profile]). split.
    + apply Forall2_app.
      * rewrite <- app_assoc.
        apply (answered_all_later w tr _ (fun e => Full.BasicInfo.url e.2) id), HF.
      * constructor; [|constructor]. exists tr, [Wait 500].
        split; [rewrite <- app_assoc; reflexivity|exact Hprof].
    + rewrite profiled_snoc by (eapply Forall2_length, HF). reflexivity.
  - cbv beta iota. rewrite !bind_emit. intros H. inversion H; subst acc' tr'. clear H.
    exists (profiles ++ [None]). split.
    + apply Forall2_app.
      * rewrite <- !app_assoc.
        apply (answered_all_later w tr _ (fun e => Full.BasicInfo.url e.2) id), HF.
      * constructor; [|constructor].
        exists tr, [ConsoleError (Full.BasicInfo.name info); Wait 500].
        split; [rewrite <- !app_assoc; reflexivity|exact Hprof].
    + rewrite profiled_snoc by (eapply Forall2_length, HF). rewrite app_nil_r. reflexivity.
Qed.

Lemma profiled_no_path entries : forall profiles,
  Forall (fun p => Full.Player.localImagePath p = None) (profiled entries profiles).
Proof.
  unfold profiled.
  induction entries as [|e entries IH]; intros [|profile profiles]; try constructor.
  cbn [zip_with omap]. destruct profile as [d|]; cbn.
  - constructor; [reflexivity|apply IH].
  - apply IH.
Qed.

Lemma full_download_loop w (l : list Full.Player.t) :
  Forall (fun p => Full.Player.localImagePath p = None) l ->
  forall tr done tr',
  for_each l (fun player done =>
    localPath ← Full.downloadPlayerImage w player;
    emit (Wait 100);;
    ret (done ++ [match localPath with
                  | Some (c :: p) => Full.set_localImagePath player (c :: p)
                  | _ => player
                  end])) [] tr = (Returned done, tr') ->
  Forall2 full_path_set l done /\
  (exists ev, tr' = tr ++ ev) /\
  Forall (fun q => path_written (Full.Player.teamSlug q) (Full.Player.id q)
                                (Full.Player.localImagePath q) tr') done.
Proof.
  intros Hl tr done tr'.
  apply (for_each_prefix_inv (fun pre done tr' =>
    Forall2 full_path_set pre done /\
    (exists ev, tr' = tr ++ ev) /\
    Forall (fun q => path_written (Full.Player.teamSlug q) (Full.Player.id q)
                                  (Full.Player.localImagePath q) tr') done));
    [|split; [constructor|split; [exists []; symmetry; apply app_nil_r|constructor]]].
  clear done tr'. intros pre a post done t done' tr' E (H2 & (ev0 & ->) & Hw).
  assert (Ha : Full.Player.localImagePath a = None).
  { rewrite Forall_forall in Hl. apply Hl. rewrite E. apply elem_of_app. right. left. }
  rewrite bind_run.
  destruct (full_download_outcome w a (tr ++ ev0)) as (o & t1 & -> & (ev & ->) & Ho).
  rewrite bind_emit. intros H. inversion H; subst done' tr'. clear H. split; [|split].
  - apply Forall2_app; [exact H2|]. constructor; [|constructor].
    destruct o as [[|c p]|]; [left; reflexivity| |left; reflexivity].
    destruct Ho as (-> & _). right. reflexivity.
  - eexists. rewrite <- !app_assoc. reflexivity.
  - apply Forall_app. split.
    + eapply Forall_impl; [exact Hw|]. intros q Hq. cbv beta in *.
      rewrite <- (app_assoc (tr ++ ev0)). apply path_written_later. exact Hq.
    + constructor; [|constructor]. destruct o as [[|c p]|].
      * rewrite Ha. exact I.
      * destruct Ho as (-> & Hwr & _). split; [destruct a; reflexivity|].
        rewrite writes_app, Hwr. apply elem_of_app. left. apply elem_of_app. right.
        destruct a; left.
      * rewrite Ha. exact I.
Qed.

Lemma extends_full_profile_loop w (lists : list (Team.t * list Full.BasicInfo.t)) acc :
  extends (for_each lists (fun '(team, players) allPlayers =>
    for_each players (fun basicInfo allPlayers =>
      allPlayers ←
        try_catch
          (player ← Full.scrapePlayerProfile w basicInfo team;
           ret (allPlayers ++ [player]))
          (emit (ConsoleError (Full.BasicInfo.name basicInfo));; ret allPlayers);
      emit (Wait 500);;
      ret allPlayers) allPlayers) acc).
Proof.
  apply extends_for_each. intros [team players] acc'.
  apply extends_for_each. intros info acc''.
  apply extends_bind.
  - apply extends_try_catch.
    + apply extends_bind; [|intros; apply extends_ret].
      unfold Full.scrapePlayerProfile. apply extends_bind; [apply extends_scrape|].
      intros; apply extends_ret.
    + apply extends_bind; [apply extends_emit|intros; apply extends_ret].
  - intros. apply extends_bind; [apply extends_emit|intros; apply extends_ret].
Qed.

(** What a returning run of the full-profile scraper has done. *)
Lemma full_main_result w players tr :
  Full.main w [] = (Returned players, tr) ->
  exists doc squads profiles,
    dirs_made w /\
    scrape_page w [Mkdir IMAGES_DIR; Mkdir DATA_DIR] PREMIER_LEAGUE_URL = Some doc /\
    Forall2 (fun team d => answered w tr (squadUrl team) (Some d))
            (scrapeTeams_of (allLinks doc)) squads /\
    Forall2 (fun e profile => answered w tr (Full.BasicInfo.url e.2) profile)
            (listed (squad_lists (scrapeTeams_of (allLinks doc)) squads)) profiles /\
    Forall2 full_path_set
            (profiled (listed (squad_lists (scrapeTeams_of (allLinks doc)) squads)) profiles)
            players /\
    Forall (fun q => path_written (Full.Player.teamSlug q) (Full.Player.id q)
                                  (Full.Player.localImagePath q) tr) players /\
    exists tr0,
      tr = tr0 ++ WriteFile (join DATA_DIR (js "premier-league.json"))
               :: (WriteFile <$> (team_file <$>
                     first_seen id (Full.Player.teamSlug <$> players))).
Proof.
  unfold Full.main. rewrite main_start.
  destruct (mkdir_ok w [] IMAGES_DIR) eqn:Hd1; [|discriminate].
  destruct (mkdir_ok w _ DATA_DIR) eqn:Hd2; [|discriminate].
  destruct (scrape_page w _ PREMIER_LEAGUE_URL) as [doc|] eqn:Hdoc; [|discriminate].
  intros H. apply bind_returned in H as (lists & t0 & Hlists & H).
  apply bind_returned in H as (discovered & t1 & Hdisc & H).
  apply bind_returned in H as (done & t2 & Hdl & H).
  apply data_files_run in H as [-> ->].
  apply full_team_loop in Hlists as (squads & HF & ->).
  pose proof (extends_full_profile_loop _ _ _ _ _ _ Hdisc) as (ev1 & ->).
  apply full_profile_loop in Hdisc as (profiles & HP & ->).
  apply full_download_loop in Hdl as (H2 & (ev2 & ->) & Hw); [|apply profiled_no_path].
  exists doc, squads, profiles. split; [split; assumption|]. split; [reflexivity|].
  split; [|split; [|split; [|split]]].
  - rewrite <- !app_assoc. apply (answered_all_later w t0 _ squadUrl Some), HF.
  - rewrite <- app_assoc.
    apply (answered_all_later w _ _ (fun e => Full.BasicInfo.url e.2) id), HP.
  - exact H2.
  - eapply Forall_impl; [exact Hw|]. intros q Hq. apply path_written_later. exact Hq.
  - eexists. reflexivity.
Qed.

(** A run of the full-profile scraper throws only at one of the calls of
    [main] itself or at the request for a squad page. *)
Lemma full_main_thrown w tr :
  Full.main w [] = (Thrown, tr) ->
  start_fails w tr \/
  (exists doc,
     scrape_page w [Mkdir IMAGES_DIR; Mkdir DATA_DIR] PREMIER_LEAGUE_URL = Some doc /\
     squad_request_fails w (scrapeTeams_of (allLinks doc)) tr) \/
  data_write_fails w tr.
Proof.
  unfold Full.main. rewrite main_start.
  destruct (mkdir_ok w [] IMAGES_DIR) eqn:Hd1.
  2:{ intros H. inversion H. left. left. auto. }
  destruct (mkdir_ok w _ DATA_DIR) eqn:Hd2.
  2:{ intros H. inversion H. left. right. left. auto. }
  destruct (scrape_page w _ PREMIER_LEAGUE_URL) as [doc|] eqn:Hdoc.
  2:{ intros H. inversion H. left. right. right. auto. }
  intros H. apply bind_thrown in H as [H|(lists & t0 & _ & H)].
  { apply full_team_loop in H. right. left. exists doc. auto. }
  apply bind_thrown in H as [H|(discovered & t1 & _ & H)].
  { exfalso. revert H. apply total_not_thrown.
    apply total_for_each. intros [team players] allPlayers.
    apply total_for_each. intros basicInfo allPlayers'.
    apply total_bind.
    - apply total_try_catch, total_bind; [apply total_emit|intros; apply total_ret].
    - intros allPlayers''. apply total_bind; [apply total_emit|intros; apply total_ret]. }
  apply bind_thrown in H as [H|(done & t2 & _ & H)].
  { exfalso. revert H. apply total_not_thrown.
    apply total_for_each. intros player done.
    apply total_bind; [apply full_download_total|]. intros localPath.
    apply total_bind; [apply total_emit|intros; apply total_ret]. }
  right. right. apply data_files_run in H. exact H.
Qed.

(** ** Runs: what the scrapers leave behind *)



(** X2: where a run of the scraper that builds image URLs can fail.  When the
    two output directories can be made, the listing page is obtained and the
    files of the data directory can be written, the run returns: failures of
    squad pages, of image requests and of the file-system calls of a download
    never end it.  A run that throws has failed at a call of [main] itself:
    at one of the two [mkdir], at the request for the listing page, or at a
    [writeFile] into the data directory; when the listing page cannot be
    obtained the run throws right after that request. *)
Theorem basic_main_failure_points (w : World) :
  (forall doc,
     dirs_made w ->
     scrape_page w [Mkdir IMAGES_DIR; Mkdir DATA_DIR] PREMIER_LEAGUE_URL = Some doc ->
     data_files_writable w ->
     exists players tr, Basic.main w [] = (Returned players, tr)) /\
  (forall tr, Basic.main w [] = (Thrown, tr) -> start_fails w tr \/ data_write_fails w tr) /\
  (dirs_made w ->
   scrape_page w [Mkdir IMAGES_DIR; Mkdir DATA_DIR] PREMIER_LEAGUE_URL = None ->
   Basic.main w [] = (Thrown, [Mkdir IMAGES_DIR; Mkdir DATA_DIR; Scrape PREMIER_LEAGUE_URL])).
Proof.
  split; [|split].
  - intros doc. apply basic_main_returns.
  - apply basic_main_thrown.
  - apply basic_main_listing_fatal.
Qed.

Lemma basic_main_failure_points_witness :
  exists players tr, Basic.main images_unwritable [] = (Returned players, tr).
Proof.
  apply (proj1 (basic_main_failure_points images_unwritable) listing_page).
  - split; reflexivity.
  - vm_compute. reflexivity.
  - intros tr file. reflexivity.
Defined.

(** X3: where a run of the full-profile scraper can fail.  When the two
    output directories can be made, the listing page and the squad pages of
    the listed teams are obtained and the files of the data directory can be
    written, the run returns: failures of profile pages, of image requests
    and of the file-system calls of a download never end it.  A run that
    throws has failed at one of the two [mkdir] of [main], at the request for
    the listing page, at the request for the squad page of a listed team, or
    at a [writeFile] into the data directory; when the listing page cannot be
    obtained the run throws right after that request. *)
Theorem full_main_failure_points (w : World) :
  (forall doc,
     dirs_made w ->
     scrape_page w [Mkdir IMAGES_DIR; Mkdir DATA_DIR] PREMIER_LEAGUE_URL = Some doc ->
     (forall team tr, team ∈ scrapeTeams_of (allLinks doc) ->
                      exists d, scrape_page w tr (squadUrl team) = Some d) ->
     data_files_writable w ->
     exists players tr, Full.main w [] = (Returned players, tr)) /\
  (forall tr,
     Full.main w [] = (Thrown, tr) ->
     start_fails w tr \/
     (exists doc,
        scrape_page w [Mkdir IMAGES_DIR; Mkdir DATA_DIR] PREMIER_LEAGUE_URL = Some doc /\
        squad_request_fails w (scrapeTeams_of (allLinks doc)) tr) \/
     data_write_fails w tr) /\
  (dirs_made w ->
   scrape_page w [Mkdir IMAGES_DIR; Mkdir DATA_DIR] PREMIER_LEAGUE_URL = None ->
   Full.main w [] = (Thrown, [Mkdir IMAGES_DIR; Mkdir DATA_DIR; Scrape PREMIER_LEAGUE_URL])).
Proof.
  split; [|split].
  - intros doc. apply full_main_returns.
  - apply full_main_thrown.
  - intros [Hd1 Hd2] E. unfold Full.main. rewrite main_start, Hd1, Hd2, E. reflexivity.
Qed.

Lemma full_main_failure_points_witness :
  exists players tr, Full.main profiles_down [] = (Returned players, tr).
Proof.
  apply (proj1 (full_main_failure_points profiles_down) listing_page).
  - split; reflexivity.
  - vm_compute. reflexivity.
  - intros team tr Hteam.
    assert (E : scrapeTeams_of (allLinks listing_page)
                = [arsenal; Team.Make (js "Chelsea")
                              (js "https://www.transfermarkt.com/fc-chelsea/startseite/verein/631")
                              (js "fc-chelsea") (js "631")]) by (vm_compute; reflexivity).
    rewrite E in Hteam.
    apply elem_of_cons in Hteam as [->|Hteam];
      [|apply elem_of_cons in Hteam as [->|Hteam]; [|inversion Hteam]];
      exists squad_page; vm_compute; reflexivity.
  - intros tr file. reflexivity.
Defined.

(** X4: in the list that a run returns, a recorded [localImagePath] is
    [public/images/players/<teamSlug>/<id>.jpg] for the player's own team slug
    and id, and the run has written the file
    [<IMAGES_DIR>/<teamSlug>/<id>.jpg]; this holds for both scrapers. *)
Theorem recorded_image_paths_are_written :
  (forall (w : World) players tr,
     Basic.main w [] = (Returned players, tr) ->
     Forall (fun q => path_written (Basic.Player.teamSlug q) (Basic.Player.id q)
                                   (Basic.Player.localImagePath q) tr) players) /\
  (forall (w : World) players tr,
     Full.main w [] = (Returned players, tr) ->
     Forall (fun q => path_written (Full.Player.teamSlug q) (Full.Player.id q)
                                   (Full.Player.localImagePath q) tr) players).
Proof.
  split; intros w players tr H.
  - apply basic_main_result in H as (doc & squads & _ & _ & _ & _ & H & _). exact H.
  - apply full_main_result in H as (doc & squads & profiles & _ & _ & _ & _ & _ & H & _).
    exact H.
Qed.

Lemma recorded_image_paths_are_written_witness :
  match Full.main (serving photo) [] with
  | (Returned players, tr) =>
    Forall (fun q => path_written (Full.Player.teamSlug q) (Full.Player.id q)
                                  (Full.Player.localImagePath q) tr) players
  | (Thrown, _) => False
  end.
Proof.
  destruct (Full.main (serving photo) []) as [[players|] tr] eqn:E.
  - exact (proj2 recorded_image_paths_are_written (serving photo) players tr E).
  - vm_compute in E. discriminate E.
Defined.

(** X5: the players that a run returns are the players it discovered, all of
    them and in the order of discovery, each one as it was discovered or with
    the path of its image recorded.  In the scraper that builds image URLs
    the run has requested the squad page of every listed team, and the
    discovered players are those of the squad pages obtained, team by team in
    the order of the listing, each page's players in the order of discovery
    on the page.  In the full-profile scraper the run has obtained the squad
    page of every listed team and has requested the profile page of every
    player listed on them; the discovered players are those whose profile
    page was obtained, in the order of the squad lists. *)
Theorem returned_players_are_discovered :
  (forall (w : World) players tr,
     Basic.main w [] = (Returned players, tr) ->
     exists doc squads,
       scrape_page w [Mkdir IMAGES_DIR; Mkdir DATA_DIR] PREMIER_LEAGUE_URL = Some doc /\
       Forall2 (fun team squad => answered w tr (squadUrl team) squad)
               (scrapeTeams_of (allLinks doc)) squads /\
       Forall2 basic_path_set (basic_squads (scrapeTeams_of (allLinks doc)) squads) players) /\
  (forall (w : World) players tr,
     Full.main w [] = (Returned players, tr) ->
     exists doc squads profiles,
       scrape_page w [Mkdir IMAGES_DIR; Mkdir DATA_DIR] PREMIER_LEAGUE_URL = Some doc /\
       Forall2 (fun team d => answered w tr (squadUrl team) (Some d))
               (scrapeTeams_of (allLinks doc)) squads /\
       Forall2 (fun e profile => answered w tr (Full.BasicInfo.url e.2) profile)
               (listed (squad_lists (scrapeTeams_of (allLinks doc)) squads)) profiles /\
       Forall2 full_path_set
               (profiled (listed (squad_lists (scrapeTeams_of (allLinks doc)) squads)) profiles)
               players).
Proof.
  split; intros w players tr H.
  - apply basic_main_result in H as (doc & squads & _ & H1 & H2 & H3 & _).
    exists doc, squads. auto.
  - apply full_main_result in H as (doc & squads & profiles & _ & H1 & H2 & H3 & H4 & _).
    exists doc, squads, profiles. auto.
Qed.

Lemma returned_players_are_discovered_witness :
  match Basic.main (serving photo) [] with
  | (Returned players, tr) =>
    exists doc squads,
      scrape_page (serving photo) [Mkdir IMAGES_DIR; Mkdir DATA_DIR] PREMIER_LEAGUE_URL
        = Some doc /\
      Forall2 (fun team squad => answered (serving photo) tr (squadUrl team) squad)
              (scrapeTeams_of (allLinks doc)) squads /\
      Forall2 basic_path_set (basic_squads (scrapeTeams_of (allLinks doc)) squads) players
  | (Thrown, _) => False
  end.
Proof.
  destruct (Basic.main (serving photo) []) as [[players|] tr] eqn:E.
  - exact (proj1 returned_players_are_discovered (serving photo) players tr E).
  - vm_compute in E. discriminate E.
Defined.

(** X6: grouping by team slug gives one group per slug, the slugs in the order
    of their first appearance and each group holding the players of its slug
    in their order; so the slugs are pairwise distinct and no group is
    empty. *)
Theorem group_by_first_appearance {P : Type} (key : P -> jsstring) (ps : list P) :
  group_by key ps = group_of key ps <$> first_seen id (key <$> ps) /\
  NoDup (group_by key ps).*1 /\
  (forall k g, (k, g) ∈ group_by key ps ->
     g <> [] /\ g = filter (fun p => key p = k) ps).
Proof.
  rewrite group_by_groups. split; [reflexivity|]. split.
  - rewrite group_of_keys. apply first_keys_NoDup.
  - intros k g H. apply list_elem_of_fmap in H as (k' & E & Hk'). inversion E; subst k' g.
    split; [|reflexivity].
    apply first_keys_elem, list_elem_of_fmap in Hk' as (p & -> & Hp).
    intros Hnil. assert (Hin : p ∈ filter (fun q => key q = key p) ps).
    { apply list_elem_of_filter. auto. }
    rewrite Hnil in Hin. inversion Hin.
Qed.

(** X7: a returning run ends by writing the data files: [premier-league.json],
    then one file [<teamSlug>.json] for each team slug among the returned
    players, in the order of first appearance; this holds for both
    scrapers. *)
Theorem data_files_written_last :
  (forall (w : World) players tr,
     Basic.main w [] = (Returned players, tr) ->
     exists tr0,
       tr = tr0 ++ WriteFile (join DATA_DIR (js "premier-league.json"))
                :: (WriteFile <$> (team_file <$>
                      first_seen id (Basic.Player.teamSlug <$> players)))) /\
  (forall (w : World) players tr,
     Full.main w [] = (Returned players, tr) ->
     exists tr0,
       tr = tr0 ++ WriteFile (join DATA_DIR (js "premier-league.json"))
                :: (WriteFile <$> (team_file <$>
                      first_seen id (Full.Player.teamSlug <$> players)))).
Proof.
  split; intros w players tr H.
  - apply basic_main_result in H as (doc & squads & _ & _ & _ & _ & _ & H). exact H.
  - apply full_main_result in H as (doc & squads & profiles & _ & _ & _ & _ & _ & _ & H).
    exact H.
Qed.

Lemma data_files_written_last_witness :
  match Basic.main (serving photo) [] with
  | (Returned players, tr) =>
    exists tr0,
      tr = tr0 ++ WriteFile (join DATA_DIR (js "premier-league.json"))
               :: (WriteFile <$> (team_file <$>
                     first_seen id (Basic.Player.teamSlug <$> players)))
  | (Thrown, _) => False
  end.
Proof.
  destruct (Basic.main (serving photo) []) as [[players|] tr] eqn:E.
  - exact (proj1 data_files_written_last (serving photo) players tr E).
  - vm_compute in E. discriminate E.
Defined.

(** ** The resolver on arbitrary input *)

Lemma before_cons c a p : before (c :: a) p = before a (Some c).
Proof.
  unfold before. destruct a as [|d a]; [reflexivity|].
  change (last (c :: d :: a)) with (last (d :: a)).
  destruct (last (d :: a)) eqn:E; [reflexivity|].
  apply last_None in E. discriminate.
Qed.

(** The search finds the leftmost position at which the pattern matches. *)
Lemma exec_from_first fl r s : forall idx p m,
  exec_from fl r idx p s = Some m ->
  exists a b y, s = a ++ b /\ match_here fl r (before a p) b = Some y /\
                groups m = caps y /\ index m = idx + length a /\
                (forall a' b', s = a' ++ b' -> length a' < length a ->
                   match_here fl r (before a' p) b' = None).
Proof.
  induction s as [|c s IH]; intros idx p m H; rewrite exec_from_step in H.
  - destruct (match_here fl r p []) as [y|] eqn:E; [|discriminate].
    inversion H; subst. exists [], [], y. simpl.
    repeat split; auto. intros a' b' _ Hlt. lia.
  - destruct (match_here fl r p (c :: s)) as [y|] eqn:E.
    + inversion H; subst. exists [], (c :: s), y. simpl.
      repeat split; auto. intros a' b' _ Hlt. lia.
    + apply IH in H as (a & b & y & -> & Hm & Hg & Hi & Hfirst).
      exists (c :: a), b, y. rewrite before_cons.
      split; [reflexivity|]. split; [exact Hm|]. split; [exact Hg|].
      split; [simpl; lia|].
      intros a' b' E' Hlt. destruct a' as [|c' a'].
      * simpl in E'. subst b'. exact E.
      * inversion E'; subst c'. rewrite before_cons. apply Hfirst; [assumption|].
        simpl in Hlt. lia.
Qed.

(** A position at which the pattern matches is found, or an earlier one. *)
Lemma exec_from_finds fl r a : forall idx p b y,
  match_here fl r (before a p) b = Some y ->
  exists m, exec_from fl r idx p (a ++ b) = Some m.
Proof.
  induction a as [|c a IH]; intros idx p b y H.
  - erewrite exec_from_here by exact H. eauto.
  - rewrite before_cons in H. simpl app. rewrite exec_from_step.
    destruct (match_here fl r p (c :: a ++ b)); [eauto|].
    eapply IH, H.
Qed.

(** The id pattern matches exactly where its label is followed by a digit,
    and then captures the whole run of digits. *)
Lemma id_match_here_run type p s y :
  match_here no_flags (idPattern type) p s = Some y ->
  exists ds tl, s = id_label type ++ ds ++ tl /\ ds <> [] /\ Forall is_digit ds /\
                no_digit_ahead tl /\ group (MatchResult 0 (caps y)) 1 = Some ds.
Proof.
  intros H. destruct (id_match_here_inv _ _ _ _ H) as (d & tl0 & Hd & ->).
  destruct (digit_run tl0) as (ds & tl & -> & Hds & Htl).
  destruct (id_match_here type p (d :: ds) tl) as (y' & Hy' & Hcap);
    [discriminate|constructor; assumption|exact Htl|].
  change (id_label type ++ d :: ds ++ tl) with (id_label type ++ (d :: ds) ++ tl) in H.
  rewrite H in Hy'. inversion Hy'; subst y'.
  exists (d :: ds), tl. repeat split; auto.
Qed.

Lemma id_match_here_some type p d tl :
  is_digit d -> exists y, match_here no_flags (idPattern type) p (id_label type ++ d :: tl) = Some y.
Proof.
  intros Hd. destruct (digit_run tl) as (ds & tl' & -> & Hds & Htl).
  destruct (id_match_here type p (d :: ds) tl') as (y & Hy & _);
    [discriminate|constructor; assumption|exact Htl|].
  exists y. exact Hy.
Qed.

(** X8: the id resolver on any URL.  Either the URL has no occurrence of
    [/<type>/] followed by a digit, and the result is the sentinel
    ["unknown"]; or the result is a non-empty run of digits, the whole run
    that follows the leftmost such occurrence. *)
Theorem extractId_sentinel_or_first_run (url : jsstring) (type : entityKind) :
  ((forall a, ~ id_occurs_after type url a) /\ extractId url type = js "unknown") \/
  (exists a tl,
     url = a ++ id_label type ++ extractId url type ++ tl /\
     extractId url type <> [] /\ Forall is_digit (extractId url type) /\
     no_digit_ahead tl /\
     (forall a', id_occurs_after type url a' -> length a <= length a')).
Proof.
  unfold extractId, exec.
  destruct (exec_from no_flags (idPattern type) 0 None url) as [m|] eqn:E.
  - right. apply exec_from_first in E as (a & b & y & -> & Hm & Hg & _ & Hfirst).
    apply id_match_here_run in Hm as (ds & tl & -> & Hne & Hds & Htl & Hcap).
    unfold group in *. cbn [groups] in Hcap. rewrite Hg, Hcap. cbn [default].
    exists a, tl. repeat split; auto.
    intros a' (d & r & Hd & E'). destruct (Nat.le_gt_cases (length a) (length a')) as [|Hlt];
      [assumption|].
    specialize (Hfirst a' _ E' Hlt).
    destruct (id_match_here_some type (before a' None) d r Hd) as (y' & Hy').
    congruence.
  - left. split; [|reflexivity]. intros a (d & tl & Hd & ->).
    destruct (id_match_here_some type (before a None) d tl Hd) as (y & Hy).
    destruct (exec_from_finds _ _ a 0 None _ _ Hy) as (m & Hm). congruence.
Qed.

(** *** Slugs *)

Lemma split_go_slash cur c (s : jsstring) :
  JS.split_go [slash] 0 cur (c :: s) =
  if (slash =? c)%N then rev cur :: JS.split_go [slash] 0 [] s
  else JS.split_go [slash] 0 (c :: cur) s.
Proof.
  change (JS.split_go [slash] 0 cur (c :: s))
    with (if (slash =? c)%N && true
          then rev cur :: JS.split_go [slash] 0 [] s
          else JS.split_go [slash] 0 (c :: cur) s).
  rewrite andb_true_r. reflexivity.
Qed.

Lemma split_go_whole (s : jsstring) : forall cur,
  slash ∉ s -> JS.split_go [slash] 0 cur s = [rev cur ++ s].
Proof.
  induction s as [|c s IH]; intros cur H.
  - simpl. rewrite app_nil_r. reflexivity.
  - apply not_elem_of_cons in H as [Hc Hs]. rewrite split_go_slash.
    destruct (N.eqb_spec slash c) as [E|_]; [congruence|].
    rewrite IH by exact Hs. cbn [rev]. rewrite <- app_assoc. reflexivity.
Qed.

Lemma elem_of_rev (c : N) (l : jsstring) : c ∈ rev l <-> c ∈ l.
Proof.
  induction l as [|a l IH]; [reflexivity|].
  cbn [rev]. rewrite elem_of_app, IH, elem_of_cons, elem_of_cons, elem_of_nil. tauto.
Qed.

Lemma split_go_pieces (s : jsstring) : forall cur,
  slash ∉ cur -> Forall (fun piece => slash ∉ piece) (JS.split_go [slash] 0 cur s).
Proof.
  induction s as [|c s IH]; intros cur H.
  - simpl. constructor; [|constructor]. rewrite elem_of_rev. exact H.
  - rewrite split_go_slash. destruct (N.eqb_spec slash c) as [E|Hne].
    + constructor; [rewrite elem_of_rev; exact H|]. apply IH. apply not_elem_of_nil.
    + apply IH. apply not_elem_of_cons. split; [congruence|exact H].
Qed.

Lemma no_slash_in_unknown : slash ∉ js "unknown".
Proof.
  intros H. repeat (apply elem_of_cons in H as [H|H]; [discriminate H|]). inversion H.
Qed.

Lemma extractSlug_segment a seg r :
  slash ∉ a -> slash ∉ seg -> segment_ends r ->
  extractSlug (a ++ slash :: seg ++ r) = if truthy seg then seg else js "unknown".
Proof.
  intros Ha Hseg Hr. unfold extractSlug, JS.split_str.
  change (js "/") with [slash]. rewrite split_go_segment by exact Ha.
  cbn [rev app lookup list_lookup].
  destruct r as [|c r].
  - rewrite app_nil_r, split_go_whole by exact Hseg. cbn [rev app lookup list_lookup].
    destruct seg; reflexivity.
  - simpl in Hr. subst c. rewrite split_go_segment by exact Hseg.
    cbn [rev app lookup list_lookup]. destruct seg; reflexivity.
Qed.

(** *** Player hrefs *)

Lemma no_slash_in_spieler : slash ∉ js "spieler".
Proof. vm_compute. intros H. repeat (inversion H as [|? ? ? H']; subst; clear H; rename H' into H). Qed.

Lemma extractId_of_player_shape h slug ds tl :
  player_href_shape h slug ds tl -> extractId h spieler = ds.
Proof.
  intros (-> & Hne & Hslug & Hds & Hd & Htl).
  destruct (id_match_here spieler (Some 108%N) ds tl Hds Hd Htl) as (y & Hy & Hcap).
  assert (E : js "/" ++ slug ++ js "/profil/spieler/" ++ ds ++ tl =
              [slash] ++ slug ++ js "/profil" ++ id_label spieler ++ ds ++ tl)
    by reflexivity.
  unfold extractId, exec. rewrite E. clear E.
  (* position 0 *)
  change ([slash] ++ slug ++ ?r) with (slash :: (slug ++ r)).
  rewrite exec_from_char.
  2:{ apply id_no_match. intros d tl' Hd' E.
      apply (f_equal (@tail _)) in E.
      change (slug ++ slash :: (112%N :: js "rofil" ++ id_label spieler ++ ds ++ tl) =
              js "spieler" ++ slash :: d :: tl') in E.
      apply first_slash in E as [_ E]; auto using no_slash_in_spieler.
      apply (f_equal head) in E. simpl in E. inversion E; subst. discriminate Hd'. }
  (* the positions inside the slug *)
  rewrite exec_from_skip.
  2:{ intros a b -> Hb. apply id_no_match. intros d tl' _ E.
      destruct b as [|c b]; [congruence|]. inversion E; subst.
      apply Hslug. apply elem_of_app. right. left. }
  (* the positions inside [/profil] *)
  change (js "/profil" ++ ?r) with
    (47 :: 112 :: 114 :: 111 :: 102 :: 105 :: 108 :: r)%N.
  do 7 (rewrite exec_from_char
          by (apply id_no_match; intros ? ? _ E'; discriminate E')).
  erewrite exec_from_here by exact Hy.
  unfold group in *. cbn [groups] in *. rewrite Hcap. reflexivity.
Qed.

Lemma playerHref_eq :
  playerHref =
  Seq Bol (Seq (Lit [slash]) (Seq (Rep (Cls true [(slash, slash)]) 1 None true)
          (Seq (Lit (js "/profil/spieler/")) (Rep (Cls false [(48, 57)%N]) 1 None true)))).
Proof. reflexivity. Qed.

Lemma playerHref_shape h :
  test no_flags playerHref h = true -> exists slug ds tl, player_href_shape h slug ds tl.
Proof.
  unfold test, exec. destruct (exec_from _ _ _ _ _) as [m|] eqn:E; [intros _|discriminate].
  apply exec_from_some in E as (a & b & y & -> & Hm & _).
  unfold match_here in Hm.
  destruct (rmatch _ _ _ _) as [z|] eqn:Hz; [clear Hm|discriminate].
  rewrite playerHref_eq in Hz. unfold start in Hz.
  assert (a = []) as ->.
  { destruct a as [|c a] using rev_ind; [reflexivity|].
    unfold before in Hz. rewrite last_snoc in Hz. discriminate Hz. }
  simpl app. change (before [] None) with (@None N) in Hz.
  rewrite rmatch_seq in Hz. change (rmatch no_flags Bol ?x ?k) with (k x) in Hz.
  cbv beta in Hz.
  rewrite rmatch_seq, rmatch_lit, lit_match_prefix in Hz. simpl rest in Hz.
  destruct (JS.starts_with [slash] b) eqn:H1; [|discriminate].
  apply starts_with_inv in H1.
  rewrite rmatch_seq, rmatch_rep_cls in Hz.
  apply repeat_cls_inv in Hz as (slug & r1 & Hr1 & Hslug & Hlen & Hz).
  rewrite consume_rest in Hr1.
  rewrite rmatch_seq, rmatch_lit, lit_match_prefix in Hz.
  rewrite consume_rest in Hz.
  destruct (JS.starts_with (js "/profil/spieler/") r1) eqn:H2; [|discriminate].
  apply starts_with_inv in H2.
  rewrite rmatch_rep_cls in Hz.
  apply repeat_cls_inv in Hz as (ds1 & r2 & Hr2 & Hds1 & Hlen1 & _).
  rewrite consume_rest in Hr2.
  destruct (digit_run r2) as (ds2 & tl & -> & Hds2 & Htl).
  exists slug, (ds1 ++ ds2), tl. unfold player_href_shape.
  split; [|split; [|split; [|split; [|split]]]].
  - rewrite H1, Hr1, H2, Hr2, <- app_assoc. reflexivity.
  - destruct slug; [simpl in Hlen; lia|discriminate].
  - intros Hin. rewrite Forall_forall in Hslug.
    apply Hslug in Hin. apply not_slash_accepts in Hin. congruence.
  - destruct ds1; [simpl in Hlen1; lia|discriminate].
  - apply Forall_app. split; [apply digits_accepted, Hds1|exact Hds2].
  - exact Htl.
Qed.

(** What an accepted player anchor gives: the id is the run of digits of its
    href, and the name is the cleaned text, of two code units or more. *)
Lemma player_accepts_shape link playerId name h :
  player_accepts link = Some (playerId, name, h) ->
  href link = Some h /\ name = cleanText (Some (textContent link)) /\ 2 <= length name /\
  test no_flags numericOnly name = false /\
  exists slug tl, player_href_shape h slug playerId tl.
Proof.
  unfold player_accepts. destruct (href link) as [h'|]; [|discriminate].
  destruct (truthy h' && truthy _ && test no_flags playerHref h'
            && negb (negb (truthy _) || (length _ <? 2))
            && negb (test no_flags numericOnly _)) eqn:G; [|discriminate].
  intros H. inversion H; subst. clear H.
  apply andb_true_iff in G as [G G5]. apply andb_true_iff in G as [G G4].
  apply andb_true_iff in G as [G G3]. apply negb_true_iff in G4, G5.
  apply orb_false_iff in G4 as [_ G4]. apply Nat.ltb_ge in G4.
  destruct (playerHref_shape _ G3) as (slug & ds & tl & Hshape).
  rewrite (extractId_of_player_shape _ _ _ _ Hshape).
  repeat split; auto. exists slug, tl. exact Hshape.
Qed.

Lemma player_of_inv team link p :
  player_of team link = Some p ->
  exists playerId name h,
    player_accepts link = Some (playerId, name, h) /\
    p = Basic.Player.Make playerId name (BASE_URL ++ h)
          (Some (Basic.constructImageUrl playerId)) None None None
          (Team.name team) (Team.slug team).
Proof.
  unfold player_of. destruct (player_accepts link) as [[[i n] h]|]; [|discriminate].
  intros H. inversion H. eauto.
Qed.

Lemma basicInfo_of_inv link info :
  basicInfo_of link = Some info ->
  exists playerId name h,
    player_accepts link = Some (playerId, name, h) /\
    info = Full.BasicInfo.Make playerId name (BASE_URL ++ h).
Proof.
  unfold basicInfo_of. destruct (player_accepts link) as [[[i n] h]|]; [|discriminate].
  intros H. inversion H. eauto.
Qed.

(** X9: the slug resolver on any URL.  The result is never empty and never
    holds a slash.  It is the text between the first slash and the second
    (or the end), and the sentinel ["unknown"] when that text is empty or the
    URL has no slash. *)
Theorem extractSlug_second_segment :
  (forall url, extractSlug url <> [] /\ slash ∉ extractSlug url) /\
  (forall url, slash ∉ url -> extractSlug url = js "unknown") /\
  (forall a seg r,
     slash ∉ a -> slash ∉ seg -> segment_ends r ->
     extractSlug (a ++ slash :: seg ++ r) = if truthy seg then seg else js "unknown").
Proof.
  split; [|split].
  - intros url. unfold extractSlug, JS.split_str. change (js "/") with [slash].
    pose proof (split_go_pieces url [] (not_elem_of_nil _)) as H.
    destruct (JS.split_go [slash] 0 [] url !! 1) as [[|c p]|] eqn:E.
    + split; [discriminate|apply no_slash_in_unknown].
    + split; [discriminate|]. rewrite Forall_forall in H. apply H.
      eapply list_elem_of_lookup_2, E.
    + split; [discriminate|apply no_slash_in_unknown].
  - intros url H. unfold extractSlug, JS.split_str. change (js "/") with [slash].
    rewrite split_go_whole by exact H. reflexivity.
  - apply extractSlug_segment.
Qed.

Lemma extractSlug_second_segment_witness :
  extractSlug (js "https:" ++ slash :: [] ++ js "/www.transfermarkt.com") = js "unknown".
Proof.
  apply (proj2 (proj2 extractSlug_second_segment) (js "https:") [] (js "/www.transfermarkt.com")).
  - vm_compute. intros H. repeat (apply elem_of_cons in H as [H|H]; [discriminate H|]).
    inversion H.
  - apply not_elem_of_nil.
  - reflexivity.
Defined.

(** X10: what player discovery returns.  Every player of a squad page comes
    from an anchor whose href has the shape [/<slug>/profil/spieler/<digits>]:
    the id is that run of digits (never the sentinel), the URL is the site's
    base URL followed by the href, the name is the cleaned text of the anchor,
    at least two code units long and not made of digits only.  The scraper
    that builds image URLs adds the image URL built from the id and the name
    and slug of the team, and leaves the other fields [null]. *)
Theorem discovered_players_come_from_hrefs :
  (forall team allLinks p,
     p ∈ Basic.scrapeTeamPlayers_extract team allLinks ->
     exists link h slug ds tl,
       link ∈ allLinks /\ href link = Some h /\ player_href_shape h slug ds tl /\
       2 <= length (Basic.Player.name p) /\
       test no_flags numericOnly (Basic.Player.name p) = false /\
       p = Basic.Player.Make ds (cleanText (Some (textContent link))) (BASE_URL ++ h)
             (Some (Basic.constructImageUrl ds)) None None None
             (Team.name team) (Team.slug team)) /\
  (forall allLinks info,
     info ∈ Full.scrapeTeamPlayerList_extract allLinks ->
     exists link h slug ds tl,
       link ∈ allLinks /\ href link = Some h /\ player_href_shape h slug ds tl /\
       2 <= length (Full.BasicInfo.name info) /\
       test no_flags numericOnly (Full.BasicInfo.name info) = false /\
       info = Full.BasicInfo.Make ds (cleanText (Some (textContent link))) (BASE_URL ++ h)).
Proof.
  split.
  - intros team allLinks p Hp.
    apply (discovered_from_anchor Basic.Player.id (player_of team)) in Hp
      as (link & Hin & Hc); [|apply scrapeTeamPlayers_visit_eq].
    apply player_of_inv in Hc as (playerId & name & h & Ha & ->).
    apply player_accepts_shape in Ha as (Hh & -> & Hlen & Hnum & slug & tl & Hshape).
    exists link, h, slug, playerId, tl. auto 10.
  - intros allLinks info Hp.
    apply (discovered_from_anchor Full.BasicInfo.id basicInfo_of) in Hp
      as (link & Hin & Hc); [|apply scrapeTeamPlayerList_visit_eq].
    apply basicInfo_of_inv in Hc as (playerId & name & h & Ha & ->).
    apply player_accepts_shape in Ha as (Hh & -> & Hlen & Hnum & slug & tl & Hshape).
    exists link, h, slug, playerId, tl. auto 10.
Qed.

Lemma discovered_players_come_from_hrefs_witness :
  exists link h slug ds tl,
    link ∈ allLinks squad_page /\ href link = Some h /\ player_href_shape h slug ds tl /\
    2 <= length (js "Reece James") /\
    test no_flags numericOnly (js "Reece James") = false /\
    Full.BasicInfo.Make (js "472423") (js "Reece James")
      (js "https://www.transfermarkt.com/reece-james/profil/spieler/472423")
    = Full.BasicInfo.Make ds (cleanText (Some (textContent link))) (BASE_URL ++ h).
Proof.
  apply (proj2 discovered_players_come_from_hrefs (allLinks squad_page)
           (Full.BasicInfo.Make (js "472423") (js "Reece James")
              (js "https://www.transfermarkt.com/reece-james/profil/spieler/472423"))).
  vm_compute. left.
Defined.

(** ** The text normalizer on arbitrary input *)

Lemma space_accepts c : accepts no_flags false JS.white_ranges c <-> is_white c.
Proof. unfold accepts, is_white, class_has, JS.is_white. simpl ignoreCase. cbv iota.
       rewrite xorb_false_l. reflexivity. Qed.

(** Every string splits into its leading white space and a remainder that
    does not begin with white space. *)
Lemma white_run s :
  exists ws tl, s = ws ++ tl /\ Forall is_white ws /\
                match tl with [] => True | c :: _ => JS.is_white c = false end.
Proof.
  induction s as [|c s (ws & tl & E & Hw & Ht)].
  - exists [], []. simpl. auto.
  - destruct (JS.is_white c) eqn:Hc.
    + exists (c :: ws), tl. rewrite E. repeat split; auto.
    + exists [], (c :: s). simpl. auto.
Qed.

Lemma plus_space_here p (ws tl : jsstring) :
  ws <> [] -> Forall is_white ws ->
  match tl with [] => True | c :: _ => JS.is_white c = false end ->
  exists y, match_here no_flags (plus space) p (ws ++ tl) = Some y /\ pos y = length ws.
Proof.
  intros Hne Hw Htl. unfold match_here, plus, space. rewrite rmatch_rep_cls.
  set (x := start _ p _).
  rewrite (repeat_cls_greedy no_flags false _ ws _ _ _ _ tl (consume ws tl x)).
  - eexists. split; [reflexivity|]. cbn [set_cap pos]. rewrite consume_pos. reflexivity.
  - reflexivity.
  - eapply Forall_impl; [exact Hw|]. intros c Hc. apply (proj2 (space_accepts c)), Hc.
  - destruct tl as [|c tl]; [exact I|]. intros Ha. apply (proj1 (space_accepts c)) in Ha.
    unfold is_white in Ha. cbv iota in Htl. congruence.
  - destruct ws; [congruence|simpl; lia].
  - simpl. rewrite length_app. lia.
  - reflexivity.
Qed.

Lemma plus_space_none p (s : jsstring) :
  match s with [] => True | c :: _ => JS.is_white c = false end ->
  match_here no_flags (plus space) p s = None.
Proof.
  intros Hs. unfold match_here, plus, space. rewrite rmatch_rep_cls.
  destruct (repeat_match _ _ _ _ _ _ _ _) as [z|] eqn:E; [|reflexivity].
  apply repeat_cls_inv in E as (ds & tl & Hr & Hd & Hlen & _).
  simpl in Hr. subst s. destruct ds as [|d ds]; [simpl in Hlen; lia|].
  apply Forall_cons in Hd as [Hd _]. apply (proj1 (space_accepts d)) in Hd.
  simpl in Hs. unfold is_white in Hd. congruence.
Qed.

Lemma replace_go_skip fl r rep (a : jsstring) : forall p tl,
  replace_go fl r rep (length a) p (a ++ tl) = replace_go fl r rep 0 (before a p) tl.
Proof.
  induction a as [|c a IH]; intros p tl; [reflexivity|].
  rewrite before_cons, <- IH. reflexivity.
Qed.

Lemma replace_go_here fl r rep p c (tl : jsstring) :
  replace_go fl r rep 0 p (c :: tl) =
  match match_here fl r p (c :: tl) with
  | Some y =>
    rep ++ match pos y with
           | O => c :: replace_go fl r rep 0 (Some c) tl
           | S n' => replace_go fl r rep n' (Some c) tl
           end
  | None => c :: replace_go fl r rep 0 (Some c) tl
  end.
Proof. reflexivity. Qed.

Lemma replace_go_end fl r rep p :
  replace_go fl r rep 0 p [] =
  match match_here fl r p [] with
  | Some y => rep ++ []
  | None => []
  end.
Proof. reflexivity. Qed.

Lemma collapse_run (ws tl : jsstring) :
  Forall is_white ws -> collapse true (ws ++ tl) = collapse true tl.
Proof.
  induction 1 as [|c ws Hc _ IH]; [reflexivity|].
  simpl. unfold is_white in Hc. rewrite Hc. exact IH.
Qed.

Lemma collapse_fresh (tl : jsstring) :
  match tl with [] => True | c :: _ => JS.is_white c = false end ->
  collapse true tl = collapse false tl.
Proof. destruct tl as [|c tl]; [reflexivity|]. simpl. intros ->. reflexivity. Qed.

(** [replace(/\s+/g, ' ')] replaces every run of white space by one space. *)
Lemma replace_spaces_collapse n : forall (s : jsstring) p,
  length s <= n ->
  replace_go no_flags (plus space) (js " ") 0 p s = collapse false s.
Proof.
  induction n as [|n IH]; intros s p Hlen.
  - destruct s; [|simpl in Hlen; lia].
    rewrite replace_go_end, plus_space_none by exact I. reflexivity.
  - destruct s as [|c s].
    { rewrite replace_go_end, plus_space_none by exact I. reflexivity. }
    rewrite replace_go_here. destruct (JS.is_white c) eqn:Hc.
    + destruct (white_run s) as (ws & tl & -> & Hws & Htl).
      destruct (plus_space_here p (c :: ws) tl) as (y & Hy & Hpos);
        [discriminate|constructor; assumption|exact Htl|].
      change ((c :: ws) ++ tl) with (c :: ws ++ tl) in Hy. rewrite Hy, Hpos. cbn [length]. cbv iota.
      rewrite replace_go_skip, IH.
      * simpl. rewrite Hc, collapse_run, collapse_fresh by assumption. reflexivity.
      * simpl in Hlen. rewrite length_app in Hlen. lia.
    + rewrite plus_space_none by (simpl; exact Hc).
      rewrite IH by (simpl in Hlen; lia). simpl. rewrite Hc. reflexivity.
Qed.

Lemma single_spaced_collapse (s : jsstring) : forall b, single_spaced b (collapse b s) = true.
Proof.
  induction s as [|c s IH]; intros b; [reflexivity|].
  simpl. destruct (JS.is_white c) eqn:Hc.
  - destruct b; [apply IH|]. simpl. rewrite IH. reflexivity.
  - simpl. rewrite Hc. apply IH.
Qed.

Lemma single_spaced_weaken (s : jsstring) : single_spaced true s = true -> single_spaced false s = true.
Proof.
  destruct s as [|c s]; [reflexivity|]. simpl. destruct (JS.is_white c); [|auto].
  rewrite andb_false_r. discriminate.
Qed.

Lemma single_spaced_head (s : jsstring) :
  single_spaced true s = true -> match s with [] => True | c :: _ => JS.is_white c = false end.
Proof.
  destruct s as [|c s]; [auto|]. simpl. destruct (JS.is_white c); [|auto].
  rewrite andb_false_r. discriminate.
Qed.

Lemma single_spaced_prefix (x y : jsstring) : forall b,
  single_spaced b (x ++ y) = true -> single_spaced b x = true.
Proof.
  induction x as [|c x IH]; intros b; [reflexivity|].
  simpl. destruct (JS.is_white c).
  - intros H. apply andb_true_iff in H as [H1 H2]. rewrite H1. apply (IH true), H2.
  - apply IH.
Qed.

Lemma trim_start_fresh (s : jsstring) :
  match s with [] => True | c :: _ => JS.is_white c = false end -> JS.trim_start s = s.
Proof. destruct s as [|c s]; [reflexivity|]. simpl. intros ->. reflexivity. Qed.

Lemma trim_start_single (s : jsstring) :
  single_spaced false s = true -> single_spaced true (JS.trim_start s) = true.
Proof.
  destruct s as [|c s]; [reflexivity|]. simpl. destruct (JS.is_white c) eqn:Hc.
  - intros H. apply andb_true_iff in H as [_ H].
    rewrite trim_start_fresh by (apply single_spaced_head, H). exact H.
  - intros H. simpl. rewrite Hc. exact H.
Qed.

(** [trimStart] drops white space and leaves a text that does not begin with
    white space. *)
Lemma trim_start_spec (s : jsstring) :
  exists ws, s = ws ++ JS.trim_start s /\ Forall is_white ws /\
             match JS.trim_start s with [] => True | c :: _ => JS.is_white c = false end.
Proof.
  induction s as [|c s (ws & E & Hw & Ht)].
  - exists []. simpl. auto.
  - simpl. destruct (JS.is_white c) eqn:Hc.
    + exists (c :: ws). simpl. rewrite <- E. repeat split; auto.
    + exists []. simpl. rewrite Hc. auto.
Qed.

Lemma last_rev_head (s : jsstring) : last (rev s) = head s.
Proof.
  destruct s as [|c s]; [reflexivity|]. cbn [rev head]. apply last_snoc.
Qed.

Lemma trim_end_spec (s : jsstring) :
  exists ws, s = JS.trim_end s ++ ws /\ Forall is_white ws /\
             match last (JS.trim_end s) with Some c => JS.is_white c = false | None => True end.
Proof.
  unfold JS.trim_end. destruct (trim_start_spec (rev s)) as (ws & E & Hw & Ht).
  exists (rev ws). split; [|split].
  - rewrite <- rev_app_distr, <- E, rev_involutive. reflexivity.
  - apply Forall_forall. intros c Hc. apply (proj1 (elem_of_rev c ws)) in Hc.
    rewrite Forall_forall in Hw. apply Hw, Hc.
  - rewrite last_rev_head. destruct (JS.trim_start (rev s)); [exact I|exact Ht].
Qed.

Lemma trim_end_fresh (s : jsstring) :
  match last s with Some c => JS.is_white c = false | None => True end -> JS.trim_end s = s.
Proof.
  intros H. unfold JS.trim_end. rewrite trim_start_fresh, rev_involutive; [reflexivity|].
  rewrite <- (rev_involutive s), last_rev_head in H.
  destruct (rev s); [exact I|exact H].
Qed.

Lemma trim_normal (s : jsstring) : single_spaced false s = true -> normal_text (JS.trim s).
Proof.
  intros H. unfold JS.trim. apply trim_start_single in H.
  destruct (trim_end_spec (JS.trim_start s)) as (ws & E & _ & Hlast).
  split; [|exact Hlast]. rewrite E in H. eapply single_spaced_prefix, H.
Qed.

Lemma single_spaced_fixed (s : jsstring) : forall b,
  single_spaced b s = true -> collapse b s = s.
Proof.
  induction s as [|c s IH]; intros b; [reflexivity|].
  simpl. destruct (JS.is_white c).
  - intros H. apply andb_true_iff in H as [H1 H2]. apply andb_true_iff in H1 as [H0 H1].
    apply N.eqb_eq in H0. apply negb_true_iff in H1. subst b c.
    rewrite (IH true) by exact H2. reflexivity.
  - intros H. rewrite (IH false) by exact H. reflexivity.
Qed.

Lemma trim_fixed (s : jsstring) : normal_text s -> JS.trim s = s.
Proof.
  intros [H1 H2]. unfold JS.trim.
  rewrite trim_start_fresh by (apply single_spaced_head, H1). apply trim_end_fresh, H2.
Qed.

(** *** Text without entities *)

Lemma lit_here_none (L : jsstring) a p (s : jsstring) :
  head L = Some a -> match s with [] => True | c :: _ => c <> a end ->
  match_here no_flags (Lit L) p s = None.
Proof.
  intros HL Hs. unfold match_here. rewrite rmatch_lit, lit_match_prefix. simpl rest.
  destruct L as [|a' L]; [discriminate|]. inversion HL; subst a'.
  destruct s as [|c s]; [reflexivity|]. simpl.
  destruct (N.eqb_spec a c) as [->|_]; [contradiction Hs; reflexivity|reflexivity].
Qed.

Lemma replace_lit_absent (L rep : jsstring) a (s : jsstring) : forall p,
  head L = Some a -> a ∉ s -> replace_go no_flags (Lit L) rep 0 p s = s.
Proof.
  induction s as [|c s IH]; intros p HL Hs.
  - rewrite replace_go_end, (lit_here_none L a) by auto. reflexivity.
  - apply not_elem_of_cons in Hs as [Hc Hs].
    rewrite replace_go_here, (lit_here_none L a) by (simpl; auto).
    rewrite IH by assumption. reflexivity.
Qed.

(** On a text without ampersands the six entity passes change nothing: the
    normalizer collapses the white space and trims. *)
Lemma cleanText_no_entities (t : jsstring) :
  ampersand ∉ t -> cleanText (Some t) = JS.trim (collapse false t).
Proof.
  intros Ht. destruct t as [|c t]; [reflexivity|].
  unfold cleanText, replace_all.
  do 6 (rewrite (replace_lit_absent _ _ ampersand (c :: t)) by (reflexivity || exact Ht)).
  rewrite (replace_spaces_collapse (length (c :: t))) by lia. reflexivity.
Qed.

Lemma cleanText_normal_form (t : option jsstring) : normal_text (cleanText t).
Proof.
  destruct t as [[|c t]|]; try (split; [reflexivity|exact I]).
  unfold cleanText. apply trim_normal.
  unfold replace_all. erewrite replace_spaces_collapse by reflexivity.
  apply single_spaced_collapse.
Qed.

Lemma cleanText_of_normal (t : jsstring) :
  normal_text t -> ampersand ∉ t -> cleanText (Some t) = t.
Proof.
  intros Hn Ha. rewrite cleanText_no_entities by exact Ha.
  rewrite single_spaced_fixed by (apply single_spaced_weaken, Hn).
  apply trim_fixed, Hn.
Qed.

Lemma collapse_blank (t : jsstring) : Forall is_white t -> collapse true t = [].
Proof. intros H. rewrite <- (app_nil_r t), collapse_run by exact H. reflexivity. Qed.

Lemma cleanText_blank (t : jsstring) : Forall is_white t -> cleanText (Some t) = [].
Proof.
  intros H. rewrite cleanText_no_entities.
  - destruct t as [|c t]; [reflexivity|]. apply Forall_cons in H as [Hc H].
    simpl. unfold is_white in Hc. rewrite Hc, collapse_blank by exact H. reflexivity.
  - intros Hin. rewrite Forall_forall in H. apply H in Hin. discriminate Hin.
Qed.

Lemma single_spaced_lookup (s : jsstring) : forall b i c,
  single_spaced b s = true -> s !! i = Some c -> JS.is_white c = true ->
  c = 32%N /\ forall d, s !! S i = Some d -> JS.is_white d = false.
Proof.
  induction s as [|a s IH]; intros b i c H Hi Hc; [discriminate|].
  simpl in H. destruct i as [|i].
  - simpl in Hi. inversion Hi; subst a. rewrite Hc in H.
    apply andb_true_iff in H as [H1 H2]. apply andb_true_iff in H1 as [H0 _].
    apply N.eqb_eq in H0. split; [exact H0|].
    intros d Hd. apply single_spaced_head in H2.
    destruct s as [|e s]; [discriminate|]. simpl in Hd. inversion Hd; subst e. exact H2.
  - simpl in Hi. destruct (JS.is_white a).
    + apply andb_true_iff in H as [_ H]. eapply IH; eauto.
    + eapply IH; eauto.
Qed.

Lemma single_spaced_intro (s : jsstring) : forall b,
  (b = true -> match s with [] => True | c :: _ => JS.is_white c = false end) ->
  (forall i c, s !! i = Some c -> JS.is_white c = true ->
     c = 32%N /\ forall d, s !! S i = Some d -> JS.is_white d = false) ->
  single_spaced b s = true.
Proof.
  induction s as [|a s IH]; intros b Hb H; [reflexivity|].
  simpl. destruct (JS.is_white a) eqn:Ha.
  - destruct (H 0 a eq_refl Ha) as [-> Hnext].
    destruct b; [specialize (Hb eq_refl); simpl in Hb; congruence|].
    simpl. apply IH.
    + intros _. destruct s as [|e s]; [exact I|]. apply (Hnext e). reflexivity.
    + intros i c Hi Hc. apply (H (S i) c); assumption.
  - apply IH; [discriminate|]. intros i c Hi Hc. apply (H (S i) c); assumption.
Qed.

Lemma normal_text_normalized (s : jsstring) : normal_text s <-> normalized s.
Proof.
  split.
  - intros [H1 H2]. split; [|split].
    + intros c Hc. apply single_spaced_head in H1. destruct s; [discriminate|].
      inversion Hc; subst. exact H1.
    + intros c Hc. rewrite Hc in H2. exact H2.
    + intros i c Hi Hc. destruct (single_spaced_lookup s true i c H1 Hi Hc) as [-> Hnext].
      split; [reflexivity|]. destruct (s !! S i) as [d|] eqn:Hd.
      * exists d. split; [reflexivity|]. apply Hnext. reflexivity.
      * exfalso. apply lookup_ge_None in Hd. apply lookup_lt_Some in Hi as Hlt.
        assert (Hlast : last s = Some 32%N).
        { rewrite last_lookup. rewrite <- Hi. f_equal. lia. }
        rewrite Hlast in H2. discriminate H2.
  - intros (Hh & Hl & Hi). split.
    + apply single_spaced_intro.
      * intros _. destruct s as [|c s]; [exact I|]. apply Hh. reflexivity.
      * intros i c Hc Hw. destruct (Hi i c Hc Hw) as (-> & d & Hd & Hdw).
        split; [reflexivity|]. intros d' Hd'. congruence.
    + destruct (last s) as [c|]; [|exact I]. apply Hl. reflexivity.
Qed.

Lemma all_white (s : jsstring) : forallb JS.is_white s = true -> Forall is_white s.
Proof.
  intros H. apply Forall_forall. intros c Hc. rewrite forallb_forall in H.
  apply H, list_elem_of_In, Hc.
Qed.

Lemma blank_anchor_rejected link :
  Forall is_white (textContent link) ->
  team_of link = None /\ player_accepts link = None.
Proof.
  intros H. unfold team_of, player_accepts. rewrite (cleanText_blank _ H).
  destruct (href link) as [h|]; [|auto]. cbn [truthy]. rewrite !andb_false_r. cbn [andb]. auto.
Qed.

(** ** The text normalizer: the properties *)

(** X11: whatever its input, the normalizer returns a text in normal form:
    the first and the last code unit are not white space, and white space
    occurs only as a single space between two code units that are not white
    space.  [null], [undefined] and the empty string give the empty
    string. *)
Theorem cleanText_normalized :
  (forall t : option jsstring, normalized (cleanText t)) /\
  cleanText None = [] /\ cleanText (Some []) = [].
Proof.
  split; [|split; reflexivity].
  intros t. apply normal_text_normalized, cleanText_normal_form.
Qed.

(** X12: on a text without ampersands the normalizer replaces each run of
    white space by one space and trims the result; the entity passes change
    nothing. *)
Theorem cleanText_without_entities (t : jsstring) :
  ampersand ∉ t -> cleanText (Some t) = JS.trim (collapse false t).
Proof. apply cleanText_no_entities. Qed.

Lemma cleanText_without_entities_witness :
  cleanText (Some (js "  Manchester   City ")) = JS.trim (collapse false (js "  Manchester   City ")).
Proof.
  apply cleanText_without_entities. vm_compute.
  intros H. repeat (apply elem_of_cons in H as [H|H]; [discriminate H|]). inversion H.
Defined.

(** X13: a text in normal form without ampersands is a fixed point of the
    normalizer; so normalizing twice gives the same as normalizing once
    whenever the first result holds no ampersand. *)
Theorem cleanText_fixed_points :
  (forall t : jsstring, normalized t -> ampersand ∉ t -> cleanText (Some t) = t) /\
  (forall t : option jsstring,
     ampersand ∉ cleanText t -> cleanText (Some (cleanText t)) = cleanText t).
Proof.
  split.
  - intros t Hn Ha. apply cleanText_of_normal; [apply normal_text_normalized, Hn|exact Ha].
  - intros t Ha. apply cleanText_of_normal; [apply cleanText_normal_form|exact Ha].
Qed.

Lemma cleanText_fixed_points_witness :
  cleanText (Some (cleanText (Some (js " Arsenal&nbsp;FC ")))) = cleanText (Some (js " Arsenal&nbsp;FC ")).
Proof.
  apply (proj2 cleanText_fixed_points). vm_compute.
  intros H. repeat (apply elem_of_cons in H as [H|H]; [discriminate H|]). inversion H.
Defined.

(** X14: a text made of white space only is normalized to the empty string,
    and an anchor with such a text is passed over by every discovery pass,
    whatever its href. *)
Theorem blank_text_is_skipped :
  (forall t : jsstring, Forall is_white t -> cleanText (Some t) = []) /\
  (forall link, Forall is_white (textContent link) ->
     (forall st, scrapeTeams_visit st link = st) /\
     (forall team st, Basic.scrapeTeamPlayers_visit team st link = st) /\
     (forall st, Full.scrapeTeamPlayerList_visit st link = st)).
Proof.
  split; [apply cleanText_blank|].
  intros link H. destruct (blank_anchor_rejected link H) as [Ht Hp].
  split; [|split].
  - intros st. rewrite scrapeTeams_visit_eq. unfold dedup_visit. rewrite Ht. reflexivity.
  - intros team st. rewrite scrapeTeamPlayers_visit_eq. unfold dedup_visit, player_of.
    rewrite Hp. reflexivity.
  - intros st. rewrite scrapeTeamPlayerList_visit_eq. unfold dedup_visit, basicInfo_of.
    rewrite Hp. reflexivity.
Qed.

Lemma blank_text_is_skipped_witness :
  scrapeTeams_visit ([], ∅) (link_to (js "/fc-arsenal/startseite/verein/11") (js "   ")) = ([], ∅).
Proof.
  apply (proj2 blank_text_is_skipped). apply all_white. vm_compute. reflexivity.
Defined.

(** ** What a match tells about the text *)

Lemma before_app (a b : jsstring) p : before b (before a p) = before (a ++ b) p.
Proof.
  unfold before. destruct b as [|c b] using rev_ind.
  - rewrite app_nil_r. simpl. destruct (last a); reflexivity.
  - rewrite app_assoc, !last_snoc. reflexivity.
Qed.

Lemma moved_moved (a b t1 t2 : jsstring) x :
  moved b t2 (moved a t1 x) = moved (a ++ b) t2 x.
Proof.
  unfold moved. cbn [prev pos caps]. rewrite before_app, length_app, Nat.add_assoc.
  reflexivity.
Qed.

Lemma rmatch_rep_cls_bounded fl inv rs mn mx g x k :
  rmatch fl (Rep (Cls inv rs) mn mx g) x k =
  repeat_match (cls_match fl inv rs) [] g (S (mn + length (rest x))) mn mx x k.
Proof. reflexivity. Qed.

Lemma repeat_match_step m gs g f mn mx x k :
  mx <> Some 0 ->
  repeat_match m gs g (S f) mn mx x k =
  let d := fun y : mstate =>
    if (mn =? 0) && (pos y =? pos x) then None
    else repeat_match m gs g f (pred mn) (pred <$> mx) y k in
  if mn =? 0 then
    if g then match m (clear_caps gs x) d with Some z => Some z | None => k x end
    else match k x with Some z => Some z | None => m (clear_caps gs x) d end
  else m (clear_caps gs x) d.
Proof. destruct mx as [[|n]|]; [congruence|reflexivity|reflexivity]. Qed.

Section Inversion.

Variable fl : flags.

(** Whatever a literal returns was returned by its continuation after as many
    code units as the literal has, equal to them up to case folding. *)
Lemma lit_match_inv s : forall x k z,
  lit_match fl s x k = Some z ->
  exists s' tl, rest x = s' ++ tl /\
                Forall2 (fun a c => canon fl a = canon fl c) s s' /\
                k (moved s' tl x) = Some z.
Proof.
  induction s as [|a s IH]; intros x k z H.
  - exists [], (rest x). rewrite <- consume_moved, consume_here. auto.
  - simpl in H. destruct (rest x) as [|c tl0] eqn:E; [discriminate|].
    destruct (N.eqb_spec (canon fl a) (canon fl c)) as [Hc|]; [|discriminate].
    apply IH in H as (s' & tl & Hr & Hs & Hk). simpl in Hr. subst tl0.
    exists (c :: s'), tl. split; [reflexivity|]. split; [constructor; assumption|].
    rewrite <- consume_moved. simpl. rewrite consume_moved. exact Hk.
Qed.

Variables (inv : bool) (rs : list (N * N)).

(** Whatever a quantifier over a class returns was returned by its
    continuation after a run of accepted code units, as long as the
    quantifier allows. *)
Lemma repeat_cls_inv_bounded fuel : forall g mn mx x k z,
  (forall n, mx = Some n -> mn <= n) ->
  repeat_match (cls_match fl inv rs) [] g fuel mn mx x k = Some z ->
  exists ds tl, rest x = ds ++ tl /\ Forall (accepts fl inv rs) ds /\ mn <= length ds /\
                (forall n, mx = Some n -> length ds <= n) /\
                k (consume ds tl x) = Some z.
Proof using Type.
  induction fuel as [|f IH]; intros g mn mx x k z Hmx H; [discriminate|].
  assert (Hhere : k x = Some z -> mn = 0 ->
            exists ds tl, rest x = ds ++ tl /\ Forall (accepts fl inv rs) ds /\
              mn <= length ds /\ (forall n, mx = Some n -> length ds <= n) /\
              k (consume ds tl x) = Some z).
  { intros Hk ->. exists [], (rest x). rewrite consume_here.
    split; [reflexivity|]. split; [constructor|]. split; [simpl; lia|].
    split; [intros; simpl; lia|exact Hk]. }
  destruct (decide (mx = Some 0)) as [->|Hnz].
  { simpl in H. apply Hhere; [exact H|]. specialize (Hmx 0 eq_refl). lia. }
  rewrite repeat_match_step in H by exact Hnz. cbv zeta in H. rewrite clear_no_caps in H.
  assert (Hstep : forall d',
    (forall y, d' y = (if (mn =? 0) && (pos y =? pos x) then None
       else repeat_match (cls_match fl inv rs) [] g f (pred mn) (pred <$> mx) y k)) ->
    cls_match fl inv rs x d' = Some z ->
    exists ds tl, rest x = ds ++ tl /\ Forall (accepts fl inv rs) ds /\ mn <= length ds /\
                  (forall n, mx = Some n -> length ds <= n) /\
                  k (consume ds tl x) = Some z).
  { intros d' Hd' Hm. unfold cls_match in Hm.
    destruct (rest x) as [|c tl] eqn:E; [discriminate|].
    destruct (xorb inv (class_has fl rs c)) eqn:Hc; [|discriminate].
    rewrite Hd' in Hm.
    destruct ((mn =? 0) && (pos (advance x c tl) =? pos x)); [discriminate|].
    apply IH in Hm as (ds & tl' & E' & HP & Hmn & Hmax & Hk).
    - simpl in E'. subst tl. exists (c :: ds), tl'.
      split; [reflexivity|]. split; [constructor; auto|]. split; [simpl; lia|].
      split; [|exact Hk].
      intros n ->. destruct n as [|n]; [congruence|].
      specialize (Hmax n eq_refl). simpl. lia.
    - intros n Hn. destruct mx as [[|m]|]; [congruence| |discriminate].
      simpl in Hn. inversion Hn; subst. specialize (Hmx _ eq_refl). lia. }
  destruct (mn =? 0) eqn:Hz.
  - apply Nat.eqb_eq in Hz. destruct g.
    + destruct (cls_match fl inv rs x _) eqn:Hm.
      * inversion H; subst. eapply Hstep; [|exact Hm]. reflexivity.
      * auto.
    + destruct (k x) eqn:Hk.
      * inversion H; subst. auto.
      * eapply Hstep; [|exact H]. reflexivity.
  - eapply Hstep; [|exact H]. reflexivity.
Qed.

Lemma lit_inv s x k z :
  rmatch fl (Lit s) x k = Some z ->
  exists s' tl, rest x = s' ++ tl /\
                Forall2 (fun a c => canon fl a = canon fl c) s s' /\
                k (moved s' tl x) = Some z.
Proof. rewrite rmatch_lit. apply lit_match_inv. Qed.

Lemma rep_inv mn mx g x k z :
  (forall n, mx = Some n -> mn <= n) ->
  rmatch fl (Rep (Cls inv rs) mn mx g) x k = Some z ->
  exists ds tl, rest x = ds ++ tl /\ Forall (accepts fl inv rs) ds /\ mn <= length ds /\
                (forall n, mx = Some n -> length ds <= n) /\
                k (moved ds tl x) = Some z.
Proof using Type.
  intros Hmx H. rewrite rmatch_rep_cls_bounded in H.
  apply repeat_cls_inv_bounded in H as (ds & tl & H1 & H2 & H3 & H4 & H5); [|exact Hmx].
  exists ds, tl. rewrite <- consume_moved. auto.
Qed.

Lemma grp_rep_inv i mn mx g x k z :
  (forall n, mx = Some n -> mn <= n) ->
  rmatch fl (Grp i (Rep (Cls inv rs) mn mx g)) x k = Some z ->
  exists ds tl, rest x = ds ++ tl /\ Forall (accepts fl inv rs) ds /\ mn <= length ds /\
                (forall n, mx = Some n -> length ds <= n) /\
                k (with_cap i ds (moved ds tl x)) = Some z.
Proof using Type.
  intros Hmx H. rewrite rmatch_grp in H.
  apply rep_inv in H as (ds & tl & H1 & H2 & H3 & H4 & H5); [|exact Hmx].
  exists ds, tl. rewrite <- set_cap_moved by exact H1. auto.
Qed.

End Inversion.

Lemma unbounded mn : forall n, @None nat = Some n -> mn <= n.
Proof. discriminate. Qed.

Lemma exactly n : forall m, Some n = Some m -> n <= m.
Proof. intros m H. inversion H. lia. Qed.

Lemma match_here_inv fl r p s y :
  match_here fl r p s = Some y ->
  exists z, rmatch fl r (start r p s) Some = Some z /\ y = set_cap 0 (start r p s) z.
Proof.
  unfold match_here. destruct (rmatch fl r (start r p s) Some) as [z|]; [|discriminate].
  intros H. inversion H. eauto.
Qed.

(** *** Case folding *)

Lemma upper_fixed_low a : (a < 65)%N -> upper a = a.
Proof.
  intros H. unfold upper.
  destruct (N.leb_spec 97 a), (N.leb_spec a 122); simpl; try lia;
    destruct (N.eqb_spec a 181); try lia;
    destruct (N.leb_spec 224 a), (N.leb_spec a 254), (N.eqb_spec a 247); simpl; try lia;
    destruct (N.eqb_spec a 255); lia.
Qed.

Lemma canon_low fl a c : (a < 65)%N -> canon fl a = canon fl c -> c = a.
Proof.
  intros Ha. unfold canon. destruct (ignoreCase fl); [|congruence].
  rewrite (upper_fixed_low a Ha). intros E.
  assert (Hc : upper c = c) by (apply upper_low; lia). congruence.
Qed.

Lemma range_members_spec r a :
  (fst r <= snd r)%N -> In a (range_members r) -> (fst r <= a <= snd r)%N.
Proof.
  unfold range_members. intros Hr H. apply in_map_iff in H as (n & <- & Hn).
  apply in_seq in Hn. lia.
Qed.

(** Case folding does not widen a class whose members lie below the
    letters. *)
Lemma low_class_accepts fl rs c :
  Forall (fun r => (fst r <= snd r < 65)%N) rs ->
  accepts fl false rs c -> JS.in_ranges rs c = true.
Proof.
  intros Hlow H. unfold accepts, class_has in H. rewrite xorb_false_l in H.
  destruct (ignoreCase fl); [|exact H].
  apply existsb_exists in H as (r & Hr & H).
  apply existsb_exists in H as (a & Ha & H). apply N.eqb_eq in H.
  rewrite Forall_forall in Hlow. specialize (Hlow r (proj2 (list_elem_of_In _ _) Hr)).
  apply range_members_spec in Ha; [|lia].
  rewrite upper_fixed_low in H by lia.
  assert (c = a) as -> by (rewrite H; symmetry; apply upper_low; lia).
  unfold JS.in_ranges. apply existsb_exists. exists r. split; [exact Hr|].
  unfold JS.in_range. apply andb_true_iff. split; apply N.leb_le; lia.
Qed.

Lemma digit_accepts_any fl c : accepts fl false [(48, 57)%N] c -> is_digit c.
Proof.
  intros H. apply low_class_accepts in H.
  - unfold JS.in_ranges, JS.in_range in H. simpl in H. rewrite orb_false_r in H. exact H.
  - repeat constructor; simpl; lia.
Qed.

Lemma digits_accepted_any fl ds : Forall (accepts fl false [(48, 57)%N]) ds -> Forall is_digit ds.
Proof. intros H. eapply Forall_impl; [exact H|]. intros c. apply digit_accepts_any. Qed.

Lemma lit_one fl a (s' : jsstring) :
  (a < 65)%N -> Forall2 (fun a c => canon fl a = canon fl c) [a] s' -> s' = [a].
Proof.
  intros Ha H. inversion H as [|? c ? t Hc Ht]; subst. inversion Ht; subst.
  f_equal. eapply canon_low; eauto.
Qed.

(** *** Numbers *)

Lemma digits_value_nonneg (ds : jsstring) : forall acc, (0 <= acc)%Z -> (0 <= JS.digits_value acc ds)%Z.
Proof.
  induction ds as [|c ds IH]; intros acc H; simpl; [exact H|].
  destruct (JS.is_digit c); [|exact H]. apply IH. lia.
Qed.

(** A double holds every integer below 2^53 as it is. *)
Lemma number_of_small (z : Z) : (0 <= z < 2 ^ 53)%Z -> JS.number_of z = JS.Num z.
Proof.
  intros [H0 H]. unfold JS.number_of.
  replace (Z.log2 z <? 53)%Z with true; [reflexivity|].
  symmetry. apply Z.ltb_lt.
  destruct (Z.eq_dec z 0%Z) as [->|Hz]; [reflexivity|].
  apply Z.log2_lt_pow2; lia.
Qed.

(** The Number value of a non-negative integer is an integer that is not
    negative, or [Infinity]. *)
Lemma number_of_nonneg (z : Z) :
  (0 <= z)%Z ->
  match JS.number_of z with
  | JS.Num v => (0 <= v)%Z
  | JS.Infinity => True
  | _ => False
  end.
Proof.
  intros H. unfold JS.number_of.
  destruct (Z.log2 z <? 53)%Z; [exact H|]. cbv zeta.
  destruct (1024 <=? _)%Z; [exact I|].
  apply Z.shiftl_nonneg.
  assert (Hq : (0 <= Z.shiftr z (Z.log2 z - 52))%Z) by (apply Z.shiftr_nonneg; exact H).
  destruct (_ || _); lia.
Qed.

Lemma digits_value_bound (ds : jsstring) : forall acc,
  (0 <= acc)%Z -> (JS.digits_value acc ds < (acc + 1) * 10 ^ Z.of_nat (length ds))%Z.
Proof.
  induction ds as [|c ds IH]; intros acc H.
  - simpl. lia.
  - cbn [JS.digits_value length]. rewrite Nat2Z.inj_succ, Z.pow_succ_r by lia.
    assert (Hp : (0 < 10 ^ Z.of_nat (length ds))%Z) by (apply Z.pow_pos_nonneg; lia).
    destruct (JS.is_digit c) eqn:Hc.
    + unfold JS.is_digit in Hc. apply andb_true_iff in Hc as [H1 H2].
      apply N.leb_le in H1, H2.
      specialize (IH (10 * acc + Z.of_N (c - 48))%Z ltac:(lia)). nia.
    + nia.
Qed.

(** [parseInt] on a non-empty run of digits. *)
Lemma parseInt_run (ds : jsstring) :
  ds <> [] -> Forall is_digit ds -> JS.parseInt ds = JS.number_of (JS.digits_value 0 ds).
Proof.
  intros Hne Hd.
  destruct ds as [|c ds]; [congruence|]. apply Forall_cons in Hd as [Hc Hd].
  unfold is_digit, JS.is_digit in Hc. apply andb_true_iff in Hc as [H1 H2].
  apply N.leb_le in H1, H2.
  assert (Hw : JS.is_white c = false).
  { unfold JS.is_white, JS.in_ranges, JS.white_ranges, JS.in_range. cbn [existsb fst snd].
    repeat (apply orb_false_iff; split); try reflexivity;
      apply andb_false_iff;
      first [left; apply N.leb_gt; lia | right; apply N.leb_gt; lia]. }
  unfold JS.parseInt. cbn [JS.trim_start]. rewrite Hw.
  destruct (N.eqb_spec c 45); [lia|]. destruct (N.eqb_spec c 43); [lia|].
  unfold JS.parse_digits, JS.is_digit.
  replace ((48 <=? c)%N && (c <=? 57)%N) with true; [reflexivity|].
  symmetry. apply andb_true_iff. split; apply N.leb_le; lia.
Qed.

Lemma parseInt_digits (ds : jsstring) :
  ds <> [] -> Forall is_digit ds -> count_of ds (JS.parseInt ds).
Proof.
  intros Hne Hd. rewrite (parseInt_run ds Hne Hd).
  assert (H0 : (0 <= JS.digits_value 0 ds)%Z) by (apply digits_value_nonneg; lia).
  split; [exact Hne|]. split; [exact Hd|]. split; [reflexivity|].
  split; [apply number_of_nonneg, H0|].
  intros Hlen. apply number_of_small. split; [exact H0|].
  pose proof (digits_value_bound ds 0%Z ltac:(lia)) as Hb.
  assert (Hp : (10 ^ Z.of_nat (length ds) <= 10 ^ 15)%Z) by (apply Z.pow_le_mono_r; lia).
  assert (H53 : (10 ^ 15 < 2 ^ 53)%Z) by reflexivity.
  lia.
Qed.

(** The rounding at work: 2^53 + 1 is read as 2^53, a run of 310 digits as
    [Infinity], and ["-0"] as negative zero. *)
Lemma parseInt_rounds :
  JS.parseInt (js "9007199254740993") = JS.Num 9007199254740992 /\
  JS.parseInt (js "1" ++ replicate 309 48%N) = JS.Infinity /\
  JS.parseInt (js "-0") = JS.NegZero.
Proof. repeat split; vm_compute; reflexivity. Qed.

(** *** Dates *)

Lemma dateGroup_eq :
  dateGroup =
  Grp 1 (Seq (Rep (Cls false [(48, 57)%N]) 2 (Some 2) true)
        (Seq (Lit [slash])
        (Seq (Rep (Cls false [(48, 57)%N]) 2 (Some 2) true)
        (Seq (Lit [slash])
             (Rep (Cls false [(48, 57)%N]) 4 (Some 4) true))))).
Proof. reflexivity. Qed.

Lemma dateGroup_inv fl x k z :
  rmatch fl dateGroup x k = Some z ->
  exists date tl, rest x = date ++ tl /\ date_shaped date /\
                  k (with_cap 1 date (moved date tl x)) = Some z.
Proof.
  rewrite dateGroup_eq, rmatch_grp. intros H.
  rewrite rmatch_seq in H.
  apply rep_inv in H as (dd & t1 & E1 & Hdd & Hdd1 & Hdd2 & H); [|apply exactly].
  rewrite rmatch_seq in H.
  apply lit_inv in H as (s1 & t2 & E2 & Hs1 & H). apply lit_one in Hs1; [|reflexivity].
  rewrite rmatch_seq in H.
  apply rep_inv in H as (mm & t3 & E3 & Hmm & Hmm1 & Hmm2 & H); [|apply exactly].
  rewrite rmatch_seq in H.
  apply lit_inv in H as (s2 & t4 & E4 & Hs2 & H). apply lit_one in Hs2; [|reflexivity].
  apply rep_inv in H as (yyyy & t5 & E5 & Hyy & Hyy1 & Hyy2 & H); [|apply exactly].
  cbn [moved rest] in E2, E3, E4, E5. subst t1 t2 t3 t4 s1 s2.
  rewrite !moved_moved in H.
  exists (dd ++ [slash] ++ mm ++ [slash] ++ yyyy), t5.
  assert (E : rest x = (dd ++ [slash] ++ mm ++ [slash] ++ yyyy) ++ t5).
  { rewrite E1, <- !app_assoc. reflexivity. }
  split; [exact E|]. split.
  - exists dd, mm, yyyy.
    specialize (Hdd2 2 eq_refl). specialize (Hmm2 2 eq_refl). specialize (Hyy2 4 eq_refl).
    split; [reflexivity|].
    repeat split; try lia; eapply digits_accepted_any; eassumption.
  - rewrite <- set_cap_moved by exact E. exact H.
Qed.

(** *** Date of birth and age *)

Lemma dobAgePattern_eq :
  dobAgePattern =
  Seq (Lit (js "Date of birth/Age:"))
 (Seq (Rep (Cls false JS.white_ranges) 0 None true)
 (Seq dateGroup
 (Seq (Rep (Cls false JS.white_ranges) 0 None true)
 (Seq (Lit (js "("))
 (Seq (Grp 2 (Rep (Cls false [(48, 57)%N]) 1 None true))
      (Lit (js ")"))))))).
Proof. reflexivity. Qed.

Lemma dobOnlyPattern_eq :
  dobOnlyPattern =
  Seq (Lit (js "Date of birth:")) (Seq (Rep (Cls false JS.white_ranges) 0 None true) dateGroup).
Proof. reflexivity. Qed.

Lemma dobAge_match_inv p s y :
  match_here no_flags dobAgePattern p s = Some y ->
  exists date ds, date_shaped date /\ ds <> [] /\ Forall is_digit ds /\
                  caps y !! 1 = Some (Some date) /\ caps y !! 2 = Some (Some ds).
Proof.
  intros Hy. apply match_here_inv in Hy as (z & E & ->).
  set (x0 := start dobAgePattern p s) in *.
  assert (Hx0 : caps x0 = [None; None; None]) by reflexivity.
  rewrite dobAgePattern_eq in E.
  rewrite rmatch_seq in E. apply lit_inv in E as (s0 & t0 & E0 & _ & E).
  rewrite rmatch_seq in E.
  apply rep_inv in E as (w1 & t1 & E1 & _ & _ & _ & E); [|apply unbounded].
  rewrite rmatch_seq in E. apply dateGroup_inv in E as (date & t2 & E2 & Hdate & E).
  rewrite rmatch_seq in E.
  apply rep_inv in E as (w2 & t3 & E3 & _ & _ & _ & E); [|apply unbounded].
  rewrite rmatch_seq in E. apply lit_inv in E as (s4 & t4 & E4 & _ & E).
  rewrite rmatch_seq in E.
  apply grp_rep_inv in E as (ds & t5 & E5 & Hds & Hlen & _ & E); [|apply unbounded].
  apply lit_inv in E as (s6 & t6 & E6 & _ & E).
  inversion E; subst z. clear E.
  exists date, ds. split; [exact Hdate|].
  split; [destruct ds; [simpl in Hlen; lia|discriminate]|].
  split; [eapply digits_accepted_any, Hds|].
  cbn [set_cap caps moved with_cap]. rewrite Hx0. split; reflexivity.
Qed.

Lemma dobOnly_match_inv p s y :
  match_here no_flags dobOnlyPattern p s = Some y ->
  exists date, date_shaped date /\ caps y !! 1 = Some (Some date) /\ caps y !! 2 = None.
Proof.
  intros Hy. apply match_here_inv in Hy as (z & E & ->).
  set (x0 := start dobOnlyPattern p s) in *.
  assert (Hx0 : caps x0 = [None; None]) by reflexivity.
  rewrite dobOnlyPattern_eq in E.
  rewrite rmatch_seq in E. apply lit_inv in E as (s0 & t0 & E0 & _ & E).
  rewrite rmatch_seq in E.
  apply rep_inv in E as (w1 & t1 & E1 & _ & _ & _ & E); [|apply unbounded].
  apply dateGroup_inv in E as (date & t2 & E2 & Hdate & E).
  inversion E; subst z. clear E.
  exists date. split; [exact Hdate|].
  cbn [set_cap caps moved with_cap]. rewrite Hx0. split; reflexivity.
Qed.

Lemma group_of_caps idx (cs : list (option jsstring)) i v :
  cs !! i = Some v -> group (MatchResult idx cs) i = v.
Proof. unfold group. cbn [groups]. intros ->. reflexivity. Qed.

Lemma group_beyond idx (cs : list (option jsstring)) i :
  cs !! i = None -> group (MatchResult idx cs) i = None.
Proof. unfold group. cbn [groups]. intros ->. reflexivity. Qed.

Lemma exec_some_here fl r s m :
  exec fl r s = Some m ->
  exists p b y, match_here fl r p b = Some y /\ m = MatchResult (index m) (caps y).
Proof.
  unfold exec. intros H. apply exec_from_some in H as (a & b & y & _ & Hm & Hg).
  exists (before a None), b, y. split; [exact Hm|]. destruct m; simpl in *. congruence.
Qed.

Lemma dob_scan_shape text :
  match dob_scan dobPatterns text with
  | (Some s, Some n) => date_shaped s /\ exists ds, count_of ds n
  | (Some s, None) => date_shaped s
  | (None, Some _) => False
  | (None, None) => True
  end.
Proof.
  unfold dobPatterns, dob_scan.
  destruct (exec no_flags dobAgePattern text) as [m|] eqn:E1.
  - apply exec_some_here in E1 as (p & b & y & Hy & ->).
    apply dobAge_match_inv in Hy as (date & ds & Hdate & Hne & Hds & H1 & H2).
    rewrite (group_of_caps _ _ _ _ H1), (group_of_caps _ _ _ _ H2).
    destruct ds as [|c ds]; [congruence|]. cbn [truthy].
    split; [exact Hdate|]. exists (c :: ds). apply parseInt_digits; assumption.
  - destruct (exec no_flags dobOnlyPattern text) as [m|] eqn:E2; [|exact I].
    apply exec_some_here in E2 as (p & b & y & Hy & ->).
    apply dobOnly_match_inv in Hy as (date & Hdate & H1 & H2).
    rewrite (group_of_caps _ _ _ _ H1), (group_beyond _ _ _ H2). exact Hdate.
Qed.

(** *** Joining date and end of contract *)

Lemma dated_shape label text s : dated label text = Some s -> date_shaped s.
Proof.
  unfold dated.
  destruct (exec flag_i _ text) as [m|] eqn:E; [|discriminate].
  apply exec_some_here in E as (p & b & y & Hy & ->).
  apply match_here_inv in Hy as (z & E & ->).
  set (x0 := start _ p b) in *.
  assert (Hx0 : caps x0 = [None; None]) by reflexivity.

  change (seq [Lit (js label); star space; dateGroup])
    with (Seq (Lit (js label)) (Seq (Rep (Cls false JS.white_ranges) 0 None true) dateGroup)) in E.
  rewrite rmatch_seq in E. apply lit_inv in E as (s0 & t0 & E0 & _ & E).
  rewrite rmatch_seq in E.
  apply rep_inv in E as (w1 & t1 & E1 & _ & _ & _ & E); [|apply unbounded].
  apply dateGroup_inv in E as (date & t2 & E2 & Hdate & E).
  inversion E; subst z. clear E.
  unfold group. cbn [groups set_cap caps moved with_cap]. rewrite Hx0.
  cbn. intros H. inversion H; subst. exact Hdate.
Qed.

(** *** Foot *)

Lemma rmatch_alt fl r1 r2 x k :
  rmatch fl (Alt r1 r2) x k =
  match rmatch fl r1 x k with
  | Some z => Some z
  | None => rmatch fl r2 x k
  end.
Proof. reflexivity. Qed.

Lemma alt_inv fl r1 r2 x k z :
  rmatch fl (Alt r1 r2) x k = Some z ->
  rmatch fl r1 x k = Some z \/ rmatch fl r2 x k = Some z.
Proof.
  rewrite rmatch_alt. destruct (rmatch fl r1 x k); [intros H; left; exact H|auto].
Qed.

(** A code unit that folds like a lower-case ASCII letter is that letter in
    one of its two cases. *)
Lemma lower_of_fold a c :
  (97 <= a <= 122)%N -> upper a = upper c -> lower c = a.
Proof.
  intros Ha. unfold upper, lower.
  destruct (N.leb_spec 97 a), (N.leb_spec a 122); simpl; try lia.
  destruct (N.leb_spec 97 c), (N.leb_spec c 122); simpl;
    destruct (N.leb_spec 65 c), (N.leb_spec c 90); simpl; try lia;
    destruct (N.eqb_spec c 181); try lia;
    destruct (N.leb_spec 224 c), (N.leb_spec c 254), (N.eqb_spec c 247); simpl; try lia;
    destruct (N.eqb_spec c 255); try lia;
    destruct (N.leb_spec 192 c), (N.leb_spec c 222), (N.eqb_spec c 215); simpl; lia.
Qed.

Lemma lower_of_folded (L s' : jsstring) :
  Forall (fun a => (97 <= a <= 122)%N) L ->
  Forall2 (fun a c => canon flag_i a = canon flag_i c) L s' ->
  map lower s' = L.
Proof.
  intros HL H. induction H as [|a c L s' Hac _ IH]; [reflexivity|].
  apply Forall_cons in HL as [Ha HL]. simpl. f_equal; [|apply IH, HL].
  apply lower_of_fold; assumption.
Qed.

Lemma footPattern_eq :
  footPattern =
  Seq (Lit (js "Foot:")) (Seq (Rep (Cls false JS.white_ranges) 0 None true)
      (Grp 1 (Alt (Lit (js "right")) (Alt (Lit (js "left")) (Lit (js "both")))))).
Proof. reflexivity. Qed.

Lemma lower_letters (L : jsstring) :
  forallb (fun a => (97 <=? a)%N && (a <=? 122)%N) L = true ->
  Forall (fun a => (97 <= a <= 122)%N) L.
Proof.
  intros H. apply Forall_forall. intros a Ha. rewrite forallb_forall in H.
  specialize (H a (proj1 (list_elem_of_In _ _) Ha)).
  apply andb_true_iff in H as [H1 H2]. apply N.leb_le in H1, H2. lia.
Qed.

Lemma foot_of_cases text s :
  foot_of text = Some s -> s = js "right" \/ s = js "left" \/ s = js "both".
Proof.
  unfold foot_of.
  destruct (exec flag_i footPattern text) as [m|] eqn:E; [|discriminate].
  apply exec_some_here in E as (p & b & y & Hy & ->).
  apply match_here_inv in Hy as (z & E & ->).
  set (x0 := start footPattern p b) in *.
  assert (Hx0 : caps x0 = [None; None]) by reflexivity.

  rewrite footPattern_eq in E.
  rewrite rmatch_seq in E. apply lit_inv in E as (s0 & t0 & E0 & _ & E).
  rewrite rmatch_seq in E.
  apply rep_inv in E as (w1 & t1 & E1 & _ & _ & _ & E); [|apply unbounded].
  rewrite rmatch_grp in E.
  assert (Hword : forall L,
    rmatch flag_i (Lit L) (moved w1 t1 (moved s0 t0 x0))
      (fun y => Some (set_cap 1 (moved w1 t1 (moved s0 t0 x0)) y)) = Some z ->
    forallb (fun a => (97 <=? a)%N && (a <=? 122)%N) L = true ->
    map lower <$> group (MatchResult (index m) (caps (set_cap 0 x0 z))) 1 = Some L).
  { intros L H HL. apply lit_inv in H as (s' & tl & Es & Hs & H).
    inversion H; subst z. clear H.
    rewrite set_cap_moved by exact Es.
    unfold group. cbn [groups set_cap caps moved with_cap]. rewrite Hx0. cbn.
    f_equal. apply lower_of_folded; [apply lower_letters, HL|exact Hs]. }
  apply alt_inv in E as [E|E]; [|apply alt_inv in E as [E|E]];
    apply Hword in E; try reflexivity; rewrite E; intros H; inversion H; auto.
Qed.

(** *** Shirt number *)

(** X18: the shirt number, when it is extracted, is a non-empty run of digits
    that follows a [#] in the cleaned headline. *)
Theorem shirtNumber_is_digits (d : Document) (s : jsstring) :
  shirtNumber (scrapePlayerProfile_extract d) = Some s ->
  s <> [] /\ Forall is_digit s /\
  exists a tl, cleanText (nameEl d) = a ++ js "#" ++ s ++ tl.
Proof.
  change (shirtNumber (scrapePlayerProfile_extract d)) with (shirtNumber_of d).
  unfold shirtNumber_of.
  destruct (exec no_flags _ (cleanText (nameEl d))) as [m|] eqn:E; [|discriminate].
  unfold exec in E. apply exec_from_some in E as (a & b & y & Htext & Hy & Hg).
  apply match_here_inv in Hy as (z & E & ->).
  set (x0 := start _ _ b) in *.
  assert (Hx0 : caps x0 = [None; None]) by reflexivity.
  assert (Hr0 : rest x0 = b) by reflexivity.

  change (seq [Lit (js "#"); Grp 1 (plus digit)])
    with (Seq (Lit [35%N]) (Grp 1 (Rep (Cls false [(48, 57)%N]) 1 None true))) in E.
  rewrite rmatch_seq in E. apply lit_inv in E as (s0 & t0 & E0 & Hs0 & E).
  apply lit_one in Hs0; [|reflexivity]. subst s0.
  apply grp_rep_inv in E as (ds & t1 & E1 & Hds & Hlen & _ & E); [|apply unbounded].
  inversion E; subst z. clear E.
  unfold group. rewrite Hg. cbn [groups set_cap caps moved with_cap]. rewrite Hx0. cbn.
  intros H. inversion H; subst s. clear H.
  split; [destruct ds; [simpl in Hlen; lia|discriminate]|].
  split; [eapply digits_accepted_any, Hds|].
  exists a, t1. rewrite Htext. rewrite Hr0 in E0. rewrite E0.
  cbn [moved rest] in E1. rewrite E1. reflexivity.
Qed.

(** *** International team, caps and goals *)

Lemma international_of_shape text :
  match international_of text with
  | (Some team, Some caps, Some goals) =>
    normal_text team /\ (exists ds, count_of ds caps) /\ (exists ds, count_of ds goals)
  | (None, None, None) => True
  | _ => False
  end.
Proof.
  unfold international_of.
  destruct (exec flag_im intlPattern text) as [m|] eqn:E; [|exact I].
  split; [apply cleanText_normal_form|].
  apply exec_some_here in E as (p & b & y & Hy & ->).
  apply match_here_inv in Hy as (z & E & ->).
  set (x0 := start intlPattern p b) in *.
  assert (Hx0 : caps x0 = [None; None; None; None]) by reflexivity.

  rewrite intlPattern_eq in E.
  rewrite rmatch_seq in E. apply lit_inv in E as (s0 & t0 & _ & _ & E).
  rewrite rmatch_seq in E.
  apply rep_inv in E as (w1 & t1 & _ & _ & _ & _ & E); [|apply unbounded].
  rewrite rmatch_seq in E.
  apply grp_rep_inv in E as (team & t2 & _ & _ & _ & _ & E); [|apply unbounded].
  rewrite rmatch_seq in E.
  apply rep_inv in E as (w3 & t3 & _ & _ & _ & _ & E); [|apply unbounded].
  rewrite rmatch_seq in E. apply lit_inv in E as (s4 & t4 & _ & _ & E).
  rewrite rmatch_seq in E.
  apply rep_inv in E as (w5 & t5 & _ & _ & _ & _ & E); [|apply unbounded].
  rewrite rmatch_seq in E.
  apply grp_rep_inv in E as (ds2 & t6 & _ & Hds2 & Hlen2 & _ & E); [|apply unbounded].
  rewrite rmatch_seq in E.
  apply rep_inv in E as (w7 & t7 & _ & _ & _ & _ & E); [|apply unbounded].
  rewrite rmatch_seq in E. apply lit_inv in E as (s8 & t8 & _ & _ & E).
  rewrite rmatch_seq in E.
  apply rep_inv in E as (w9 & t9 & _ & _ & _ & _ & E); [|apply unbounded].
  apply grp_rep_inv in E as (ds3 & t10 & _ & Hds3 & Hlen3 & _ & E); [|apply unbounded].
  inversion E; subst z. clear E.
  unfold group. cbn [groups set_cap caps moved with_cap]. rewrite Hx0. cbn.
  split; [exists ds2|exists ds3]; apply parseInt_digits;
    try (eapply digits_accepted_any; eassumption).
  - destruct ds2; [simpl in Hlen2; lia|discriminate].
  - destruct ds3; [simpl in Hlen3; lia|discriminate].
Qed.

(** *** Market value *)

Lemma upper_high c v : upper c = v -> (924 < v)%N -> c = v.
Proof.
  unfold upper.
  destruct (N.leb_spec 97 c), (N.leb_spec c 122); simpl; try lia;
    destruct (N.eqb_spec c 181); try lia;
    destruct (N.leb_spec 224 c), (N.leb_spec c 254), (N.eqb_spec c 247); simpl; try lia;
    destruct (N.eqb_spec c 255); lia.
Qed.

(** A code unit that folds onto an upper-case ASCII letter is that letter in
    one of its two cases. *)
Lemma upper_letter c v : upper c = v -> (65 <= v <= 90)%N -> c = v \/ c = (v + 32)%N.
Proof.
  unfold upper.
  destruct (N.leb_spec 97 c), (N.leb_spec c 122); simpl; try lia;
    destruct (N.eqb_spec c 181); try lia;
    destruct (N.leb_spec 224 c), (N.leb_spec c 254), (N.eqb_spec c 247); simpl; try lia;
    destruct (N.eqb_spec c 255); lia.
Qed.

Lemma lit_euro fl (s' : jsstring) :
  Forall2 (fun a c => canon fl a = canon fl c) euro s' -> s' = euro.
Proof.
  change euro with [8364%N]. intros H.
  inversion H as [|? c ? t Hc Ht]; subst. inversion Ht; subst. f_equal.
  unfold canon in Hc. destruct (ignoreCase fl); [|congruence].
  change (upper 8364) with 8364%N in Hc. symmetry in Hc. apply upper_high in Hc; [exact Hc|lia].
Qed.

Lemma amount_accepts fl c :
  accepts fl false [(48, 57); (44, 44); (46, 46)]%N c -> amount_char c.
Proof.
  intros H. apply low_class_accepts in H; [|repeat constructor; simpl; lia].
  unfold JS.in_ranges, JS.in_range in H. cbn [existsb fst snd] in H.
  unfold amount_char, is_digit, JS.is_digit.
  apply orb_true_iff in H as [H|H]; [left; exact H|].
  apply orb_true_iff in H as [H|H].
  - right. left. apply andb_true_iff in H as [H1 H2]. apply N.leb_le in H1, H2. lia.
  - apply orb_true_iff in H as [H|H]; [|discriminate].
    right. right. apply andb_true_iff in H as [H1 H2]. apply N.leb_le in H1, H2. lia.
Qed.

Lemma mk_accepts c :
  accepts flag_i false [(109, 109); (107, 107)]%N c ->
  c = 109%N \/ c = 107%N \/ c = 77%N \/ c = 75%N.
Proof.
  intros H. unfold accepts, class_has in H. rewrite xorb_false_l in H.
  change (ignoreCase flag_i) with true in H. cbv iota in H.
  apply existsb_exists in H as (r & Hr & H).
  apply existsb_exists in H as (a & Ha & H). apply N.eqb_eq in H. symmetry in H.
  destruct Hr as [<-|[<-|[]]]; apply range_members_spec in Ha; try (simpl; lia);
    simpl in Ha; assert (Ea : a = 109%N \/ a = 107%N) by lia;
    destruct Ea as [-> | ->];
    [change (upper 109) with 77%N in H | change (upper 107) with 75%N in H
    |change (upper 109) with 77%N in H | change (upper 107) with 75%N in H];
    apply upper_letter in H; lia.
Qed.

Lemma mvPattern_eq :
  mvPattern =
  Grp 1 (Seq (Lit euro)
        (Seq (Rep (Cls false [(48, 57); (44, 44); (46, 46)]%N) 1 None true)
             (Rep (Cls false [(109, 109); (107, 107)]%N) 0 (Some 1) true))).
Proof. reflexivity. Qed.

Lemma mv_match_shape text m :
  exec flag_i mvPattern text = Some m -> exists v, group m 1 = Some v /\ amount_shaped v.
Proof.
  intros E. apply exec_some_here in E as (p & b & y & Hy & ->).
  apply match_here_inv in Hy as (z & E & ->).
  set (x0 := start mvPattern p b) in *.
  assert (Hx0 : caps x0 = [None; None]) by reflexivity.

  rewrite mvPattern_eq, rmatch_grp in E.
  rewrite rmatch_seq in E. apply lit_inv in E as (s0 & t0 & E0 & Hs0 & E).
  apply lit_euro in Hs0. subst s0.
  rewrite rmatch_seq in E.
  apply rep_inv in E as (num & t1 & E1 & Hnum & Hlen & _ & E); [|apply unbounded].
  apply rep_inv in E as (suf & t2 & E2 & Hsuf & _ & Hmax & E);
    [|intros n Hn; lia].
  cbn [moved rest] in E1, E2. subst t0 t1.
  rewrite !moved_moved in E.
  rewrite set_cap_moved in E by (rewrite E0, <- !app_assoc; reflexivity).
  inversion E; subst z. clear E.
  exists (euro ++ num ++ suf). split.
  - unfold group. cbn [groups set_cap caps moved with_cap]. rewrite Hx0. reflexivity.
  - exists num, suf. split; [reflexivity|].
    split; [destruct num; [simpl in Hlen; lia|discriminate]|].
    split; [eapply Forall_impl; [exact Hnum|]; intros c; apply amount_accepts|].
    specialize (Hmax 1 eq_refl).
    destruct suf as [|c [|c' suf]]; [auto| |simpl in Hmax; lia].
    apply Forall_cons in Hsuf as [Hc _]. apply mk_accepts in Hc.
    right. destruct Hc as [-> | [-> | [-> | ->]]]; auto.
Qed.

Lemma marketValue_scan_shape els :
  match marketValue_scan els with
  | Some v => amount_shaped v
  | None => True
  end.
Proof.
  induction els as [|el els IH]; [exact I|].
  rewrite marketValue_scan_cons.
  destruct (truthy _ && JS.includes euro _); [|exact IH].
  destruct (exec flag_i mvPattern _) as [m|] eqn:E; [|exact I].
  apply mv_match_shape in E as (v & -> & Hv). exact Hv.
Qed.

Lemma marketValue_scan_no_euro els :
  Forall (fun el => JS.includes euro (cleanText (Some el)) = false) els ->
  marketValue_scan els = None.
Proof.
  induction 1 as [|el els Hel _ IH]; [reflexivity|].
  rewrite marketValue_scan_cons, Hel, andb_false_r. exact IH.
Qed.

(** *** Height *)

Lemma upper_white a c : JS.is_white a = true -> upper a = upper c -> c = a.
Proof.
  unfold JS.is_white, JS.in_ranges, JS.white_ranges, JS.in_range. cbn [existsb fst snd].
  intros Ha.
  assert (Hr : (9 <= a <= 13 \/ a = 32 \/ a = 160 \/ a = 5760 \/ 8192 <= a <= 8202 \/
                8232 <= a <= 8233 \/ a = 8239 \/ a = 8287 \/ a = 12288 \/ a = 65279)%N).
  { repeat (apply orb_true_iff in Ha as [Ha|Ha];
            [apply andb_true_iff in Ha as [H1 H2]; apply N.leb_le in H1, H2; lia|]).
    discriminate Ha. }
  clear Ha. unfold upper.
  destruct (N.leb_spec 97 a), (N.leb_spec a 122); simpl; try lia;
    destruct (N.eqb_spec a 181); try lia;
    destruct (N.leb_spec 224 a), (N.leb_spec a 254), (N.eqb_spec a 247); simpl; try lia;
    destruct (N.eqb_spec a 255); try lia;
    destruct (N.leb_spec 97 c), (N.leb_spec c 122); simpl; try lia;
    destruct (N.eqb_spec c 181); try lia;
    destruct (N.leb_spec 224 c), (N.leb_spec c 254), (N.eqb_spec c 247); simpl; try lia;
    destruct (N.eqb_spec c 255); lia.
Qed.

Lemma white_accepts_any fl c : accepts fl false JS.white_ranges c -> is_white c.
Proof.
  intros H. unfold accepts, class_has in H. rewrite xorb_false_l in H.
  destruct (ignoreCase fl); [|exact H].
  apply existsb_exists in H as (r & Hr & H).
  apply existsb_exists in H as (a & Ha & H). apply N.eqb_eq in H.
  assert (Hw : JS.is_white a = true).
  { unfold JS.is_white, JS.in_ranges. apply existsb_exists. exists r. split; [exact Hr|].
    assert (Hle : (fst r <= snd r)%N).
    { unfold JS.white_ranges in Hr. simpl in Hr.
      repeat (destruct Hr as [<-|Hr]; [simpl; lia|]). contradiction. }
    apply range_members_spec in Ha; [|exact Hle].
    unfold JS.in_range. apply andb_true_iff. split; apply N.leb_le; lia. }
  apply upper_white in H; [|exact Hw]. subst c. exact Hw.
Qed.

Lemma heightPattern_eq :
  heightPattern =
  Seq (Lit (js "Height:")) (Seq (Rep (Cls false JS.white_ranges) 0 None true)
      (Grp 1 (Seq (Rep (Cls false [(48, 57); (44, 44); (46, 46)]%N) 1 None true)
             (Seq (Rep (Cls false JS.white_ranges) 0 None true) (Lit [109%N]))))).
Proof. reflexivity. Qed.

Lemma height_of_shape text v : height_of text = Some v -> height_shaped v.
Proof.
  unfold height_of.
  destruct (exec flag_i heightPattern text) as [m|] eqn:E; [|discriminate].
  apply exec_some_here in E as (p & b & y & Hy & ->).
  apply match_here_inv in Hy as (z & E & ->).
  set (x0 := start heightPattern p b) in *.
  assert (Hx0 : caps x0 = [None; None]) by reflexivity.
  rewrite heightPattern_eq in E.
  rewrite rmatch_seq in E. apply lit_inv in E as (s0 & t0 & _ & _ & E).
  rewrite rmatch_seq in E.
  apply rep_inv in E as (w1 & t1 & _ & _ & _ & _ & E); [|apply unbounded].
  rewrite rmatch_grp in E. set (x1 := moved w1 t1 _) in *.
  rewrite rmatch_seq in E.
  apply rep_inv in E as (num & t2 & E2 & Hnum & Hlen & _ & E); [|apply unbounded].
  rewrite rmatch_seq in E.
  apply rep_inv in E as (ws & t3 & E3 & Hws & _ & _ & E); [|apply unbounded].
  apply lit_inv in E as (u & t4 & E4 & Hu & E).
  cbn [moved rest] in E3, E4. subst t2 t3.
  rewrite !moved_moved in E.
  rewrite set_cap_moved in E by (rewrite E2, <- !app_assoc; reflexivity).
  inversion E; subst z. clear E.
  unfold group. cbn [groups set_cap caps moved with_cap]. subst x1. cbn [caps moved].
  rewrite Hx0. cbn. intros H. inversion H; subst v. clear H.
  exists num, ws, u. split; [reflexivity|].
  split; [destruct num; [simpl in Hlen; lia|discriminate]|].
  split; [eapply Forall_impl; [exact Hnum|]; intros c; apply amount_accepts|].
  split; [eapply Forall_impl; [exact Hws|]; intros c; apply white_accepts_any|].
  inversion Hu as [|? c ? t Hc Ht]; subst. inversion Ht; subst.
  unfold canon in Hc. change (ignoreCase flag_i) with true in Hc. cbv iota in Hc.
  change (upper 109) with 77%N in Hc. symmetry in Hc.
  apply upper_letter in Hc; [|lia]. destruct Hc as [-> | ->]; auto.
Qed.

(** *** The parsing helpers *)

Lemma parseAge_inv text n :
  parseAge text = Some n ->
  exists a ds tl, text = a ++ js "(" ++ ds ++ js ")" ++ tl /\ count_of ds n.
Proof.
  unfold parseAge.
  destruct (exec no_flags _ text) as [m|] eqn:E; [|discriminate].
  unfold exec in E. apply exec_from_some in E as (a & b & y & Htext & Hy & Hg).
  apply match_here_inv in Hy as (z & E & ->).
  set (x0 := start _ _ b) in *.
  assert (Hx0 : caps x0 = [None; None]) by reflexivity.
  assert (Hr0 : rest x0 = b) by reflexivity.
  change (seq [Lit (js "("); Grp 1 (plus digit); Lit (js ")")])
    with (Seq (Lit [40%N]) (Seq (Grp 1 (Rep (Cls false [(48, 57)%N]) 1 None true)) (Lit [41%N])))
    in E.
  rewrite rmatch_seq in E. apply lit_inv in E as (s0 & t0 & E0 & Hs0 & E).
  apply lit_one in Hs0; [|reflexivity]. subst s0.
  rewrite rmatch_seq in E.
  apply grp_rep_inv in E as (ds & t1 & E1 & Hds & Hlen & _ & E); [|apply unbounded].
  apply lit_inv in E as (s2 & t2 & E2 & Hs2 & E).
  apply lit_one in Hs2; [|reflexivity]. subst s2.
  inversion E; subst z. clear E.
  unfold group. rewrite Hg. cbn [groups set_cap caps moved with_cap]. rewrite Hx0. cbn.
  intros H. inversion H; subst n. clear H.
  exists a, ds, t2. split.
  - rewrite Htext. rewrite Hr0 in E0. rewrite E0.
    cbn [moved rest with_cap] in E1, E2. rewrite E1, E2. reflexivity.
  - apply parseInt_digits; [destruct ds; [simpl in Hlen; lia|discriminate]|].
    eapply digits_accepted_any, Hds.
Qed.

Lemma parseAge_none text : 40%N ∉ text -> parseAge text = None.
Proof.
  intros H. destruct (parseAge text) as [n|] eqn:E; [|reflexivity].
  apply parseAge_inv in E as (a & ds & tl & -> & _).
  exfalso. apply H. apply elem_of_app. right. left.
Qed.

Lemma parseAge_here (a ds tl : jsstring) :
  40%N ∉ a -> ds <> [] -> Forall is_digit ds ->
  parseAge (a ++ js "(" ++ ds ++ js ")" ++ tl) = Some (JS.number_of (JS.digits_value 0 ds)).
Proof.
  intros Ha Hne Hds. unfold parseAge, exec.
  rewrite exec_from_skip.
  2:{ intros a1 b1 -> Hb. destruct b1 as [|c b1]; [congruence|].
      destruct (match_here _ _ _ _) as [y|] eqn:E; [|reflexivity]. exfalso.
      apply match_here_inv in E as (z & E & _).
      change (seq [Lit (js "("); Grp 1 (plus digit); Lit (js ")")])
        with (Seq (Lit [40%N]) (Seq (Grp 1 (Rep (Cls false [(48, 57)%N]) 1 None true))
                                    (Lit [41%N]))) in E.
      rewrite rmatch_seq in E. apply lit_inv in E as (s0 & t0 & E0 & Hs0 & _).
      apply lit_one in Hs0; [|reflexivity]. subst s0. simpl in E0. inversion E0; subst c.
      apply Ha. apply elem_of_app. right. left. }
  assert (Hm : exists y,
    match_here no_flags (seq [Lit (js "("); Grp 1 (plus digit); Lit (js ")")])
      (before a None) (js "(" ++ ds ++ js ")" ++ tl) = Some y /\
    group (MatchResult 0 (caps y)) 1 = Some ds).
  { unfold match_here. set (x0 := start _ _ _).
    assert (Hx0 : caps x0 = [None; None]) by reflexivity.
    change (seq [Lit (js "("); Grp 1 (plus digit); Lit (js ")")])
      with (Seq (Lit [40%N]) (Seq (Grp 1 (Rep (Cls false [(48, 57)%N]) 1 None true))
                                  (Lit [41%N]))).
    erewrite run_seq; [eexists; split; [reflexivity|]|].
    2:{ eapply run_lit; [reflexivity|].
        apply run_seq. eapply (run_grp_greedy _ _ _ _ _ _ _ ds); [reflexivity| | | |].
        - apply digits_accepted, Hds.
        - intros Hc. apply digit_accepts in Hc. discriminate Hc.
        - destruct ds; [congruence|simpl; lia].
        - eapply run_lit; reflexivity. }
    unfold group. cbn [groups set_cap caps moved with_cap]. rewrite Hx0. reflexivity. }
  destruct Hm as (y & Hy & Hcap).
  erewrite exec_from_here by exact Hy.
  unfold group in *. cbn [groups] in *. rewrite Hcap.
  change (default [] (Some ds)) with ds.
  rewrite (parseInt_run ds Hne Hds). reflexivity.
Qed.

(** X23: [parseCapsGoals] returns both numbers or neither; when it returns
    them, the text holds two non-empty runs of digits separated by a slash
    with optional white space around it, and the numbers are the Number
    values of these runs: doubles that are never [NaN] and never negative,
    equal to the integers that the runs denote when these have at most 15
    digits, rounded to a double (or [Infinity]) beyond. *)
Theorem parseCapsGoals_both_or_neither (text : jsstring) :
  match parseCapsGoals text with
  | (Some caps, Some goals) =>
    exists a ds1 ws1 ws2 ds2 tl,
      text = a ++ ds1 ++ ws1 ++ js "/" ++ ws2 ++ ds2 ++ tl /\
      Forall is_white ws1 /\ Forall is_white ws2 /\ count_of ds1 caps /\ count_of ds2 goals
  | (None, None) => True
  | _ => False
  end.
Proof.
  unfold parseCapsGoals.
  destruct (exec no_flags _ text) as [m|] eqn:E; [|exact I].
  unfold exec in E. apply exec_from_some in E as (a & b & y & Htext & Hy & Hg).
  apply match_here_inv in Hy as (z & E & ->).
  set (x0 := start _ _ b) in *.
  assert (Hx0 : caps x0 = [None; None; None]) by reflexivity.
  assert (Hr0 : rest x0 = b) by reflexivity.
  change (seq [Grp 1 (plus digit); star space; Lit (js "/"); star space; Grp 2 (plus digit)])
    with (Seq (Grp 1 (Rep (Cls false [(48, 57)%N]) 1 None true))
         (Seq (Rep (Cls false JS.white_ranges) 0 None true)
         (Seq (Lit [slash])
         (Seq (Rep (Cls false JS.white_ranges) 0 None true)
              (Grp 2 (Rep (Cls false [(48, 57)%N]) 1 None true)))))) in E.
  rewrite rmatch_seq in E.
  apply grp_rep_inv in E as (ds1 & t1 & E1 & Hds1 & Hlen1 & _ & E); [|apply unbounded].
  rewrite rmatch_seq in E.
  apply rep_inv in E as (ws1 & t2 & E2 & Hws1 & _ & _ & E); [|apply unbounded].
  rewrite rmatch_seq in E. apply lit_inv in E as (s3 & t3 & E3 & Hs3 & E).
  apply lit_one in Hs3; [|reflexivity]. subst s3.
  rewrite rmatch_seq in E.
  apply rep_inv in E as (ws2 & t4 & E4 & Hws2 & _ & _ & E); [|apply unbounded].
  apply grp_rep_inv in E as (ds2 & t5 & E5 & Hds2 & Hlen2 & _ & E); [|apply unbounded].
  inversion E; subst z. clear E.
  unfold group. rewrite Hg. cbn [groups set_cap caps moved with_cap]. rewrite Hx0. cbn.
  exists a, ds1, ws1, ws2, ds2, t5. split; [|split; [|split; [|split]]].
  - rewrite Htext. rewrite Hr0 in E1. rewrite E1.
    cbn [moved rest with_cap] in E2, E3, E4, E5. rewrite E2, E3, E4, E5. reflexivity.
  - eapply Forall_impl; [exact Hws1|]. intros c. apply white_accepts_any.
  - eapply Forall_impl; [exact Hws2|]. intros c. apply white_accepts_any.
  - apply parseInt_digits; [destruct ds1; [simpl in Hlen1; lia|discriminate]|].
    eapply digits_accepted_any, Hds1.
  - apply parseInt_digits; [destruct ds2; [simpl in Hlen2; lia|discriminate]|].
    eapply digits_accepted_any, Hds2.
Qed.

(** ** Field extraction: the shapes of the fields *)

(** X15: whatever the page, a date of birth that is extracted has the shape
    [dd/dd/dddd]; an age that is extracted is the Number value of a non-empty
    run of digits, so it is never [NaN] and never negative (the integer that
    the run denotes when the run has at most 15 digits, a rounded double or
    [Infinity] beyond); and an age is extracted only together with a date of
    birth.  Both extraction callbacks give the same two fields. *)
Theorem dob_and_age_shapes (d : Document) :
  (dateOfBirth (scrapePlayer_extract d) = dateOfBirth (scrapePlayerProfile_extract d) /\
   age (scrapePlayer_extract d) = age (scrapePlayerProfile_extract d)) /\
  match dateOfBirth (scrapePlayerProfile_extract d), age (scrapePlayerProfile_extract d) with
  | Some s, Some n => date_shaped s /\ exists ds, count_of ds n
  | Some s, None => date_shaped s
  | None, Some _ => False
  | None, None => True
  end.
Proof.
  split; [split; reflexivity|].
  change (dateOfBirth (scrapePlayerProfile_extract d))
    with (fst (dob_scan dobPatterns (bodyText d))).
  change (age (scrapePlayerProfile_extract d))
    with (snd (dob_scan dobPatterns (bodyText d))).
  pose proof (dob_scan_shape (bodyText d)) as H.
  destruct (dob_scan dobPatterns (bodyText d)) as [[s|] [n|]]; exact H.
Qed.

(** X16: the joining date and the end of the contract, when they are
    extracted, have the shape [dd/dd/dddd], in both extraction callbacks. *)
Theorem joined_and_contract_shapes (d : Document) :
  (forall s, joined (scrapePlayerProfile_extract d) = Some s -> date_shaped s) /\
  (forall s, contractExpires (scrapePlayerProfile_extract d) = Some s -> date_shaped s) /\
  joined (scrapePlayer_extract d) = joined (scrapePlayerProfile_extract d) /\
  contractExpires (scrapePlayer_extract d) = contractExpires (scrapePlayerProfile_extract d).
Proof.
  split; [|split; [|split; reflexivity]]; intros s; apply dated_shape.
Qed.

Lemma joined_and_contract_shapes_witness :
  date_shaped (js "01/07/2023").
Proof.
  apply (proj1 (joined_and_contract_shapes (page [] (js "Joined: 01/07/2023  Contract expires: -")))).
  vm_compute. reflexivity.
Defined.

(** X17: the preferred foot, when it is extracted, is one of ["right"],
    ["left"] and ["both"], in lower case whatever the case on the page. *)
Theorem foot_is_one_of_three (d : Document) :
  (forall s, foot (scrapePlayerProfile_extract d) = Some s ->
     s = js "right" \/ s = js "left" \/ s = js "both") /\
  foot (scrapePlayer_extract d) = foot (scrapePlayerProfile_extract d).
Proof. split; [|reflexivity]. intros s. apply foot_of_cases. Qed.

Lemma foot_is_one_of_three_witness :
  js "left" = js "right" \/ js "left" = js "left" \/ js "left" = js "both".
Proof.
  apply (proj1 (foot_is_one_of_three (page [] (js "Height: 1,87 m  FOOT: Left  Agent: X")))).
  vm_compute. reflexivity.
Defined.

Lemma shirtNumber_is_digits_witness :
  js "14" <> [] /\ Forall is_digit (js "14") /\
  exists a tl, cleanText (nameEl (headline (js " #14  Viktor Gyökeres "))) = a ++ js "#" ++ js "14" ++ tl.
Proof.
  apply (shirtNumber_is_digits (headline (js " #14  Viktor Gyökeres "))).
  vm_compute. reflexivity.
Defined.

(** X19: the international team, caps and goals are extracted together or not
    at all; when they are, the team is a text in normal form and the caps and
    the goals are the Number values of non-empty runs of digits, never [NaN]
    and never negative (the integers that the runs denote when these have at
    most 15 digits, rounded doubles or [Infinity] beyond). *)
Theorem international_fields_together (d : Document) :
  match internationalTeam (scrapePlayerProfile_extract d),
        internationalCaps (scrapePlayerProfile_extract d),
        internationalGoals (scrapePlayerProfile_extract d) with
  | Some team, Some caps, Some goals =>
    normalized team /\ (exists ds, count_of ds caps) /\ (exists ds, count_of ds goals)
  | None, None, None => True
  | _, _, _ => False
  end.
Proof.
  change (internationalTeam (scrapePlayerProfile_extract d))
    with (fst (fst (international_of (bodyText d)))).
  change (internationalCaps (scrapePlayerProfile_extract d))
    with (snd (fst (international_of (bodyText d)))).
  change (internationalGoals (scrapePlayerProfile_extract d))
    with (snd (international_of (bodyText d))).
  pose proof (international_of_shape (bodyText d)) as H.
  destruct (international_of (bodyText d)) as [[[team|] [c|]] [g|]]; try exact H.
  cbn [fst snd]. destruct H as (H1 & H2 & H3). split; [|auto].
  apply normal_text_normalized, H1.
Qed.

(** X20: the market value, when it is extracted, is the euro sign followed by
    a non-empty run of digits, commas and dots and by at most one of the
    letters m and k, in either case; when no market-value element holds a
    euro sign, nothing is extracted.  Both extraction callbacks agree. *)
Theorem marketValue_is_an_amount (d : Document) :
  (forall v, marketValue (scrapePlayerProfile_extract d) = Some v -> amount_shaped v) /\
  (Forall (fun el => JS.includes euro (cleanText (Some el)) = false) (mvElements d) ->
   marketValue (scrapePlayerProfile_extract d) = None) /\
  marketValue (scrapePlayer_extract d) = marketValue (scrapePlayerProfile_extract d).
Proof.
  split; [|split; [|reflexivity]].
  - intros v H. pose proof (marketValue_scan_shape (mvElements d)) as Hs.
    change (marketValue (scrapePlayerProfile_extract d)) with (marketValue_scan (mvElements d)) in H.
    rewrite H in Hs. exact Hs.
  - apply marketValue_scan_no_euro.
Qed.

Lemma marketValue_is_an_amount_witness :
  amount_shaped (js "€1.50K").
Proof.
  apply (proj1 (marketValue_is_an_amount (page [js "Value"; js " €1.50K  Last update"] []))).
  vm_compute. reflexivity.
Defined.

(** X21: the height, when it is extracted, is a non-empty run of digits,
    commas and dots, then white space (possibly none), then the letter m in
    either case.  Both extraction callbacks agree. *)
Theorem height_is_a_length (d : Document) :
  (forall v, height (scrapePlayerProfile_extract d) = Some v -> height_shaped v) /\
  height (scrapePlayer_extract d) = height (scrapePlayerProfile_extract d).
Proof. split; [|reflexivity]. intros v. apply height_of_shape. Qed.

Lemma height_is_a_length_witness : height_shaped (js "1,87 m").
Proof.
  apply (proj1 (height_is_a_length (page [] (js "Height: 1,87 m  Citizenship: Sweden")))).
  vm_compute. reflexivity.
Defined.

(** X22: [parseAge] returns a number only for a text that holds a non-empty
    run of digits in parentheses, and then the Number value of that run: a
    double that is never [NaN] and never negative, equal to the integer that
    the run denotes when the run has at most 15 digits, rounded to a double
    (or [Infinity]) beyond.  It returns the number of the first parenthesised
    run when no parenthesis comes before it, and [null] on a text without an
    opening parenthesis. *)
Theorem parseAge_reads_parenthesised_digits :
  (forall text n,
     parseAge text = Some n ->
     exists a ds tl, text = a ++ js "(" ++ ds ++ js ")" ++ tl /\ count_of ds n) /\
  (forall a ds tl : jsstring,
     40%N ∉ a -> ds <> [] -> Forall is_digit ds ->
     exists n, parseAge (a ++ js "(" ++ ds ++ js ")" ++ tl) = Some n /\ count_of ds n) /\
  (forall text, 40%N ∉ text -> parseAge text = None).
Proof.
  split; [|split].
  - apply parseAge_inv.
  - intros a ds tl Ha Hne Hds. eexists. split; [apply parseAge_here; assumption|].
    rewrite <- (parseInt_run ds Hne Hds). apply parseInt_digits; assumption.
  - apply parseAge_none.
Qed.

Lemma parseAge_reads_parenthesised_digits_witness :
  parseAge (js "15/08/1998 " ++ js "(" ++ js "27" ++ js ")" ++ []) = Some (JS.Num 27).
Proof.
  destruct (proj1 (proj2 parseAge_reads_parenthesised_digits) (js "15/08/1998 ") (js "27") [])
    as (n & E & _ & _ & _ & _ & Hn).
  - apply (bool_decide_unpack _). vm_compute. reflexivity.
  - discriminate.
  - repeat constructor.
  - rewrite E, Hn by (vm_compute; lia). reflexivity.
Defined.

(** ** Team URLs and squad pages *)

Lemma absent_in_app p (x y tl : jsstring) :
  absent_in p (x ++ y) tl = absent_in p x (y ++ tl) && absent_in p y tl.
Proof.
  induction x as [|c x IH]; [reflexivity|].
  simpl. rewrite IH, <- app_assoc, andb_assoc. reflexivity.
Qed.

Lemma absent_no_head (p : jsstring) c0 (a tl : jsstring) :
  head p = Some c0 -> c0 ∉ a -> absent_in p a tl = true.
Proof.
  intros Hp. destruct p as [|c p]; [discriminate|]. inversion Hp; subst c.
  induction a as [|c a IH]; intros Ha; [reflexivity|].
  apply not_elem_of_cons in Ha as [Hc Ha]. simpl.
  destruct (N.eqb_spec c0 c) as [E|_]; [congruence|]. simpl. apply IH, Ha.
Qed.

Lemma split_go_absent sep (a : jsstring) : forall cur tl,
  absent_in sep a tl = true ->
  JS.split_go sep 0 cur (a ++ tl) = JS.split_go sep 0 (rev a ++ cur) tl.
Proof.
  induction a as [|c a IH]; intros cur tl H; [reflexivity|].
  simpl in H. apply andb_true_iff in H as [H1 H2]. apply negb_true_iff in H1.
  change ((c :: a) ++ tl) with (c :: (a ++ tl)).
  change (JS.split_go sep 0 cur (c :: a ++ tl))
    with (if JS.starts_with sep (c :: a ++ tl)
          then rev cur :: JS.split_go sep (length sep - 1) [] (a ++ tl)
          else JS.split_go sep 0 (c :: cur) (a ++ tl)).
  rewrite H1.
  rewrite IH by exact H2. cbn [rev]. rewrite <- app_assoc. reflexivity.
Qed.

(** The first piece of a split is what precedes the first occurrence of the
    separator, and the whole text when there is none. *)
Lemma split_first_piece sep (a : jsstring) (tl : option jsstring) :
  sep <> [] ->
  absent_in sep a (match tl with Some r => sep ++ r | None => [] end) = true ->
  JS.split_str sep (a ++ match tl with Some r => sep ++ r | None => [] end) !! 0 = Some a.
Proof.
  intros Hsep H. unfold JS.split_str. rewrite split_go_absent by exact H.
  rewrite app_nil_r. destruct tl as [r|].
  - destruct sep as [|c sep]; [congruence|].
    change ((c :: sep) ++ r) with (c :: (sep ++ r)).
    change (JS.split_go (c :: sep) 0 (rev a) (c :: sep ++ r))
      with (if JS.starts_with (c :: sep) (c :: sep ++ r)
            then rev (rev a) :: JS.split_go (c :: sep) (length (c :: sep) - 1) [] (sep ++ r)
            else JS.split_go (c :: sep) 0 (c :: rev a) (sep ++ r)).
    change (c :: sep ++ r) with ((c :: sep) ++ r). rewrite starts_with_app.
    cbn [lookup list_lookup]. rewrite rev_involutive. reflexivity.
  - simpl. rewrite rev_involutive. reflexivity.
Qed.

Lemma starts_with_cons a (p : jsstring) c (s : jsstring) :
  JS.starts_with (a :: p) (c :: s) = (a =? c)%N && JS.starts_with p s.
Proof. reflexivity. Qed.

(** A pattern without a slash cannot reach over the slash that ends a
    segment. *)
Lemma starts_with_segment (p : jsstring) : forall (seg X : jsstring),
  slash ∉ p -> JS.starts_with p (seg ++ slash :: X) = JS.starts_with p seg.
Proof.
  induction p as [|a p IH]; intros seg X Hp; [reflexivity|].
  apply not_elem_of_cons in Hp as [Ha Hp].
  destruct seg as [|c seg]; cbn [app].
  - rewrite starts_with_cons. destruct (N.eqb_spec a slash) as [E|_]; [congruence|reflexivity].
  - rewrite !starts_with_cons, IH by exact Hp. reflexivity.
Qed.

(** A pattern that ends with a slash, its only one, begins a segment only if
    the segment is the pattern without the slash. *)
Lemma starts_with_whole_segment (q : jsstring) : forall (seg X : jsstring),
  slash ∉ q -> slash ∉ seg ->
  JS.starts_with (q ++ [slash]) (seg ++ slash :: X) = true -> seg = q.
Proof.
  induction q as [|a q IH]; intros seg X Hq Hseg H.
  - destruct seg as [|c seg]; [reflexivity|]. cbn [app] in H.
    rewrite starts_with_cons in H.
    apply andb_true_iff in H as [H _]. apply N.eqb_eq in H. subst c.
    exfalso. apply Hseg. left.
  - apply not_elem_of_cons in Hq as [Ha Hq].
    destruct seg as [|c seg]; cbn [app] in H; rewrite starts_with_cons in H.
    + apply andb_true_iff in H as [H1 _]. apply N.eqb_eq in H1. congruence.
    + apply andb_true_iff in H as [H1 H2]. apply N.eqb_eq in H1. subst c.
      f_equal. eapply IH; [exact Hq| |exact H2]. intros Hin. apply Hseg. right. exact Hin.
Qed.

Lemma no_slash_in_digits (ds : jsstring) : Forall is_digit ds -> slash ∉ ds.
Proof.
  intros H Hin. rewrite Forall_forall in H. apply H in Hin. discriminate Hin.
Qed.

Lemma absent_one p c (X : jsstring) :
  absent_in p [c] X = negb (JS.starts_with p (c :: X)).
Proof. cbn [absent_in app]. apply andb_true_r. Qed.

(** No season suffix begins inside the path of a team row. *)
Lemma no_season_in_row slug ds (tl : jsstring) :
  plain_slug slug -> ds <> [] -> Forall is_digit ds ->
  absent_in (js "/saison_id") (js "/" ++ slug ++ js "/startseite/verein/" ++ ds) tl = true.
Proof.
  intros (Hne & Hslash & _ & Hseason) Hds Hd.
  change (js "/" ++ slug ++ js "/startseite/verein/" ++ ds)
    with ([slash] ++ (slug ++ (js "/startseite/verein" ++ ([slash] ++ ds)))).
  rewrite !absent_in_app, <- !app_assoc.
  (* inside the slug, and inside the digits: no slash *)
  rewrite (absent_no_head _ slash slug) by (reflexivity || exact Hslash).
  rewrite (absent_no_head _ slash ds) by (reflexivity || apply no_slash_in_digits, Hd).
  (* at the first slash *)
  rewrite absent_one.
  change (JS.starts_with (js "/saison_id")
            (slash :: slug ++ js "/startseite/verein" ++ [slash] ++ ds ++ tl))
    with ((slash =? slash)%N &&
          JS.starts_with (js "saison_id")
            (slug ++ slash :: js "startseite/verein" ++ [slash] ++ ds ++ tl)).
  rewrite starts_with_segment, Hseason
    by (apply (bool_decide_unpack _); vm_compute; reflexivity).
  rewrite andb_false_r.
  (* inside [/startseite/verein] *)
  replace (absent_in (js "/saison_id") (js "/startseite/verein") ([slash] ++ ds ++ tl))
    with true by (vm_compute; reflexivity).
  (* at the slash before the digits *)
  rewrite absent_one.
  destruct ds as [|d ds]; [congruence|]. apply Forall_cons in Hd as [Hd _].
  change (JS.starts_with (js "/saison_id") (slash :: (d :: ds) ++ tl))
    with ((slash =? slash)%N && ((115 =? d)%N && JS.starts_with (js "aison_id") (ds ++ tl))).
  destruct (N.eqb_spec 115 d) as [<-|_]; [discriminate Hd|]. rewrite andb_false_r. reflexivity.
Qed.

(** The season suffix is cut off: the URL of a team keeps the href up to the
    digits. *)
Lemma team_row_first_piece slug ds season :
  plain_slug slug -> ds <> [] -> Forall is_digit ds ->
  JS.split_str (js "/saison_id") (team_row_href slug ds season) !! 0
  = Some (js "/" ++ slug ++ js "/startseite/verein/" ++ ds).
Proof.
  intros Hslug Hds Hd. unfold team_row_href.
  assert (E : forall tl : jsstring,
             js "/" ++ slug ++ js "/startseite/verein/" ++ ds ++ tl
             = (js "/" ++ slug ++ js "/startseite/verein/" ++ ds) ++ tl).
  { intros tl. rewrite <- !app_assoc. reflexivity. }
  rewrite E. apply split_first_piece; [discriminate|].
  apply no_season_in_row; assumption.
Qed.

(** The squad page of a team: [/startseite/] becomes [/kader/] where it
    follows the slug. *)
Lemma squad_url_of_row slug (rest : jsstring) :
  slash ∉ slug -> slug <> js "startseite" ->
  JS.replace_str (js "/startseite/") (js "/kader/")
    (BASE_URL ++ js "/" ++ slug ++ js "/startseite/" ++ rest)
  = BASE_URL ++ js "/" ++ slug ++ js "/kader/" ++ rest.
Proof.
  intros Hslash Hslug.
  rewrite replace_str_absent by (vm_compute; reflexivity). f_equal.
  change (js "/" ++ slug ++ ?r) with (slash :: (slug ++ r)).
  rewrite replace_str_cons.
  replace (JS.starts_with (js "/startseite/") (slash :: slug ++ js "/startseite/" ++ rest))
    with false.
  2:{ symmetry. apply not_true_is_false. intros H.
      change (JS.starts_with (js "/startseite/") (slash :: ?s))
        with ((slash =? slash)%N && JS.starts_with (js "startseite" ++ [slash]) s) in H.
      rewrite N.eqb_refl in H. cbn [andb] in H.
      change (slug ++ js "/startseite/" ++ rest)
        with (slug ++ slash :: js "startseite/" ++ rest) in H.
      apply starts_with_whole_segment in H; [contradiction|
        apply (bool_decide_unpack _); vm_compute; reflexivity|exact Hslash]. }
  f_equal. rewrite (replace_str_absent _ _ slug).
  - apply (f_equal (app slug)). reflexivity.
  - apply (absent_no_head _ slash); [reflexivity|exact Hslash].
Qed.

Lemma team_of_inv link t :
  team_of link = Some t ->
  exists h, href link = Some h /\
    t = Team.Make (cleanText (Some (textContent link)))
          (BASE_URL ++ default [] (JS.split_str (js "/saison_id") h !! 0))
          (extractSlug h) (extractId h verein) /\
    3 <= length (cleanText (Some (textContent link))).
Proof.
  unfold team_of. destruct (href link) as [h|]; [|discriminate].
  destruct (truthy h && truthy _ && test no_flags teamHref h
            && negb (negb (truthy _) || (length _ <? 3))
            && negb (test no_flags numericOnly _)) eqn:G; [|discriminate].
  intros H. inversion H; subst. clear H. exists h. split; [reflexivity|]. split; [reflexivity|].
  apply andb_true_iff in G as [G _]. apply andb_true_iff in G as [_ G].
  apply negb_true_iff, orb_false_iff in G as [_ G]. apply Nat.ltb_ge in G. exact G.
Qed.

Lemma team_row_shape slug ds season :
  plain_slug slug -> ds <> [] -> Forall is_digit ds ->
  team_href_shape (team_row_href slug ds season) slug ds
    (match season with Some r => js "/saison_id" ++ r | None => [] end).
Proof.
  intros (Hne & Hslash & _) Hds Hd. unfold team_href_shape, team_row_href.
  repeat split; auto. destruct season; [reflexivity|exact I].
Qed.

Lemma replace_str_none p r (u : jsstring) : JS.includes p u = false -> JS.replace_str p r u = u.
Proof.
  induction u as [|c u IH]; intros H.
  - simpl in H. rewrite orb_false_r in H. simpl. rewrite H. reflexivity.
  - change (JS.includes p (c :: u)) with (JS.starts_with p (c :: u) || JS.includes p u) in H.
    apply orb_false_iff in H as [H1 H2].
    rewrite replace_str_cons, H1, IH by exact H2. reflexivity.
Qed.

Lemma imageUrl_scan_cons img imgs :
  imageUrl_scan (img :: imgs) =
  match source_of img with
  | Some u => if truthy u && JS.includes (js "portrait") u then Some (header_size u)
              else imageUrl_scan imgs
  | None => imageUrl_scan imgs
  end.
Proof. reflexivity. Qed.

Lemma imageUrl_scan_skip pre : forall imgs,
  Forall no_portrait pre -> imageUrl_scan (pre ++ imgs) = imageUrl_scan imgs.
Proof.
  induction pre as [|img pre IH]; intros imgs H; [reflexivity|].
  apply Forall_cons in H as [Hi H]. cbn [app]. rewrite imageUrl_scan_cons.
  unfold no_portrait in Hi. destruct (source_of img) as [u|]; [|apply IH, H].
  rewrite Hi, andb_false_r. apply IH, H.
Qed.

Lemma includes_nonempty p (u : jsstring) : p <> [] -> JS.includes p u = true -> truthy u = true.
Proof.
  intros Hp H. destruct u as [|c u]; [|reflexivity].
  destruct p; [congruence|]. discriminate H.
Qed.

Lemma trim_trimmed (s : jsstring) : trimmed (JS.trim s).
Proof.
  unfold JS.trim.
  destruct (trim_start_spec s) as (ws & _ & _ & Hstart).
  destruct (trim_end_spec (JS.trim_start s)) as (ws' & E & _ & Hlast).
  split.
  - intros c Hc. destruct (JS.trim_end (JS.trim_start s)) as [|c' t] eqn:Et; [discriminate|].
    inversion Hc; subst c'. rewrite E in Hstart. exact Hstart.
  - intros c Hc. rewrite Hc in Hlast. exact Hlast.
Qed.

(** ** Team rows, images and citizenship: the properties *)

(** X24: the team that a team row gives.  For a row whose href is
    [/<slug>/startseite/verein/<digits>], alone or followed by a season
    suffix, the team gets the slug and the digits as its slug and id, its URL
    is the site's base URL followed by the href without the season suffix,
    and the squad page requested for it, in either scraper, is that URL with
    [kader] in the place of [startseite]. *)
Theorem team_row_urls (link : Anchor) (slug ds : jsstring) (season : option jsstring)
        (t : Team.t) :
  href link = Some (team_row_href slug ds season) ->
  plain_slug slug -> ds <> [] -> Forall is_digit ds ->
  team_of link = Some t ->
  Team.slug t = slug /\ Team.id t = ds /\
  Team.url t = BASE_URL ++ js "/" ++ slug ++ js "/startseite/verein/" ++ ds /\
  (forall w tr,
     (Basic.scrapeTeamPlayers w t tr).2
     = tr ++ [Scrape (BASE_URL ++ js "/" ++ slug ++ js "/kader/verein/" ++ ds)]) /\
  (forall w tr,
     (Full.scrapeTeamPlayerList w t tr).2
     = tr ++ [Scrape (BASE_URL ++ js "/" ++ slug ++ js "/kader/verein/" ++ ds)]).
Proof.
  intros Hh Hslug Hds Hd Ht.
  apply team_of_inv in Ht as (h & Hh' & -> & _).
  rewrite Hh in Hh'. inversion Hh'; subst h. clear Hh'.
  pose proof (team_row_shape slug ds season Hslug Hds Hd) as Hshape.
  cbn [Team.slug Team.id Team.url].
  rewrite (extractSlug_of_shape _ _ _ _ Hshape), (extractId_of_shape _ _ _ _ Hshape).
  rewrite team_row_first_piece by assumption.
  change (default [] (Some (js "/" ++ slug ++ js "/startseite/verein/" ++ ds)))
    with (js "/" ++ slug ++ js "/startseite/verein/" ++ ds).
  split; [reflexivity|]. split; [reflexivity|]. split; [reflexivity|].
  assert (Hsquad : JS.replace_str (js "/startseite/") (js "/kader/")
                     (BASE_URL ++ js "/" ++ slug ++ js "/startseite/verein/" ++ ds)
                   = BASE_URL ++ js "/" ++ slug ++ js "/kader/verein/" ++ ds).
  { destruct Hslug as (_ & Hslash & Hne & _).
    apply (squad_url_of_row slug (js "verein/" ++ ds)); assumption. }
  split; intros w tr.
  - unfold Basic.scrapeTeamPlayers, scrape. cbn [Team.url]. rewrite Hsquad.
    destruct (scrape_page w tr _); reflexivity.
  - unfold Full.scrapeTeamPlayerList, scrape. cbn [Team.url]. rewrite Hsquad.
    destruct (scrape_page w tr _); reflexivity.
Qed.

Lemma team_row_urls_witness :
  Team.slug arsenal = js "fc-arsenal" /\ Team.id arsenal = js "11" /\
  Team.url arsenal = BASE_URL ++ js "/" ++ js "fc-arsenal" ++ js "/startseite/verein/" ++ js "11" /\
  (forall w tr,
     (Basic.scrapeTeamPlayers w arsenal tr).2
     = tr ++ [Scrape (BASE_URL ++ js "/" ++ js "fc-arsenal" ++ js "/kader/verein/" ++ js "11")]) /\
  (forall w tr,
     (Full.scrapeTeamPlayerList w arsenal tr).2
     = tr ++ [Scrape (BASE_URL ++ js "/" ++ js "fc-arsenal" ++ js "/kader/verein/" ++ js "11")]).
Proof.
  apply (team_row_urls arsenal_row (js "fc-arsenal") (js "11") (Some (js "/2024")) arsenal).
  - vm_compute. reflexivity.
  - repeat split.
    + discriminate.
    + apply (bool_decide_unpack _). vm_compute. reflexivity.
    + apply (bool_decide_unpack _). vm_compute. reflexivity.
  - discriminate.
  - repeat constructor.
  - vm_compute. reflexivity.
Defined.

(** X25: the names of the discovered teams and players, the place of birth
    and the current club are texts in normal form: no white space at either
    end, and inside only single spaces.  Team names have at least three code
    units. *)
Theorem names_and_places_normalized :
  (forall allLinks t, t ∈ scrapeTeams_extract allLinks ->
     normalized (Team.name t) /\ 3 <= length (Team.name t)) /\
  (forall team allLinks p, p ∈ Basic.scrapeTeamPlayers_extract team allLinks ->
     normalized (Basic.Player.name p)) /\
  (forall allLinks info, info ∈ Full.scrapeTeamPlayerList_extract allLinks ->
     normalized (Full.BasicInfo.name info)) /\
  (forall d s, placeOfBirth (scrapePlayerProfile_extract d) = Some s -> normalized s) /\
  (forall d s, currentClub (scrapePlayerProfile_extract d) = Some s -> normalized s).
Proof.
  split; [|split; [|split; [|split]]].
  - intros allLinks t Ht.
    apply (discovered_from_anchor Team.id team_of) in Ht as (link & _ & Hc);
      [|apply scrapeTeams_visit_eq].
    apply team_of_inv in Hc as (h & _ & -> & Hlen). cbn [Team.name].
    split; [apply normal_text_normalized, cleanText_normal_form|exact Hlen].
  - intros team allLinks p Hp.
    apply (discovered_from_anchor Basic.Player.id (player_of team)) in Hp
      as (link & _ & Hc); [|apply scrapeTeamPlayers_visit_eq].
    apply player_of_inv in Hc as (playerId & name & h & Ha & ->).
    apply player_accepts_shape in Ha as (_ & -> & _). cbn [Basic.Player.name].
    apply normal_text_normalized, cleanText_normal_form.
  - intros allLinks info Hp.
    apply (discovered_from_anchor Full.BasicInfo.id basicInfo_of) in Hp
      as (link & _ & Hc); [|apply scrapeTeamPlayerList_visit_eq].
    apply basicInfo_of_inv in Hc as (playerId & name & h & Ha & ->).
    apply player_accepts_shape in Ha as (_ & -> & _). cbn [Full.BasicInfo.name].
    apply normal_text_normalized, cleanText_normal_form.
  - intros d s.
    change (placeOfBirth (scrapePlayerProfile_extract d)) with (placeOfBirth_of (bodyText d)).
    unfold placeOfBirth_of. destruct (exec flag_m pobPattern _); [|discriminate].
    intros H. inversion H. apply normal_text_normalized, cleanText_normal_form.
  - intros d s.
    change (currentClub (scrapePlayerProfile_extract d)) with (currentClub_of (bodyText d)).
    unfold currentClub_of. destruct (exec flag_m clubPattern _); [|discriminate].
    intros H. inversion H. apply normal_text_normalized, cleanText_normal_form.
Qed.

Lemma names_and_places_normalized_witness :
  normalized (Team.name arsenal) /\ 3 <= length (Team.name arsenal).
Proof.
  apply (proj1 names_and_places_normalized [chelsea_row; arsenal_row]).
  vm_compute. right. left.
Defined.

(** X26: the image URL of a profile is taken from the first image whose
    source ([data-src], else [src]) holds [portrait], with the size
    replacements applied; it is [null] when there is no such image, and the
    source itself when the source holds none of the three size markers.
    Both extraction callbacks agree. *)
Theorem imageUrl_from_first_portrait :
  (forall d, Forall no_portrait (allImages d) ->
     imageUrl (scrapePlayerProfile_extract d) = None) /\
  (forall d pre img post u,
     allImages d = pre ++ img :: post -> Forall no_portrait pre ->
     source_of img = Some u -> JS.includes (js "portrait") u = true ->
     imageUrl (scrapePlayerProfile_extract d) = Some (header_size u) /\
     (JS.includes (js "/small/") u = false -> JS.includes (js "/medium/") u = false ->
      JS.includes (js "/big/") u = false -> header_size u = u)) /\
  (forall d, imageUrl (scrapePlayer_extract d) = imageUrl (scrapePlayerProfile_extract d)).
Proof.
  split; [|split; [|reflexivity]].
  - intros d H.
    change (imageUrl (scrapePlayerProfile_extract d)) with (imageUrl_scan (allImages d)).
    rewrite <- (app_nil_r (allImages d)), imageUrl_scan_skip by exact H. reflexivity.
  - intros d pre img post u Himgs Hpre Hsrc Hu.
    change (imageUrl (scrapePlayerProfile_extract d)) with (imageUrl_scan (allImages d)).
    split.
    + rewrite Himgs, imageUrl_scan_skip by exact Hpre.
      rewrite imageUrl_scan_cons, Hsrc, Hu.
      rewrite (includes_nonempty (js "portrait") u) by (discriminate || exact Hu).
      reflexivity.
    + intros H1 H2 H3. unfold header_size.
      rewrite (replace_str_none (js "/small/")) by exact H1.
      rewrite (replace_str_none (js "/medium/")) by exact H2.
      apply replace_str_none, H3.
Qed.

Lemma imageUrl_from_first_portrait_witness :
  imageUrl (scrapePlayerProfile_extract profile_page)
  = Some (header_size (js "https://img.a.transfermarkt.technology/portrait/big/472423-1700000000.jpg")).
Proof.
  apply (proj1 (proj2 imageUrl_from_first_portrait) profile_page []
           {| dataSrc := None;
              src := Some (js "https://img.a.transfermarkt.technology/portrait/big/472423-1700000000.jpg") |}
           []).
  - reflexivity.
  - constructor.
  - reflexivity.
  - vm_compute. reflexivity.
Defined.

(** X27: the citizenship entries.  In both extraction callbacks every entry
    has more than one code unit and no white space at either end.  The two
    callbacks hold the same entries, except that the full-profile scraper
    gives [null] where the test script gives the empty list. *)
Theorem citizenship_entries_trimmed (d : Document) :
  Forall (fun c => 1 < length c /\ trimmed c) (citizenship (scrapePlayer_extract d)) /\
  match citizenship (scrapePlayerProfile_extract d) with
  | Some l => l = citizenship (scrapePlayer_extract d) /\ l <> []
  | None => citizenship (scrapePlayer_extract d) = []
  end.
Proof.
  change (citizenship (scrapePlayer_extract d)) with (citizenship_of (bodyText d)).
  change (citizenship (scrapePlayerProfile_extract d))
    with (if 0 <? length (citizenship_of (bodyText d))
          then Some (citizenship_of (bodyText d)) else None).
  split.
  - unfold citizenship_of. destruct (exec flag_m citizenPattern _) as [m|]; [|constructor].
    apply Forall_forall. intros c Hc. apply list_elem_of_filter in Hc as [Hlen Hc].
    split; [exact Hlen|]. unfold citizenship_tokens in Hc.
    apply list_elem_of_fmap in Hc as (piece & -> & _). apply trim_trimmed.
  - destruct (citizenship_of (bodyText d)) as [|c l]; [reflexivity|].
    split; [reflexivity|discriminate].
Qed.
